(** * Shard pruning (src/backend/distributed/planner/shard_pruning.c)

    A shallow embedding of [PruneShards] and of the functions it reaches:
    the prune-tree builder and its three rewriting passes, the walker that
    folds every AND branch into a [PruningInstance], and the search routines
    ([PruneOne], [PruneWithBoundaries], [LowerShardBoundary],
    [UpperShardBoundary], [ExhaustivePrune]).

    Conventions of the embedding.
    - A PostgreSQL [List *] is a Rocq list; [NIL] and [NULL] are [[]].
    - A pointer to a [ShardInterval] of [sortedShardIntervalArray] is the
      index of that cell of the array: pointer equality is index equality.
    - [ereport(ERROR, ...)] and [elog(ERROR, ...)] abort the call; they are
      the [Error] results of the [result] monad below.
    - [Assert] is compiled out (production build) and leaves no trace.
    - [DebugLog] and [BooleanPrint] only emit trace output and are dropped. *)

From Stdlib Require Import ZArith List Bool Lia Permutation.
Import ListNotations.
Open Scope Z_scope.
Set Warnings "-register-all".

(** ** Errors *)

Inductive PruneError :=
| NoShardIntervalComparator      (* "shard pruning not possible without a shard interval comparator" *)
| NoPartitionColumnComparator    (* "shard pruning not possible without a partition column comparator" *)
| FunctionReturnedNull.          (* "function %u returned NULL" *)

Inductive result (A : Type) :=
| Ok (a : A)
| Error (e : PruneError).
Arguments Ok {A} a.
Arguments Error {A} e.

Definition bind {A B} (m : result A) (k : A -> result B) : result B :=
  match m with
  | Ok a => k a
  | Error e => Error e
  end.

Notation "x <- m ;; k" := (bind m (fun x => k))
  (at level 61, m at next level, right associativity).

(** ** PostgreSQL nodes (nodes/primnodes.h), as far as the pruning code
    looks into them *)

Definition Oid := Z.
Definition Datum := Z.
Definition AttrNumber := Z.
Definition Index := Z.

Definition BOOLOID : Oid := 16.

(** [DatumGetBool(X)] is [(bool) ((X) != 0)]. *)
Definition DatumGetBool (d : Datum) : bool := negb (d =? 0).

Inductive BoolExprType := AND_EXPR | OR_EXPR | NOT_EXPR.

Definition BoolExprType_eqb (a b : BoolExprType) : bool :=
  match a, b with
  | AND_EXPR, AND_EXPR | OR_EXPR, OR_EXPR | NOT_EXPR, NOT_EXPR => true
  | _, _ => false
  end.

Inductive CoercionForm :=
| COERCE_EXPLICIT_CALL | COERCE_EXPLICIT_CAST | COERCE_IMPLICIT_CAST.

Record Var := mkVar {
  varno : Index;
  varattno : AttrNumber;
  vartype : Oid
}.

Definition Var_eqb (a b : Var) : bool :=
  (varno a =? varno b) && (varattno a =? varattno b) && (vartype a =? vartype b).

Record Const := mkConst {
  consttype : Oid;
  constvalue : Datum;
  constisnull : bool
}.

Definition Const_eqb (a b : Const) : bool :=
  (consttype a =? consttype b) && (constvalue a =? constvalue b)
  && Bool.eqb (constisnull a) (constisnull b).

(** The null constant the planner builds ([makeNullConst]): the datum of a
    null constant is [(Datum) 0]. *)
Definition makeNullConst (consttype : Oid) : Const := mkConst consttype 0 true.

Inductive NullTestType := IS_NULL | IS_NOT_NULL.

(** Expression nodes.  [T_List] is the implicitly ANDed list found at the top
    of quals. [T_NullTest] stands for the node kinds the pruning code has no
    case for. *)
Inductive Node :=
| T_Var (v : Var)
| T_Const (c : Const)
| T_OpExpr (opno : Oid) (args : list Node)
| T_ScalarArrayOpExpr (opno : Oid) (useOr : bool) (leftarg rightarg : Node)
| T_BoolExpr (boolop : BoolExprType) (args : list Node)
| T_RelabelType (arg : Node) (relabelformat : CoercionForm)
| T_NullTest (arg : Node) (nulltesttype : NullTestType)
| T_List (elements : list Node).

(** [strip_implicit_coercions] (nodes/nodeFuncs.c), on the coercion node of
    this embedding. *)
Fixpoint strip_implicit_coercions (node : Node) : Node :=
  match node with
  | T_RelabelType arg COERCE_IMPLICIT_CAST => strip_implicit_coercions arg
  | _ => node
  end.

(** B-tree strategy numbers (access/stratnum.h) and [ROWCOMPARE_NE], the
    values [OpBtreeInterpretation.strategy] takes. *)
Inductive StrategyNumber :=
| BTLessStrategyNumber
| BTLessEqualStrategyNumber
| BTEqualStrategyNumber
| BTGreaterEqualStrategyNumber
| BTGreaterStrategyNumber
| ROWCOMPARE_NE.

Definition StrategyNumber_eqb (a b : StrategyNumber) : bool :=
  match a, b with
  | BTLessStrategyNumber, BTLessStrategyNumber
  | BTLessEqualStrategyNumber, BTLessEqualStrategyNumber
  | BTEqualStrategyNumber, BTEqualStrategyNumber
  | BTGreaterEqualStrategyNumber, BTGreaterEqualStrategyNumber
  | BTGreaterStrategyNumber, BTGreaterStrategyNumber
  | ROWCOMPARE_NE, ROWCOMPARE_NE => true
  | _, _ => false
  end.

(** An array value ([ArrayType]): element type and the elements with their
    null flags, in iteration order. *)
Record ArrayType := mkArray {
  ARR_ELEMTYPE : Oid;
  ARR_ELEMENTS : list (Datum * bool)
}.

(** What the pruning code reads from the system catalogs and from memory:
    the b-tree interpretations of an operator and the array a by-reference
    datum points to. *)
Record Catalog := mkCatalog {
  get_op_btree_interpretation : Oid -> list StrategyNumber;
  DatumGetArrayTypeP : Datum -> ArrayType
}.

(** Modelled from the spec: [OperatorImplementsEquality] (not among the
    sources): "the operator is an equality operator", that is, one of its
    b-tree interpretations is the equality strategy. *)
Definition OperatorImplementsEquality (cat : Catalog) (opno : Oid) : bool :=
  existsb (StrategyNumber_eqb BTEqualStrategyNumber)
          (get_op_btree_interpretation cat opno).

(** Modelled from the spec: [RESERVED_HASHED_COLUMN_ID], the attribute number
    of "the reserved pre-hashed column marker" (its header is not among the
    sources).  It is [MaxAttrNumber]; the value plays no part below. *)
Definition RESERVED_HASHED_COLUMN_ID : AttrNumber := 32767.

(** ** Table metadata (distributed/metadata_cache.h) *)

(** Modelled from the spec: the "partitioning method (NONE, HASH, RANGE,
    APPEND)" of the partition descriptor, the constants [DISTRIBUTE_BY_*]
    (their header is not among the sources). *)
Inductive PartitionMethod :=
| DISTRIBUTE_BY_HASH | DISTRIBUTE_BY_RANGE | DISTRIBUTE_BY_APPEND | DISTRIBUTE_BY_NONE.

Definition PartitionMethod_eqb (a b : PartitionMethod) : bool :=
  match a, b with
  | DISTRIBUTE_BY_HASH, DISTRIBUTE_BY_HASH
  | DISTRIBUTE_BY_RANGE, DISTRIBUTE_BY_RANGE
  | DISTRIBUTE_BY_APPEND, DISTRIBUTE_BY_APPEND
  | DISTRIBUTE_BY_NONE, DISTRIBUTE_BY_NONE => true
  | _, _ => false
  end.

(** Modelled from the spec: a shard interval (its declaration is not among
    the sources), "identified by a shard id; carries an optional minimum and
    maximum boundary value and existence flags for each"; the fields are the
    ones the pruning code reads. *)
Record ShardInterval := mkShardInterval {
  shardId : Z;
  minValueExists : bool;
  maxValueExists : bool;
  minValue : Datum;
  maxValue : Datum
}.

(** A comparator ([FmgrInfo *]) called with two non-null arguments; [None]
    is a NULL result. *)
Definition CompareFunction := Datum -> Datum -> option Z.

(** Modelled from the spec: the partition descriptor of a table (its
    declaration is not among the sources): "partitioning method, the
    designated partition column, a value-comparator and an
    interval-comparator function handle, the sorted shard-interval array, its
    length, and a flag indicating whether any two intervals in that array
    overlap"; the length is the length of the array, and [hashFunction] is
    the hash of a column value of a hash-partitioned table. *)
Record DistTableCacheEntry := mkCacheEntry {
  partitionMethod : PartitionMethod;
  partitionColumn : Var;                      (* PartitionColumn(relationId, rangeTableId) *)
  sortedShardIntervalArray : list ShardInterval;
  hasOverlappingShardInterval : bool;
  shardIntervalCompareFunction : option CompareFunction;
  shardColumnCompareFunction : option CompareFunction;
  hashFunction : Datum -> Datum
}.

Definition shardIntervalArrayLength (cacheEntry : DistTableCacheEntry) : Z :=
  Z.of_nat (length (sortedShardIntervalArray cacheEntry)).

Definition INVALID_SHARD_INDEX : Z := -1.

(** The cell of the array an index designates.  Every index the code
    dereferences lies in the array; the default is never reached. *)
Definition dummyShardInterval : ShardInterval := mkShardInterval 0 false false 0 0.

Definition shardAt (shardIntervalCache : list ShardInterval) (i : Z) : ShardInterval :=
  nth (Z.to_nat i) shardIntervalCache dummyShardInterval.

(** ** The prune tree *)

(** A condition slot of a node: the conditions of the node the classifier
    accepted, or the marker (no constraint at all, [validConstraints == NULL])
    that something it rejected stood there. *)
Record ConditionWrapper := mkConditionWrapper {
  validConstraints : list Node
}.

Definition isValidWrapper (w : ConditionWrapper) : bool :=
  match validConstraints w with [] => false | _ :: _ => true end.

Inductive PruneNode :=
| mkPruneNode (boolOp : BoolExprType) (bools : list PruneNode)
              (conditions : list ConditionWrapper).

Definition boolOp (n : PruneNode) : BoolExprType :=
  match n with mkPruneNode op _ _ => op end.
Definition bools (n : PruneNode) : list PruneNode :=
  match n with mkPruneNode _ bs _ => bs end.
Definition conditions (n : PruneNode) : list ConditionWrapper :=
  match n with mkPruneNode _ _ cs => cs end.

Definition FindValidConditionWrapper (conditions : list ConditionWrapper)
  : option ConditionWrapper :=
  find isValidWrapper conditions.

Definition FindInvalidConditionWrapper (conditions : list ConditionWrapper)
  : option ConditionWrapper :=
  find (fun w => negb (isValidWrapper w)) conditions.

(** [validConditionWrapper->validConstraints = lappend(..., validConstraint)]:
    the first valid wrapper of the list is extended in place. *)
Fixpoint appendToFirstValid (conditions : list ConditionWrapper) (validConstraint : Node)
  : list ConditionWrapper :=
  match conditions with
  | [] => []
  | w :: rest =>
      if isValidWrapper w
      then mkConditionWrapper (validConstraints w ++ [validConstraint]) :: rest
      else w :: appendToFirstValid rest validConstraint
  end.

(** [AppendConstraint]; a NULL [validConstraint] is [None]. *)
Definition AppendConstraint (conditions : list ConditionWrapper)
           (validConstraint : option Node) : list ConditionWrapper :=
  match FindInvalidConditionWrapper conditions, FindValidConditionWrapper conditions with
  | Some _, Some _ =>
      match validConstraint with
      | Some c => appendToFirstValid conditions c
      | None => conditions
      end
  | Some _, None =>
      match validConstraint with
      | Some c => conditions ++ [mkConditionWrapper [c]]
      | None => conditions
      end
  | None, Some _ =>
      match validConstraint with
      | Some c => appendToFirstValid conditions c
      | None => conditions ++ [mkConditionWrapper []]
      end
  | None, None =>
      match validConstraint with
      | Some c => conditions ++ [mkConditionWrapper [c]]
      | None => conditions ++ [mkConditionWrapper []]
      end
  end.

(** ** Constraint classifier *)

(** [IsValidPartitionKeyRestriction]: at least one interpretation, and none
    of them [ROWCOMPARE_NE]. *)
Fixpoint IsValidPartitionKeyRestriction_loop (btreeInterpretationList : list StrategyNumber)
         (matchedOp : bool) : bool :=
  match btreeInterpretationList with
  | [] => matchedOp
  | ROWCOMPARE_NE :: _ => false
  | _ :: rest => IsValidPartitionKeyRestriction_loop rest true
  end.

Definition IsValidPartitionKeyRestriction (cat : Catalog) (opno : Oid) : bool :=
  IsValidPartitionKeyRestriction_loop (get_op_btree_interpretation cat opno) false.

Definition IsValidHashRestriction (cat : Catalog) (opno : Oid) : bool :=
  existsb (StrategyNumber_eqb BTGreaterEqualStrategyNumber)
          (get_op_btree_interpretation cat opno).

(** The operand analysis shared by [IsValidConditionNode] and
    [HandleConditionNode]: with exactly two arguments, one a [Const] and the
    other a [Var] once implicit coercions are stripped, the pair
    [(constantClause, varClause)]. *)
Definition constAndVarOperands (args : list Node) : option (Const * Var) :=
  match args with
  | [leftOperand; rightOperand] =>
      match strip_implicit_coercions leftOperand,
            strip_implicit_coercions rightOperand with
      | T_Var v, T_Const c => Some (c, v)
      | T_Const c, T_Var v => Some (c, v)
      | _, _ => None
      end
  | _ => None
  end.

(** [equal(node, partitionColumn)] for an arbitrary node. *)
Definition equalsVar (node : Node) (partitionColumn : Var) : bool :=
  match node with
  | T_Var v => Var_eqb v partitionColumn
  | _ => false
  end.

Definition IsValidSAOPartitionKeyRestriction (cat : Catalog) (partitionColumn : Var)
           (opno : Oid) (leftOpExpression arrayArgument : Node) : bool :=
  let strippedLeftOpExpression := strip_implicit_coercions leftOpExpression in
  let usingEqualityOperator := OperatorImplementsEquality cat opno in
  match arrayArgument with
  | T_Const arrayConst =>
      if usingEqualityOperator && equalsVar strippedLeftOpExpression partitionColumn
      then
        (* check for the NULL right-hand expression *)
        if constvalue arrayConst =? 0 then false else true
      else false
  | _ => false
  end.

Definition IsValidConditionNode (cat : Catalog) (node : Node) (partitionColumn : Var) : bool :=
  match node with
  | T_OpExpr opno args =>
      match constAndVarOperands args with
      | Some (constantClause, varClause) =>
          if Var_eqb varClause partitionColumn
          then IsValidPartitionKeyRestriction cat opno
          else if varattno varClause =? RESERVED_HASHED_COLUMN_ID
          then IsValidHashRestriction cat opno
          else false
      | None => false
      end
  | T_ScalarArrayOpExpr opno _ leftarg rightarg =>
      IsValidSAOPartitionKeyRestriction cat partitionColumn opno leftarg rightarg
  | _ => false
  end.

(** ** Predicate normalizer *)

(** [BuildPruneTree].  The walker never asks for the walk to stop (every
    path returns false), so only its effect on [context->pruneNode] is kept:
    the function returns the node as the walk leaves it.
    [expression_tree_walker] on a list, and on the arguments of a
    [BoolExpr], calls the walker on every element in order. *)
Fixpoint BuildPruneTree (cat : Catalog) (partitionColumn : Var)
         (node : Node) (pruneNode : PruneNode) : PruneNode :=
  match node with
  | T_List elements =>
      (* at the top of quals we'll frequently see lists, those are to be treated as ANDs *)
      fold_left (fun pn n => BuildPruneTree cat partitionColumn n pn) elements pruneNode
  | T_BoolExpr boolop args =>
      match boolop with
      | NOT_EXPR => pruneNode
      | _ =>
          if negb (BoolExprType_eqb boolop (boolOp pruneNode))
          then
            let newNode :=
              fold_left (fun pn n => BuildPruneTree cat partitionColumn n pn) args
                        (mkPruneNode boolop [] []) in
            mkPruneNode (boolOp pruneNode) (bools pruneNode ++ [newNode])
                        (conditions pruneNode)
          else
            fold_left (fun pn n => BuildPruneTree cat partitionColumn n pn) args pruneNode
      end
  | T_OpExpr _ _ | T_ScalarArrayOpExpr _ _ _ _ =>
      match boolOp pruneNode with
      | AND_EXPR =>
          if IsValidConditionNode cat node partitionColumn
          then mkPruneNode (boolOp pruneNode) (bools pruneNode)
                           (AppendConstraint (conditions pruneNode) (Some node))
          else mkPruneNode (boolOp pruneNode) (bools pruneNode)
                           (AppendConstraint (conditions pruneNode) None)
      | _ =>
          if IsValidConditionNode cat node partitionColumn
          then mkPruneNode (boolOp pruneNode) (bools pruneNode)
                           (conditions pruneNode ++ [mkConditionWrapper [node]])
          else mkPruneNode (boolOp pruneNode) (bools pruneNode)
                           (AppendConstraint (conditions pruneNode) None)
      end
  | _ => pruneNode
  end.

(** [IsPullUpBooleanOp] on a non-NULL node. *)
Definition IsPullUpBooleanOp (node : PruneNode) : bool :=
  Z.of_nat (length (bools node)) + Z.of_nat (length (conditions node)) <? 2.

(** [PullUpBooleanOps(node, parent)] rewrites [node] in place while it walks
    the children: after a child is done, a [node] that has fewer than two
    children and conditions takes over the child's three fields.  The walk
    follows the cells of the list [node->bools] held when it started.  A
    node is overwritten only if it has a single child and no condition (with
    two or more children the test fails at every child, with none the loop
    body never runs), so the walk is over when the fields are replaced.  The
    function returns [node] as the call leaves it; the top call passes a NULL
    parent and its node is never replaced by a sibling. *)
Fixpoint PullUpBooleanOps (node : PruneNode) : PruneNode :=
  match node with
  | mkPruneNode op bs conds =>
      let node' := mkPruneNode op (map PullUpBooleanOps bs) conds in
      match map PullUpBooleanOps bs with
      | [child] => if IsPullUpBooleanOp node' then child else node'
      | _ => node'
      end
  end.

(** [SeparateOrConditionsFromBools] *)
Fixpoint SeparateOrConditionsFromBools (node : PruneNode) : PruneNode :=
  match node with
  | mkPruneNode op bs conds =>
      let bs' := map SeparateOrConditionsFromBools bs in
      match op, conds with
      | OR_EXPR, _ :: _ =>
          mkPruneNode op (bs' ++ map (fun w => mkPruneNode AND_EXPR [] [w]) conds) []
      | _, _ => mkPruneNode op bs' conds
      end
  end.

(** [MakeORofAnds] *)
Definition MakeORofAnds (otherOrs : list PruneNode) (orConds andConds : list ConditionWrapper)
  : list PruneNode :=
  match otherOrs, andConds with
  | [], [] => []
  | [], _ => map (fun cond => mkPruneNode AND_EXPR [] (andConds ++ [cond])) orConds
  | _, _ =>
      flat_map (fun cond =>
        flat_map (fun otherOr =>
          map (fun cond2 => mkPruneNode AND_EXPR [] (andConds ++ [cond] ++ [cond2]))
              (conditions otherOr))
          otherOrs)
        orConds
  end.

(** The loop of [OneBooleanDistributeToORofANDs] over the children of an AND
    node.  [list_delete_ptr(andNode->bools, orNode)] unlinks the cell of
    [orNode] from the very list the loop is walking, frees it, and hands the
    shortened list to [MakeORofAnds]; the loop then steps to the [next] of
    the freed cell.  In a production build [pfree] leaves that field in
    place, and it is still there when the loop reads it as long as nothing
    was allocated in between; [MakeORofAnds] allocates only for a child
    that has conditions of its own.  The definition is the loop under that
    proviso: each child is visited in turn, and when child number i is
    visited the list holds the children after it: [cells] is the list as
    the iteration finds it, its head the current child, and [otherOrs] is
    its tail.  When a visited child has conditions the freed cell is handed
    out again before the loop reads it, and in a build with assertions
    [pfree] overwrites it: what the C loop does from there on is not
    defined, and the definition does not describe it
    ([distributionReadsNoReusedCell] and [distributionLoopNotEntered] below
    single out the trees on which it does).
    [newOr->bools] is assigned, not extended, by every iteration. *)
Fixpoint distributeOverChildren (andConds : list ConditionWrapper)
         (cells : list PruneNode) (newOrBools : list PruneNode) : list PruneNode :=
  match cells with
  | [] => newOrBools
  | orNode :: rest =>
      let otherOrs := rest in
      let made := MakeORofAnds otherOrs (conditions orNode) andConds in
      distributeOverChildren andConds rest (made ++ bools orNode)
  end.

(** [OneBooleanDistributeToORofANDs] *)
Fixpoint OneBooleanDistributeToORofANDs (node : PruneNode) : PruneNode :=
  match node with
  | mkPruneNode OR_EXPR bs conds =>
      match bs with
      | [] => node
      | _ :: _ =>
          mkPruneNode OR_EXPR
            (flat_map (fun andNode => bools (OneBooleanDistributeToORofANDs andNode)) bs)
            conds
      end
  | mkPruneNode AND_EXPR bs conds =>
      match bs, conds with
      | _ :: _, _ => mkPruneNode OR_EXPR (distributeOverChildren conds bs []) []
      | [], _ :: _ => mkPruneNode OR_EXPR [node] []
      | [], [] => mkPruneNode OR_EXPR [] []
      end
  | mkPruneNode NOT_EXPR _ _ => node   (* no prune node carries NOT_EXPR *)
  end.

(** [BooleanDistributeToORofANDs]: the body of [do ... while(false)] runs
    once; [needsContinue] is computed and not used. *)
Definition BooleanDistributeToORofANDs (node : PruneNode) : PruneNode :=
  OneBooleanDistributeToORofANDs node.

(** ** Constraint accumulator *)

Record PruningInstance := mkPruningInstance {
  hasValidConstraint : bool;
  evaluatesToFalse : bool;
  lessConsts : option Const;
  lessEqualConsts : option Const;
  equalConsts : option Const;
  greaterEqualConsts : option Const;
  greaterConsts : option Const;
  saoEqualConsts : list Const;
  hashedEqualConsts : option Const;
  otherRestrictions : list Node;
  addedToPruningInstances : bool;
  isPartial : bool
}.

(** [palloc0(sizeof(PruningInstance))] *)
Definition emptyPruningInstance : PruningInstance :=
  mkPruningInstance false false None None None None None [] None [] false false.

Definition set_hasValidConstraint (b : bool) (p : PruningInstance) :=
  mkPruningInstance b (evaluatesToFalse p) (lessConsts p) (lessEqualConsts p)
    (equalConsts p) (greaterEqualConsts p) (greaterConsts p) (saoEqualConsts p)
    (hashedEqualConsts p) (otherRestrictions p) (addedToPruningInstances p) (isPartial p).
Definition set_evaluatesToFalse (b : bool) (p : PruningInstance) :=
  mkPruningInstance (hasValidConstraint p) b (lessConsts p) (lessEqualConsts p)
    (equalConsts p) (greaterEqualConsts p) (greaterConsts p) (saoEqualConsts p)
    (hashedEqualConsts p) (otherRestrictions p) (addedToPruningInstances p) (isPartial p).
Definition set_lessConsts (c : option Const) (p : PruningInstance) :=
  mkPruningInstance (hasValidConstraint p) (evaluatesToFalse p) c (lessEqualConsts p)
    (equalConsts p) (greaterEqualConsts p) (greaterConsts p) (saoEqualConsts p)
    (hashedEqualConsts p) (otherRestrictions p) (addedToPruningInstances p) (isPartial p).
Definition set_lessEqualConsts (c : option Const) (p : PruningInstance) :=
  mkPruningInstance (hasValidConstraint p) (evaluatesToFalse p) (lessConsts p) c
    (equalConsts p) (greaterEqualConsts p) (greaterConsts p) (saoEqualConsts p)
    (hashedEqualConsts p) (otherRestrictions p) (addedToPruningInstances p) (isPartial p).
Definition set_equalConsts (c : option Const) (p : PruningInstance) :=
  mkPruningInstance (hasValidConstraint p) (evaluatesToFalse p) (lessConsts p)
    (lessEqualConsts p) c (greaterEqualConsts p) (greaterConsts p) (saoEqualConsts p)
    (hashedEqualConsts p) (otherRestrictions p) (addedToPruningInstances p) (isPartial p).
Definition set_greaterEqualConsts (c : option Const) (p : PruningInstance) :=
  mkPruningInstance (hasValidConstraint p) (evaluatesToFalse p) (lessConsts p)
    (lessEqualConsts p) (equalConsts p) c (greaterConsts p) (saoEqualConsts p)
    (hashedEqualConsts p) (otherRestrictions p) (addedToPruningInstances p) (isPartial p).
Definition set_greaterConsts (c : option Const) (p : PruningInstance) :=
  mkPruningInstance (hasValidConstraint p) (evaluatesToFalse p) (lessConsts p)
    (lessEqualConsts p) (equalConsts p) (greaterEqualConsts p) c (saoEqualConsts p)
    (hashedEqualConsts p) (otherRestrictions p) (addedToPruningInstances p) (isPartial p).
Definition set_saoEqualConsts (l : list Const) (p : PruningInstance) :=
  mkPruningInstance (hasValidConstraint p) (evaluatesToFalse p) (lessConsts p)
    (lessEqualConsts p) (equalConsts p) (greaterEqualConsts p) (greaterConsts p) l
    (hashedEqualConsts p) (otherRestrictions p) (addedToPruningInstances p) (isPartial p).
Definition set_hashedEqualConsts (c : option Const) (p : PruningInstance) :=
  mkPruningInstance (hasValidConstraint p) (evaluatesToFalse p) (lessConsts p)
    (lessEqualConsts p) (equalConsts p) (greaterEqualConsts p) (greaterConsts p)
    (saoEqualConsts p) c (otherRestrictions p) (addedToPruningInstances p) (isPartial p).
Definition set_otherRestrictions (l : list Node) (p : PruningInstance) :=
  mkPruningInstance (hasValidConstraint p) (evaluatesToFalse p) (lessConsts p)
    (lessEqualConsts p) (equalConsts p) (greaterEqualConsts p) (greaterConsts p)
    (saoEqualConsts p) (hashedEqualConsts p) l (addedToPruningInstances p) (isPartial p).
Definition set_addedToPruningInstances (b : bool) (p : PruningInstance) :=
  mkPruningInstance (hasValidConstraint p) (evaluatesToFalse p) (lessConsts p)
    (lessEqualConsts p) (equalConsts p) (greaterEqualConsts p) (greaterConsts p)
    (saoEqualConsts p) (hashedEqualConsts p) (otherRestrictions p) b (isPartial p).

(** [PerformCompare] / [PerformValueCompare]: call the comparator, a NULL
    result is an error. *)
Definition PerformValueCompare (compareFunctionCall : CompareFunction) (a b : Datum)
  : result Z :=
  match compareFunctionCall a b with
  | Some r => Ok r
  | None => Error FunctionReturnedNull
  end.

(** One turn of the [switch] of [AddPartitionKeyRestrictionToInstance], for
    one b-tree interpretation of the operator; the second component is
    [matchedOp]. *)
Definition AddPartitionKeyRestriction_case (compareValueFunctionCall : CompareFunction)
           (constantClause : Const) (strategy : StrategyNumber)
           (prune : PruningInstance) (matchedOp : bool)
  : result (PruningInstance * bool) :=
  match strategy with
  | BTLessStrategyNumber =>
      match lessConsts prune with
      | None => Ok (set_lessConsts (Some constantClause) prune, true)
      | Some old =>
          r <- PerformValueCompare compareValueFunctionCall
                 (constvalue constantClause) (constvalue old) ;;
          if r <? 0 then Ok (set_lessConsts (Some constantClause) prune, true)
          else Ok (prune, true)
      end
  | BTLessEqualStrategyNumber =>
      match lessEqualConsts prune with
      | None => Ok (set_lessEqualConsts (Some constantClause) prune, true)
      | Some old =>
          r <- PerformValueCompare compareValueFunctionCall
                 (constvalue constantClause) (constvalue old) ;;
          if r <? 0 then Ok (set_lessEqualConsts (Some constantClause) prune, true)
          else Ok (prune, true)
      end
  | BTEqualStrategyNumber =>
      match equalConsts prune with
      | None => Ok (set_equalConsts (Some constantClause) prune, true)
      | Some old =>
          r <- PerformValueCompare compareValueFunctionCall
                 (constvalue constantClause) (constvalue old) ;;
          if negb (r =? 0)
          then (* key can't be equal to two values *)
               Ok (set_evaluatesToFalse true prune, true)
          else Ok (prune, true)
      end
  | BTGreaterEqualStrategyNumber =>
      match greaterEqualConsts prune with
      | None => Ok (set_greaterEqualConsts (Some constantClause) prune, true)
      | Some old =>
          r <- PerformValueCompare compareValueFunctionCall
                 (constvalue constantClause) (constvalue old) ;;
          if r >? 0 then Ok (set_greaterEqualConsts (Some constantClause) prune, true)
          else Ok (prune, true)
      end
  | BTGreaterStrategyNumber =>
      match greaterConsts prune with
      | None => Ok (set_greaterConsts (Some constantClause) prune, true)
      | Some old =>
          r <- PerformValueCompare compareValueFunctionCall
                 (constvalue constantClause) (constvalue old) ;;
          if r >? 0 then Ok (set_greaterConsts (Some constantClause) prune, true)
          else Ok (prune, true)
      end
  | ROWCOMPARE_NE => Ok (prune, false)
  end.

Fixpoint AddPartitionKeyRestriction_loop (compareValueFunctionCall : CompareFunction)
         (constantClause : Const) (btreeInterpretationList : list StrategyNumber)
         (prune : PruningInstance) (matchedOp : bool)
  : result (PruningInstance * bool) :=
  match btreeInterpretationList with
  | [] => Ok (prune, matchedOp)
  | strategy :: rest =>
      st <- AddPartitionKeyRestriction_case compareValueFunctionCall constantClause
              strategy prune matchedOp ;;
      AddPartitionKeyRestriction_loop compareValueFunctionCall constantClause rest
        (fst st) (snd st)
  end.

(** [AddPartitionKeyRestrictionToInstance] *)
Definition AddPartitionKeyRestrictionToInstance (cat : Catalog)
           (compareValueFunctionCall : CompareFunction)
           (opClause : Node) (opno : Oid) (constantClause : Const)
           (prune : PruningInstance) : result PruningInstance :=
  st <- AddPartitionKeyRestriction_loop compareValueFunctionCall constantClause
          (get_op_btree_interpretation cat opno) prune false ;;
  if negb (snd st)
  then Ok (set_otherRestrictions (otherRestrictions (fst st) ++ [opClause]) (fst st))
  else Ok (set_hasValidConstraint true (fst st)).

(** [AddHashRestrictionToInstance] *)
Fixpoint AddHashRestriction_loop (constantClause : Const)
         (btreeInterpretationList : list StrategyNumber) (prune : PruningInstance)
  : PruningInstance :=
  match btreeInterpretationList with
  | [] => prune
  | BTGreaterEqualStrategyNumber :: rest =>
      AddHashRestriction_loop constantClause rest
        (set_hasValidConstraint true (set_hashedEqualConsts (Some constantClause) prune))
  | _ :: rest => AddHashRestriction_loop constantClause rest prune
  end.

Definition AddHashRestrictionToInstance (cat : Catalog) (opno : Oid)
           (constantClause : Const) (prune : PruningInstance) : PruningInstance :=
  AddHashRestriction_loop constantClause (get_op_btree_interpretation cat opno) prune.

(** The array loop of [AddSAOPartitionKeyRestrictionToInstance2]: one
    constant per element, [makeConst(elementType, ..., arrayElement, isNull, ...)]. *)
Fixpoint AddSAO_elements (elementType : Oid) (elements : list (Datum * bool))
         (prune : PruningInstance) : PruningInstance :=
  match elements with
  | [] => prune
  | (arrayElement, isNull) :: rest =>
      let constElement := mkConst elementType arrayElement isNull in
      AddSAO_elements elementType rest
        (set_hasValidConstraint true
           (set_saoEqualConsts (saoEqualConsts prune ++ [constElement]) prune))
  end.

(** [AddSAOPartitionKeyRestrictionToInstance2] *)
Definition AddSAOPartitionKeyRestrictionToInstance2 (cat : Catalog) (partitionColumn : Var)
           (opno : Oid) (leftOpExpression arrayArgument : Node)
           (prune : PruningInstance) : PruningInstance :=
  let strippedLeftOpExpression := strip_implicit_coercions leftOpExpression in
  let usingEqualityOperator := OperatorImplementsEquality cat opno in
  match arrayArgument with
  | T_Const arrayConst =>
      if usingEqualityOperator && equalsVar strippedLeftOpExpression partitionColumn
      then
        let inArray := constvalue arrayConst in
        if inArray =? 0 then prune
        else
          let array := DatumGetArrayTypeP cat inArray in
          AddSAO_elements (ARR_ELEMTYPE array) (ARR_ELEMENTS array) prune
      else set_addedToPruningInstances true prune
  | _ => set_addedToPruningInstances true prune
  end.

(** [HandleConditionNode], on the instance [context->currentPruningInstance].
    The instance is put on [context->pruningInstances] by pointer the first
    time the function runs for it and is filled in place afterwards; here the
    flag [addedToPruningInstances] records that, and the walker appends the
    instance once the branch is folded. *)
Definition HandleConditionNode (cat : Catalog) (partitionColumn : Var)
           (compareValueFunctionCall : CompareFunction)
           (node : Node) (prune : PruningInstance) : result PruningInstance :=
  match node with
  | T_OpExpr opno args =>
      let prune := set_addedToPruningInstances true prune in
      match constAndVarOperands args with
      | Some (constantClause, varClause) =>
          if Var_eqb varClause partitionColumn
          then AddPartitionKeyRestrictionToInstance cat compareValueFunctionCall
                 node opno constantClause prune
          else if varattno varClause =? RESERVED_HASHED_COLUMN_ID
          then Ok (AddHashRestrictionToInstance cat opno constantClause prune)
          else Ok prune
      | None => Ok prune
      end
  | T_ScalarArrayOpExpr opno _ leftarg rightarg =>
      let prune := set_addedToPruningInstances true prune in
      Ok (AddSAOPartitionKeyRestrictionToInstance2 cat partitionColumn opno
            leftarg rightarg prune)
  | _ => Ok (set_addedToPruningInstances true prune)
  end.

(** The two nested loops of the walker over the conditions of an AND node. *)
Fixpoint HandleConditionNodes (cat : Catalog) (partitionColumn : Var)
         (compareValueFunctionCall : CompareFunction)
         (nodes : list Node) (prune : PruningInstance) : result PruningInstance :=
  match nodes with
  | [] => Ok prune
  | node :: rest =>
      prune' <- HandleConditionNode cat partitionColumn compareValueFunctionCall node prune ;;
      HandleConditionNodes cat partitionColumn compareValueFunctionCall rest prune'
  end.

Definition branchConstraints (conditions : list ConditionWrapper) : list Node :=
  flat_map validConstraints conditions.

(** The instance the walker builds for an AND node with a valid wrapper. *)
Definition FoldBranch (cat : Catalog) (partitionColumn : Var)
           (compareValueFunctionCall : CompareFunction)
           (conditions : list ConditionWrapper) : result PruningInstance :=
  HandleConditionNodes cat partitionColumn compareValueFunctionCall
    (branchConstraints conditions) emptyPruningInstance.

(** The instance of an AND node that has an invalid wrapper and no valid one. *)
Definition unconstrainedInstance : PruningInstance :=
  set_addedToPruningInstances true emptyPruningInstance.

(** [PrunableExpressionsWalker2]: the instances the walk of [node] appends to
    [context->pruningInstances], in order. *)
Fixpoint PrunableExpressionsWalker2 (cat : Catalog) (partitionColumn : Var)
         (compareValueFunctionCall : CompareFunction)
         (node : PruneNode) : result (list PruningInstance) :=
  match node with
  | mkPruneNode op bs conds =>
      let walkChildren :=
        fold_left (fun acc boolNode =>
                     done <- acc ;;
                     more <- PrunableExpressionsWalker2 cat partitionColumn
                               compareValueFunctionCall boolNode ;;
                     Ok (done ++ more))
                  bs (Ok []) in
      match op with
      | AND_EXPR =>
          fromChildren <- walkChildren ;;
          match FindValidConditionWrapper conds, FindInvalidConditionWrapper conds with
          | None, Some _ => Ok (fromChildren ++ [unconstrainedInstance])
          | Some _, _ =>
              newInstance <- FoldBranch cat partitionColumn compareValueFunctionCall conds ;;
              if addedToPruningInstances newInstance
              then Ok (fromChildren ++ [newInstance])
              else Ok fromChildren
          | None, None => Ok fromChildren
          end
      | _ => walkChildren
      end
  end.

(** ** Shard search engine *)

Inductive SearchOutcome :=
| Found (middleIndex : Z)
| NotFound (lowerBoundIndex upperBoundIndex : Z).

(** The [while] loop of [LowerShardBoundary].  Every turn narrows
    [upperBoundIndex - lowerBoundIndex]; [fuel] counts the turns left and is
    started at the width of the array, so the loop ends by its own test
    ([LowerShardBoundary_loop_fuel] below). *)
Fixpoint LowerShardBoundary_loop (fuel : nat) (compareFunction : CompareFunction)
         (partitionColumnValue : Datum) (shardIntervalCache : list ShardInterval)
         (includeMax : bool) (lowerBoundIndex upperBoundIndex : Z)
  : result SearchOutcome :=
  if lowerBoundIndex <? upperBoundIndex then
    match fuel with
    | O => Ok (NotFound lowerBoundIndex upperBoundIndex)
    | S fuel' =>
        let middleIndex :=
          lowerBoundIndex + Z.quot (upperBoundIndex - lowerBoundIndex) 2 in
        (* execute cmp(partitionValue, lowerBound) *)
        minValueComparison <-
          PerformValueCompare compareFunction partitionColumnValue
            (minValue (shardAt shardIntervalCache middleIndex)) ;;
        if minValueComparison <? 0 then
          (* value smaller than entire range *)
          LowerShardBoundary_loop fuel' compareFunction partitionColumnValue
            shardIntervalCache includeMax lowerBoundIndex middleIndex
        else
          (* execute cmp(partitionValue, upperBound) *)
          maxValueComparison <-
            PerformValueCompare compareFunction partitionColumnValue
              (maxValue (shardAt shardIntervalCache middleIndex)) ;;
          if ((maxValueComparison =? 0) && negb includeMax) || (maxValueComparison >? 0)
          then
            (* value bigger than entire range *)
            LowerShardBoundary_loop fuel' compareFunction partitionColumnValue
              shardIntervalCache includeMax (middleIndex + 1) upperBoundIndex
          else
            (* found interval containing partitionValue *)
            Ok (Found middleIndex)
    end
  else Ok (NotFound lowerBoundIndex upperBoundIndex).

(** [LowerShardBoundary] *)
Definition LowerShardBoundary (partitionColumnValue : Datum)
           (shardIntervalCache : list ShardInterval) (shardCount : Z)
           (compareFunction : CompareFunction) (includeMax : bool) : result Z :=
  outcome <- LowerShardBoundary_loop (Z.to_nat shardCount) compareFunction
               partitionColumnValue shardIntervalCache includeMax 0 shardCount ;;
  match outcome with
  | Found middleIndex => Ok middleIndex
  | NotFound lowerBoundIndex _ =>
      if lowerBoundIndex =? 0 then
        (* all intervals are bigger, thus return 0 *)
        Ok 0
      else if lowerBoundIndex =? shardCount then
        (* partition value is bigger than all partition values *)
        Ok INVALID_SHARD_INDEX
      else
        (* value falls inbetween intervals *)
        Ok (lowerBoundIndex + 1)
  end.

(** The [while] loop of [UpperShardBoundary]. *)
Fixpoint UpperShardBoundary_loop (fuel : nat) (compareFunction : CompareFunction)
         (partitionColumnValue : Datum) (shardIntervalCache : list ShardInterval)
         (includeMin : bool) (lowerBoundIndex upperBoundIndex : Z)
  : result SearchOutcome :=
  if lowerBoundIndex <? upperBoundIndex then
    match fuel with
    | O => Ok (NotFound lowerBoundIndex upperBoundIndex)
    | S fuel' =>
        let middleIndex :=
          lowerBoundIndex + Z.quot (upperBoundIndex - lowerBoundIndex) 2 in
        (* execute cmp(partitionValue, lowerBound) *)
        minValueComparison <-
          PerformValueCompare compareFunction partitionColumnValue
            (minValue (shardAt shardIntervalCache middleIndex)) ;;
        if ((minValueComparison =? 0) && negb includeMin) || (minValueComparison <? 0)
        then
          (* value smaller than entire range *)
          UpperShardBoundary_loop fuel' compareFunction partitionColumnValue
            shardIntervalCache includeMin lowerBoundIndex middleIndex
        else
          (* execute cmp(partitionValue, upperBound) *)
          maxValueComparison <-
            PerformValueCompare compareFunction partitionColumnValue
              (maxValue (shardAt shardIntervalCache middleIndex)) ;;
          if maxValueComparison >? 0 then
            (* value bigger than entire range *)
            UpperShardBoundary_loop fuel' compareFunction partitionColumnValue
              shardIntervalCache includeMin (middleIndex + 1) upperBoundIndex
          else
            (* found interval containing partitionValue *)
            Ok (Found middleIndex)
    end
  else Ok (NotFound lowerBoundIndex upperBoundIndex).

(** [UpperShardBoundary] *)
Definition UpperShardBoundary (partitionColumnValue : Datum)
           (shardIntervalCache : list ShardInterval) (shardCount : Z)
           (compareFunction : CompareFunction) (includeMin : bool) : result Z :=
  outcome <- UpperShardBoundary_loop (Z.to_nat shardCount) compareFunction
               partitionColumnValue shardIntervalCache includeMin 0 shardCount ;;
  match outcome with
  | Found middleIndex => Ok middleIndex
  | NotFound _ upperBoundIndex =>
      if upperBoundIndex =? shardCount then
        (* all intervals are smaller *)
        Ok (shardCount - 1)
      else if upperBoundIndex =? 0 then
        (* partition value is smaller than all partition values *)
        Ok INVALID_SHARD_INDEX
      else
        (* value falls inbetween intervals, return the inverval one smaller as bound *)
        Ok (upperBoundIndex - 1)
  end.

(** Modelled from the spec: [FindShardIntervalIndex] (shardinterval_utils.c
    is not among the sources): "perform a binary search over the sorted
    shard-interval array for the single interval whose range contains it;
    absence of a match yields the empty result".  The search is the loop
    above with both boundaries of an interval inclusive. *)
Definition FindShardIntervalIndex (searchedValue : Datum) (cacheEntry : DistTableCacheEntry)
           (compareFunction : CompareFunction) : result Z :=
  outcome <- LowerShardBoundary_loop
               (length (sortedShardIntervalArray cacheEntry)) compareFunction
               searchedValue (sortedShardIntervalArray cacheEntry) true
               0 (shardIntervalArrayLength cacheEntry) ;;
  match outcome with
  | Found middleIndex => Ok middleIndex
  | NotFound _ _ => Ok INVALID_SHARD_INDEX
  end.

(** Modelled from the spec: [FindShardInterval] (not among the sources): the
    containing interval of a column value; for a hash-partitioned table the
    value is hashed first, the intervals being intervals of hash values (a
    pre-hashed value goes to [FindShardIntervalIndex] directly).  [None] is
    the NULL result. *)
Definition FindShardInterval (partitionColumnValue : Datum)
           (cacheEntry : DistTableCacheEntry) (compareFunction : CompareFunction)
  : result (option Z) :=
  let searchedValue :=
    match partitionMethod cacheEntry with
    | DISTRIBUTE_BY_HASH => hashFunction cacheEntry partitionColumnValue
    | _ => partitionColumnValue
    end in
  shardIndex <- FindShardIntervalIndex searchedValue cacheEntry compareFunction ;;
  if shardIndex =? INVALID_SHARD_INDEX then Ok None else Ok (Some shardIndex).

(** Pointer lists ([list_member_ptr], [list_append_unique_ptr],
    [list_union_ptr]) on array indices. *)
Definition list_member_ptr (lst : list Z) (datum : Z) : bool :=
  existsb (Z.eqb datum) lst.

Definition list_append_unique_ptr (lst : list Z) (datum : Z) : list Z :=
  if list_member_ptr lst datum then lst else lst ++ [datum].

Definition list_union_ptr (list1 list2 : list Z) : list Z :=
  fold_left list_append_unique_ptr list2 list1.

(** The data of one [PruneShards] call the search routines use
    ([ClauseWalkerContext]). *)
Record ClauseWalkerContext := mkContext {
  ctxPartitionColumn : Var;
  ctxPartitionMethod : PartitionMethod;
  compareValueFunctionCall : CompareFunction;
  compareIntervalFunctionCall : CompareFunction
}.

(** One equality value against the boundaries of an interval, as
    [ExhaustivePruneOne] tests it. *)
Definition valueOutsideInterval (compareFunctionCall : CompareFunction)
           (compareWith : Datum) (curInterval : ShardInterval) : result bool :=
  belowMin <- PerformValueCompare compareFunctionCall compareWith (minValue curInterval) ;;
  if belowMin <? 0 then Ok true
  else
    aboveMax <- PerformValueCompare compareFunctionCall compareWith (maxValue curInterval) ;;
    if aboveMax >? 0 then Ok true else Ok false.

Fixpoint anyValueOutsideInterval (compareFunctionCall : CompareFunction)
         (consts : list Const) (curInterval : ShardInterval) : result bool :=
  match consts with
  | [] => Ok false
  | c :: rest =>
      out <- valueOutsideInterval compareFunctionCall (constvalue c) curInterval ;;
      if out then Ok true
      else anyValueOutsideInterval compareFunctionCall rest curInterval
  end.

(** [ExhaustivePruneOne]: true if [curInterval] is pruned away. *)
Definition ExhaustivePruneOne (curInterval : ShardInterval)
           (context : ClauseWalkerContext) (prune : PruningInstance) : result bool :=
  let compareFunctionCall := compareIntervalFunctionCall context in
  (* NULL boundaries can't be compared to *)
  if negb (minValueExists curInterval) || negb (maxValueExists curInterval) then Ok false
  else
    byEqual <- match equalConsts prune with
               | Some c => valueOutsideInterval compareFunctionCall (constvalue c) curInterval
               | None => Ok false
               end ;;
    if byEqual then Ok true else
    bySao <- anyValueOutsideInterval compareFunctionCall (saoEqualConsts prune) curInterval ;;
    if bySao then Ok true else
    byGreaterEqual <-
      match greaterEqualConsts prune with
      | Some c =>
          r <- PerformValueCompare compareFunctionCall (maxValue curInterval) (constvalue c) ;;
          Ok (r <? 0)
      | None => Ok false
      end ;;
    if byGreaterEqual then Ok true else
    byGreater <-
      match greaterConsts prune with
      | Some c =>
          r <- PerformValueCompare compareFunctionCall (maxValue curInterval) (constvalue c) ;;
          Ok (r <=? 0)
      | None => Ok false
      end ;;
    if byGreater then Ok true else
    byLessEqual <-
      match lessEqualConsts prune with
      | Some c =>
          r <- PerformValueCompare compareFunctionCall (minValue curInterval) (constvalue c) ;;
          Ok (r >? 0)
      | None => Ok false
      end ;;
    if byLessEqual then Ok true else
    byLess <-
      match lessConsts prune with
      | Some c =>
          r <- PerformValueCompare compareFunctionCall (minValue curInterval) (constvalue c) ;;
          Ok (r >=? 0)
      | None => Ok false
      end ;;
    if byLess then Ok true else Ok false.

(** [ExhaustivePrune] *)
Fixpoint ExhaustivePrune_loop (shardIntervalCache : list ShardInterval)
         (context : ClauseWalkerContext) (prune : PruningInstance)
         (indices : list Z) : result (list Z) :=
  match indices with
  | [] => Ok []
  | curIdx :: rest =>
      pruned <- ExhaustivePruneOne (shardAt shardIntervalCache curIdx) context prune ;;
      remaining <- ExhaustivePrune_loop shardIntervalCache context prune rest ;;
      if pruned then Ok remaining else Ok (curIdx :: remaining)
  end.

(** The indices [from], [from + 1], ..., [to] of a counting [for] loop. *)
Definition indexRange (from to : Z) : list Z :=
  map (fun k => from + Z.of_nat k) (seq 0 (Z.to_nat (to - from + 1))).

(** [ShardArrayToList] *)
Definition ShardArrayToList (shardArray : list ShardInterval) (len : Z) : list Z :=
  indexRange 0 (len - 1).

Definition ExhaustivePrune (cacheEntry : DistTableCacheEntry)
           (context : ClauseWalkerContext) (prune : PruningInstance) : result (list Z) :=
  ExhaustivePrune_loop (sortedShardIntervalArray cacheEntry) context prune
    (indexRange 0 (shardIntervalArrayLength cacheEntry - 1)).

(** [PruneWithBoundaries] *)
Definition PruneWithBoundaries (cacheEntry : DistTableCacheEntry)
           (context : ClauseWalkerContext) (prune : PruningInstance) : result (list Z) :=
  let shardCount := shardIntervalArrayLength cacheEntry in
  let sortedShardIntervalArray := sortedShardIntervalArray cacheEntry in
  let compareFunctionCall := compareIntervalFunctionCall context in
  (* (hasLowerBound, lowerBound, lowerBoundInclusive) *)
  let lower0 :=
    match greaterEqualConsts prune with
    | Some c => (true, constvalue c, true)
    | None => (false, 0, false)
    end in
  lower <-
    match greaterConsts prune with
    | Some c =>
        (* Use the more restrictive one, if both greater and greaterEqual
           constraints are specified. *)
        let '(hasLowerBound, lowerBound, _) := lower0 in
        if negb hasLowerBound then Ok (true, constvalue c, false)
        else
          r <- PerformValueCompare compareFunctionCall (constvalue c) lowerBound ;;
          if r >=? 0 then Ok (true, constvalue c, false) else Ok lower0
    | None => Ok lower0
    end ;;
  let upper0 :=
    match lessEqualConsts prune with
    | Some c => (true, constvalue c, true)
    | None => (false, 0, false)
    end in
  upper <-
    match lessConsts prune with
    | Some c =>
        (* Use the more restrictive one, if both less and lessEqual
           constraints are specified. *)
        let '(hasUpperBound, upperBound, _) := upper0 in
        if negb hasUpperBound then Ok (true, constvalue c, false)
        else
          r <- PerformValueCompare compareFunctionCall (constvalue c) upperBound ;;
          if r <=? 0 then Ok (true, constvalue c, false) else Ok upper0
    | None => Ok upper0
    end ;;
  let '(hasLowerBound, lowerBound, lowerBoundInclusive) := lower in
  let '(hasUpperBound, upperBound, upperBoundInclusive) := upper in
  (* find lower bound *)
  lowerBoundIdx <-
    (if hasLowerBound
     then LowerShardBoundary lowerBound sortedShardIntervalArray shardCount
            compareFunctionCall lowerBoundInclusive
     else Ok 0) ;;
  (* find upper bound *)
  upperBoundIdx <-
    (if hasUpperBound
     then UpperShardBoundary upperBound sortedShardIntervalArray shardCount
            compareFunctionCall upperBoundInclusive
     else Ok (shardCount - 1)) ;;
  if lowerBoundIdx =? INVALID_SHARD_INDEX then Ok []
  else if upperBoundIdx =? INVALID_SHARD_INDEX then Ok []
  else
    (* Build list of all shards that are in the range of shards (possibly 0). *)
    Ok (indexRange lowerBoundIdx upperBoundIdx).

(** The last loop of [PruneOne]: the candidates found by an equality lookup
    are checked against the other bounds; one excluded candidate empties the
    result. *)
Fixpoint anyCandidatePruned (cacheEntry : DistTableCacheEntry)
         (context : ClauseWalkerContext) (prune : PruningInstance)
         (shardIntervals : list Z) : result bool :=
  match shardIntervals with
  | [] => Ok false
  | shardInterval :: rest =>
      pruned <-
        (if negb (PartitionMethod_eqb (ctxPartitionMethod context) DISTRIBUTE_BY_HASH)
         then ExhaustivePruneOne
                (shardAt (sortedShardIntervalArray cacheEntry) shardInterval) context prune
         else Ok false) ;;
      if pruned then Ok true
      else anyCandidatePruned cacheEntry context prune rest
  end.

Definition hasRangeConstraint (prune : PruningInstance) : bool :=
  match greaterConsts prune, greaterEqualConsts prune,
        lessConsts prune, lessEqualConsts prune with
  | None, None, None, None => false
  | _, _, _, _ => true
  end.

(** [PruneOne] from the candidate check on: [shardIntervals] is what the
    equality lookups found. *)
Definition PruneOne_ranges (cacheEntry : DistTableCacheEntry)
           (context : ClauseWalkerContext) (prune : PruningInstance)
           (shardIntervals : list Z) : result (list Z) :=
  match shardIntervals with
  | _ :: _ =>
      pruned <- anyCandidatePruned cacheEntry context prune shardIntervals ;;
      if pruned then Ok []
      else (* no chance to prune further, return *) Ok shardIntervals
  | [] =>
      if negb (hasOverlappingShardInterval cacheEntry) && hasRangeConstraint prune
      then PruneWithBoundaries cacheEntry context prune
      else (* Brute force: Check each shard. *)
           ExhaustivePrune cacheEntry context prune
  end.

(** [PruneOne] from the pre-hashed lookup on. *)
Definition PruneOne_hashed (cacheEntry : DistTableCacheEntry)
           (context : ClauseWalkerContext) (prune : PruningInstance)
           (shardIntervals : list Z) : result (list Z) :=
  match hashedEqualConsts prune with
  | Some hashedConst =>
      let sortedShardIntervalArray := sortedShardIntervalArray cacheEntry in
      shardIndex <- FindShardIntervalIndex (constvalue hashedConst) cacheEntry
                      (compareIntervalFunctionCall context) ;;
      if shardIndex =? INVALID_SHARD_INDEX then Ok []
      else
        match shardIntervals with
        | [] => Ok [shardIndex]
        | _ :: _ =>
            (* keep the pre-hashed shard for every candidate with its shard id *)
            Ok (map (fun _ => shardIndex)
                  (filter (fun shardInterval =>
                             shardId (shardAt sortedShardIntervalArray shardIndex)
                             =? shardId (shardAt sortedShardIntervalArray shardInterval))
                          shardIntervals))
        end
  | None => PruneOne_ranges cacheEntry context prune shardIntervals
  end.

(** The loop of [PruneOne] over [saoEqualConsts]. *)
Fixpoint PruneOne_saoLookup (cacheEntry : DistTableCacheEntry)
         (context : ClauseWalkerContext) (consts : list Const)
         (shardIntervals : list Z) : result (list Z) :=
  match consts with
  | [] => Ok shardIntervals
  | equalConst :: rest =>
      found <- FindShardInterval (constvalue equalConst) cacheEntry
                 (compareIntervalFunctionCall context) ;;
      match found with
      | Some shardInterval =>
          PruneOne_saoLookup cacheEntry context rest
            (list_append_unique_ptr shardIntervals shardInterval)
      | None => PruneOne_saoLookup cacheEntry context rest shardIntervals
      end
  end.

(** [PruneOne] from the membership lookup on. *)
Definition PruneOne_sao (cacheEntry : DistTableCacheEntry)
           (context : ClauseWalkerContext) (prune : PruningInstance)
           (shardIntervals : list Z) : result (list Z) :=
  match saoEqualConsts prune with
  | _ :: _ =>
      if negb (hasOverlappingShardInterval cacheEntry) then
        shardIntervals' <- PruneOne_saoLookup cacheEntry context
                             (saoEqualConsts prune) shardIntervals ;;
        match shardIntervals' with
        | [] => Ok []
        | _ :: _ => PruneOne_hashed cacheEntry context prune shardIntervals'
        end
      else PruneOne_hashed cacheEntry context prune shardIntervals
  | [] => PruneOne_hashed cacheEntry context prune shardIntervals
  end.

(** [PruneOne]: the shards (as pointers into the sorted array) that match a
    single pruning instance. *)
Definition PruneOne (cacheEntry : DistTableCacheEntry)
           (context : ClauseWalkerContext) (prune : PruningInstance) : result (list Z) :=
  (* Well, if life always were this easy... *)
  if evaluatesToFalse prune then Ok []
  else
    match equalConsts prune with
    | Some equalConst =>
        if negb (hasOverlappingShardInterval cacheEntry) then
          found <- FindShardInterval (constvalue equalConst) cacheEntry
                     (compareIntervalFunctionCall context) ;;
          match found with
          | None => Ok []
          | Some shardInterval => PruneOne_sao cacheEntry context prune [shardInterval]
          end
        else PruneOne_sao cacheEntry context prune []
    | None => PruneOne_sao cacheEntry context prune []
    end.

(** ** Orchestrator *)

(** [ContainsFalseClause] *)
Fixpoint ContainsFalseClause (whereClauseList : list Node) : bool :=
  match whereClauseList with
  | [] => false
  | T_Const constant :: rest =>
      if (consttype constant =? BOOLOID) && negb (DatumGetBool (constvalue constant))
      then true
      else ContainsFalseClause rest
  | _ :: rest => ContainsFalseClause rest
  end.

(** [DeepCopyShardIntervalList] *)
Definition DeepCopyShardIntervalList (cacheEntry : DistTableCacheEntry)
           (originalShardIntervalList : list Z) : list ShardInterval :=
  map (shardAt (sortedShardIntervalArray cacheEntry)) originalShardIntervalList.

(** The locals of [PruneShards] its main loop updates. *)
Record PruneState := mkPruneState {
  prunedList : list Z;
  foundRestriction : bool;
  foundPartitionColumnValue : bool;
  singlePartitionValueConst : option Const
}.

(** The bookkeeping of the single partition value for one constant
    ([prune->equalConsts], or one element of [prune->saoEqualConsts]). *)
Definition rememberPartitionValue (value : Const) (st : PruneState) : PruneState :=
  if negb (foundPartitionColumnValue st) then
    (* remember the partition column value *)
    mkPruneState (prunedList st) (foundRestriction st) true (Some value)
  else
    match singlePartitionValueConst st with
    | None => (* already found multiple partition column values *) st
    | Some single =>
        if negb (Const_eqb value single)
        then (* found multiple partition column values *)
             mkPruneState (prunedList st) (foundRestriction st)
                          (foundPartitionColumnValue st) None
        else st
    end.

Definition hasNoEqualityConstraint (prune : PruningInstance) : bool :=
  negb (evaluatesToFalse prune)
  && match equalConsts prune with None => true | Some _ => false end
  && match saoEqualConsts prune with [] => true | _ :: _ => false end
  && match hashedEqualConsts prune with None => true | Some _ => false end.

(** The main loop of [PruneShards] over [context.pruningInstances];
    [wantsPartitionValue] is [partitionValueConst != NULL].  A [break]
    returns the state at once. *)
Fixpoint PruneShards_loop (cacheEntry : DistTableCacheEntry)
         (context : ClauseWalkerContext) (wantsPartitionValue : bool)
         (pruningInstances : list PruningInstance) (st : PruneState)
  : result PruneState :=
  match pruningInstances with
  | [] => Ok st
  | prune :: rest =>
      if isPartial prune then
        (* a fully built one has also been added: skip *)
        PruneShards_loop cacheEntry context wantsPartitionValue rest st
      else if negb (hasValidConstraint prune) then
        (* no prunable expressions: we'll have to return all shards *)
        Ok (mkPruneState (prunedList st) false (foundPartitionColumnValue st)
                         (singlePartitionValueConst st))
      else if PartitionMethod_eqb (ctxPartitionMethod context) DISTRIBUTE_BY_HASH
              && hasNoEqualityConstraint prune then
        (* if hash-partitioned and no equals constraints, return all shards *)
        Ok (mkPruneState (prunedList st) false (foundPartitionColumnValue st)
                         (singlePartitionValueConst st))
      else
        let st1 :=
          if PartitionMethod_eqb (ctxPartitionMethod context) DISTRIBUTE_BY_HASH then
            match equalConsts prune, saoEqualConsts prune with
            | Some equalConst, _ =>
                if wantsPartitionValue then rememberPartitionValue equalConst st else st
            | None, _ :: _ =>
                if wantsPartitionValue
                then fold_left (fun s saoConst => rememberPartitionValue saoConst s)
                               (saoEqualConsts prune) st
                else st
            | None, [] => st
            end
          else st in
        pruneOneList <- PruneOne cacheEntry context prune ;;
        let prunedList' :=
          match prunedList st1 with
          | _ :: _ => list_union_ptr (prunedList st1) pruneOneList
          | [] => pruneOneList
          end in
        PruneShards_loop cacheEntry context wantsPartitionValue rest
          (mkPruneState prunedList' true (foundPartitionColumnValue st1)
                        (singlePartitionValueConst st1))
  end.

(** The normalizer as [PruneShards] runs it. *)
Definition NormalizedPruneTree (cat : Catalog) (partitionColumn : Var)
           (whereClauseList : list Node) : PruneNode :=
  let pruneNode :=
    BuildPruneTree cat partitionColumn (T_List whereClauseList)
                   (mkPruneNode AND_EXPR [] []) in
  BooleanDistributeToORofANDs
    (SeparateOrConditionsFromBools (PullUpBooleanOps pruneNode)).

(** What a call leaves in [*partitionValueConst]: nothing written, NULL
    written, or a copy of a constant written. *)
Inductive PartitionValueOutput :=
| NotWritten
| WrittenNull
| WrittenConst (c : Const).

(** The locals of [PruneShards] as declared. *)
Definition initialPruneState : PruneState := mkPruneState [] false false None.

(** The end of [PruneShards], after the main loop: the list returned and
    what is written through [partitionValueConst]. *)
Definition PruneShards_finish (cacheEntry : DistTableCacheEntry)
           (wantsPartitionValue : bool) (st : PruneState)
  : list ShardInterval * PartitionValueOutput :=
  (* found no valid restriction, build list of all shards *)
  let prunedList :=
    if negb (foundRestriction st)
    then ShardArrayToList (sortedShardIntervalArray cacheEntry)
                          (shardIntervalArrayLength cacheEntry)
    else prunedList st in
  (* if requested, copy the partition value constant *)
  let written :=
    if wantsPartitionValue then
      match singlePartitionValueConst st with
      | Some c => WrittenConst c
      | None => WrittenNull
      end
    else NotWritten in
  (DeepCopyShardIntervalList cacheEntry prunedList, written).

(** [PruneShards].  The table is given by its cache entry
    ([DistributedTableCacheEntry(relationId)], with the partition column of
    [PartitionColumn(relationId, rangeTableId)]); [wantsPartitionValue] is
    [partitionValueConst != NULL].  The result is the list returned and what
    was written through [partitionValueConst]. *)
Definition PruneShards (cat : Catalog) (cacheEntry : DistTableCacheEntry)
           (whereClauseList : list Node) (wantsPartitionValue : bool)
  : result (list ShardInterval * PartitionValueOutput) :=
  let shardCount := shardIntervalArrayLength cacheEntry in
  (* there are no shards to return *)
  if shardCount =? 0 then Ok ([], NotWritten)
  (* always return empty result if WHERE clause is of the form: false (AND ..) *)
  else if ContainsFalseClause whereClauseList then Ok ([], NotWritten)
  else
    match partitionMethod cacheEntry with
    | DISTRIBUTE_BY_NONE =>
        (* short circuit for reference tables *)
        Ok (DeepCopyShardIntervalList cacheEntry
              (ShardArrayToList (sortedShardIntervalArray cacheEntry) shardCount),
            NotWritten)
    | _ =>
        match shardIntervalCompareFunction cacheEntry with
        | None => Error NoShardIntervalComparator
        | Some compareInterval =>
            match shardColumnCompareFunction cacheEntry with
            | None => Error NoPartitionColumnComparator
            | Some compareValue =>
                let context :=
                  mkContext (partitionColumn cacheEntry) (partitionMethod cacheEntry)
                            compareValue compareInterval in
                let pruneNode3 :=
                  NormalizedPruneTree cat (ctxPartitionColumn context) whereClauseList in
                (* Figure out what we can prune on *)
                pruningInstances <-
                  PrunableExpressionsWalker2 cat (ctxPartitionColumn context)
                    (compareValueFunctionCall context) pruneNode3 ;;
                st <- PruneShards_loop cacheEntry context wantsPartitionValue
                        pruningInstances initialPruneState ;;
                Ok (PruneShards_finish cacheEntry wantsPartitionValue st)
            end
        end
    end.


(** ** Reference semantics of a where clause

    What "a row satisfies the predicate" means: SQL's three-valued
    evaluation of the clause on a row, the operators read through their
    b-tree strategy and the column comparator.  The pruning code never
    evaluates a clause; this is the yardstick its result is measured by. *)

Definition Row := Var -> option Datum.

Definition strategyHolds (strategy : StrategyNumber) (comparison : Z) : bool :=
  match strategy with
  | BTLessStrategyNumber => comparison <? 0
  | BTLessEqualStrategyNumber => comparison <=? 0
  | BTEqualStrategyNumber => comparison =? 0
  | BTGreaterEqualStrategyNumber => comparison >=? 0
  | BTGreaterStrategyNumber => comparison >? 0
  | ROWCOMPARE_NE => negb (comparison =? 0)
  end.

Fixpoint evalOperand (row : Row) (node : Node) : option Datum :=
  match node with
  | T_Var v => row v
  | T_Const c => if constisnull c then None else Some (constvalue c)
  | T_RelabelType arg _ => evalOperand row arg
  | _ => None
  end.

(** Conjunction and disjunction of three-valued results. *)
Fixpoint and3 (results : list (option bool)) : option bool :=
  match results with
  | [] => Some true
  | Some false :: _ => Some false
  | Some true :: rest => and3 rest
  | None :: rest => match and3 rest with Some false => Some false | _ => None end
  end.

Fixpoint or3 (results : list (option bool)) : option bool :=
  match results with
  | [] => Some false
  | Some true :: _ => Some true
  | Some false :: rest => or3 rest
  | None :: rest => match or3 rest with Some true => Some true | _ => None end
  end.

Definition evalComparison (cat : Catalog) (compare : CompareFunction)
           (opno : Oid) (left right : option Datum) : option bool :=
  match left, right, get_op_btree_interpretation cat opno with
  | Some a, Some b, strategy :: _ => option_map (strategyHolds strategy) (compare a b)
  | _, _, _ => None
  end.

Fixpoint evalClause (cat : Catalog) (compare : CompareFunction) (row : Row)
         (node : Node) : option bool :=
  match node with
  | T_Const c => if constisnull c then None else Some (DatumGetBool (constvalue c))
  | T_OpExpr opno [leftOperand; rightOperand] =>
      evalComparison cat compare opno
        (evalOperand row leftOperand) (evalOperand row rightOperand)
  | T_ScalarArrayOpExpr opno true leftarg (T_Const arrayConst) =>
      if constisnull arrayConst then None
      else
        or3 (map (fun element : Datum * bool =>
                    evalComparison cat compare opno (evalOperand row leftarg)
                      (if snd element then None else Some (fst element)))
                 (ARR_ELEMENTS (DatumGetArrayTypeP cat (constvalue arrayConst))))
  | T_BoolExpr AND_EXPR args => and3 (map (evalClause cat compare row) args)
  | T_BoolExpr OR_EXPR args => or3 (map (evalClause cat compare row) args)
  | T_BoolExpr NOT_EXPR [arg] => option_map negb (evalClause cat compare row arg)
  | T_NullTest arg IS_NULL =>
      Some (match evalOperand row arg with None => true | Some _ => false end)
  | T_NullTest arg IS_NOT_NULL =>
      Some (match evalOperand row arg with None => false | Some _ => true end)
  | T_List elements => and3 (map (evalClause cat compare row) elements)
  | _ => None
  end.

(** The row passes the where clause list. *)
Definition rowSatisfies (cat : Catalog) (compare : CompareFunction) (row : Row)
           (whereClauseList : list Node) : bool :=
  match evalClause cat compare row (T_List whereClauseList) with
  | Some true => true
  | _ => false
  end.

(** The interval of the shard holds the value. *)
Definition shardContains (compare : CompareFunction) (shard : ShardInterval)
           (value : Datum) : bool :=
  match compare (minValue shard) value, compare value (maxValue shard) with
  | Some lo, Some hi => (lo <=? 0) && (hi <=? 0)
  | _, _ => false
  end.

(** ** A concrete table: integer partition column, two adjacent shards *)

(** [btint4cmp] *)
Definition btint4cmp : CompareFunction :=
  fun a b => Some (if a >? b then 1 else if a =? b then 0 else -1).

Definition INT4OID : Oid := 23.
Definition Int4LessOperator : Oid := 97.
Definition Int4LessEqualOperator : Oid := 523.
Definition Int4EqualOperator : Oid := 96.
Definition Int4GreaterEqualOperator : Oid := 525.
Definition Int4GreaterOperator : Oid := 521.
Definition Int4NotEqualOperator : Oid := 518.

(** The integer operators of pg_amop; no array constant is in play. *)
Definition int4Catalog : Catalog :=
  mkCatalog
    (fun opno =>
       if opno =? Int4LessOperator then [BTLessStrategyNumber]
       else if opno =? Int4LessEqualOperator then [BTLessEqualStrategyNumber]
       else if opno =? Int4EqualOperator then [BTEqualStrategyNumber]
       else if opno =? Int4GreaterEqualOperator then [BTGreaterEqualStrategyNumber]
       else if opno =? Int4GreaterOperator then [BTGreaterStrategyNumber]
       else if opno =? Int4NotEqualOperator then [ROWCOMPARE_NE]
       else [])
    (fun _ => mkArray INT4OID []).

Definition keyColumn : Var := mkVar 1 1 INT4OID.
Definition otherColumn : Var := mkVar 1 2 INT4OID.

(** [column op constant] *)
Definition keyRestriction (column : Var) (opno : Oid) (constant : Const) : Node :=
  T_OpExpr opno [T_Var column; T_Const constant].

Definition int4Const (value : Z) : Const := mkConst INT4OID value false.

(** [column op value], on integers *)
Definition compareColumn (column : Var) (opno : Oid) (value : Z) : Node :=
  keyRestriction column opno (int4Const value).

Definition firstShard : ShardInterval := mkShardInterval 102008 true true 1 1000.
Definition secondShard : ShardInterval := mkShardInterval 102009 true true 1001 2000.

Definition adjacentShards (method : PartitionMethod) : DistTableCacheEntry :=
  mkCacheEntry method keyColumn [firstShard; secondShard] false
               (Some btint4cmp) (Some btint4cmp) (fun value => value).

Definition rangeTable : DistTableCacheEntry := adjacentShards DISTRIBUTE_BY_RANGE.
Definition appendTable : DistTableCacheEntry := adjacentShards DISTRIBUTE_BY_APPEND.

(** The same column hash-partitioned over the two halves of the hash space;
    the hash function of the example is the identity. *)
Definition lowerHashShard : ShardInterval :=
  mkShardInterval 102010 true true (-2147483648) (-1).
Definition upperHashShard : ShardInterval :=
  mkShardInterval 102011 true true 0 2147483647.

Definition hashTable : DistTableCacheEntry :=
  mkCacheEntry DISTRIBUTE_BY_HASH keyColumn [lowerHashShard; upperHashShard] false
               (Some btint4cmp) (Some btint4cmp) (fun value => value).

(** The range table with an interval comparator that returns NULL when asked
    about 1007: pruning an instance that looks 1007 up fails. *)
Definition nullOn1007 : CompareFunction :=
  fun a b => if a =? 1007 then None else btint4cmp a b.

Definition touchyTable : DistTableCacheEntry :=
  mkCacheEntry DISTRIBUTE_BY_RANGE keyColumn [firstShard; secondShard] false
               (Some nullOn1007) (Some btint4cmp) (fun value => value).

(** A row whose partition column holds [key] and whose other column is null. *)
Definition rowWithKey (key : Z) : Row :=
  fun v => if Var_eqb v keyColumn then Some key else None.


(** The instance a branch with the single condition [column = constant]
    is folded into. *)
Definition equalityInstance (constant : Const) : PruningInstance :=
  mkPruningInstance true false None None (Some constant) None None [] None [] true false.

(** ** The fold of a branch, update by update

    Under a comparator that always answers, folding a condition into an
    instance is a sequence of elementary updates of the instance; the
    definitions below name them, for the statements on the order of the
    fold.  [compareValues a b] is the answer of the column comparator. *)

Inductive InstanceUpdate :=
| MarkAdded                                               (* addedToPruningInstances = true *)
| KeyBound (strategy : StrategyNumber) (constant : Const) (* one turn of the switch *)
| MarkValid                                               (* hasValidConstraint = true *)
| OtherRestriction (opClause : Node)                      (* lappend(otherRestrictions, opClause) *)
| HashedValue (constant : Const)                          (* hashedEqualConsts = constant *)
| MembershipValue (constant : Const).                     (* lappend(saoEqualConsts, constant) *)

Definition applyKeyBound (compareValues : Datum -> Datum -> Z)
           (strategy : StrategyNumber) (constant : Const) (prune : PruningInstance)
  : PruningInstance :=
  match strategy with
  | BTLessStrategyNumber =>
      match lessConsts prune with
      | None => set_lessConsts (Some constant) prune
      | Some old =>
          if compareValues (constvalue constant) (constvalue old) <? 0
          then set_lessConsts (Some constant) prune else prune
      end
  | BTLessEqualStrategyNumber =>
      match lessEqualConsts prune with
      | None => set_lessEqualConsts (Some constant) prune
      | Some old =>
          if compareValues (constvalue constant) (constvalue old) <? 0
          then set_lessEqualConsts (Some constant) prune else prune
      end
  | BTEqualStrategyNumber =>
      match equalConsts prune with
      | None => set_equalConsts (Some constant) prune
      | Some old =>
          if negb (compareValues (constvalue constant) (constvalue old) =? 0)
          then set_evaluatesToFalse true prune else prune
      end
  | BTGreaterEqualStrategyNumber =>
      match greaterEqualConsts prune with
      | None => set_greaterEqualConsts (Some constant) prune
      | Some old =>
          if compareValues (constvalue constant) (constvalue old) >? 0
          then set_greaterEqualConsts (Some constant) prune else prune
      end
  | BTGreaterStrategyNumber =>
      match greaterConsts prune with
      | None => set_greaterConsts (Some constant) prune
      | Some old =>
          if compareValues (constvalue constant) (constvalue old) >? 0
          then set_greaterConsts (Some constant) prune else prune
      end
  | ROWCOMPARE_NE => prune
  end.

Definition applyUpdate (compareValues : Datum -> Datum -> Z)
           (prune : PruningInstance) (update : InstanceUpdate) : PruningInstance :=
  match update with
  | MarkAdded => set_addedToPruningInstances true prune
  | KeyBound strategy constant => applyKeyBound compareValues strategy constant prune
  | MarkValid => set_hasValidConstraint true prune
  | OtherRestriction opClause =>
      set_otherRestrictions (otherRestrictions prune ++ [opClause]) prune
  | HashedValue constant =>
      set_hasValidConstraint true (set_hashedEqualConsts (Some constant) prune)
  | MembershipValue constant =>
      set_hasValidConstraint true
        (set_saoEqualConsts (saoEqualConsts prune ++ [constant]) prune)
  end.

Definition applyUpdates (compareValues : Datum -> Datum -> Z)
           (updates : list InstanceUpdate) (prune : PruningInstance) : PruningInstance :=
  fold_left (applyUpdate compareValues) updates prune.

(** [matchedOp] at the end of the loop over the interpretations. *)
Fixpoint matchedOpAfter (btreeInterpretationList : list StrategyNumber) (matchedOp : bool)
  : bool :=
  match btreeInterpretationList with
  | [] => matchedOp
  | ROWCOMPARE_NE :: rest => matchedOpAfter rest false
  | _ :: rest => matchedOpAfter rest true
  end.

(** The updates [HandleConditionNode] makes for a condition. *)
Definition updatesOf (cat : Catalog) (partitionColumn : Var) (node : Node)
  : list InstanceUpdate :=
  match node with
  | T_OpExpr opno args =>
      MarkAdded ::
      match constAndVarOperands args with
      | Some (constantClause, varClause) =>
          let interpretations := get_op_btree_interpretation cat opno in
          if Var_eqb varClause partitionColumn then
            map (fun strategy => KeyBound strategy constantClause) interpretations
            ++ [if matchedOpAfter interpretations false
                then MarkValid else OtherRestriction node]
          else if varattno varClause =? RESERVED_HASHED_COLUMN_ID then
            flat_map (fun strategy =>
                        match strategy with
                        | BTGreaterEqualStrategyNumber => [HashedValue constantClause]
                        | _ => []
                        end) interpretations
          else []
      | None => []
      end
  | T_ScalarArrayOpExpr opno _ leftarg rightarg =>
      MarkAdded ::
      match rightarg with
      | T_Const arrayConst =>
          if OperatorImplementsEquality cat opno
             && equalsVar (strip_implicit_coercions leftarg) partitionColumn
          then
            if constvalue arrayConst =? 0 then []
            else
              let array := DatumGetArrayTypeP cat (constvalue arrayConst) in
              map (fun element : Datum * bool =>
                     MembershipValue (mkConst (ARR_ELEMTYPE array) (fst element) (snd element)))
                  (ARR_ELEMENTS array)
          else [MarkAdded]
      | _ => [MarkAdded]
      end
  | _ => [MarkAdded]
  end.

Definition branchUpdates (cat : Catalog) (partitionColumn : Var) (nodes : list Node)
  : list InstanceUpdate :=
  flat_map (updatesOf cat partitionColumn) nodes.

(** The pre-hashed values a branch sets. *)
Definition hashedValuesOf (updates : list InstanceUpdate) : list Datum :=
  flat_map (fun update =>
              match update with
              | HashedValue constant => [constvalue constant]
              | _ => []
              end) updates.


(** [compareValues] is the sign of a strict total order on the datums:
    [rank] places every datum on the integer line. *)
Definition ordersBy (rank : Datum -> Z) (compareValues : Datum -> Datum -> Z) : Prop :=
  forall a b,
    (compareValues a b < 0 <-> rank a < rank b)
    /\ (compareValues a b = 0 <-> a = b)
    /\ (0 < compareValues a b <-> rank b < rank a).

Definition valueOf (constant : option Const) : option Datum :=
  option_map constvalue constant.

Definition isSome {A} (o : option A) : bool :=
  match o with Some _ => true | None => false end.

(** Two instances that hold the same constraints: the same flags, the same
    bound values, the same membership values up to order, and the same
    equality value unless the instance is marked false (the constants may
    differ in type and null flag, and [otherRestrictions] in order). *)
Definition sameConstraints (p q : PruningInstance) : Prop :=
  hasValidConstraint p = hasValidConstraint q
  /\ evaluatesToFalse p = evaluatesToFalse q
  /\ valueOf (lessConsts p) = valueOf (lessConsts q)
  /\ valueOf (lessEqualConsts p) = valueOf (lessEqualConsts q)
  /\ isSome (equalConsts p) = isSome (equalConsts q)
  /\ (evaluatesToFalse p = false -> valueOf (equalConsts p) = valueOf (equalConsts q))
  /\ valueOf (greaterEqualConsts p) = valueOf (greaterEqualConsts q)
  /\ valueOf (greaterConsts p) = valueOf (greaterConsts q)
  /\ Permutation (map constvalue (saoEqualConsts p)) (map constvalue (saoEqualConsts q))
  /\ valueOf (hashedEqualConsts p) = valueOf (hashedEqualConsts q)
  /\ addedToPruningInstances p = addedToPruningInstances q
  /\ isPartial p = isPartial q.

(** Two lists of shard pointers that hold the same shards. *)
Definition sameShardSet (shards shards' : list Z) : Prop :=
  forall shard, In shard shards <-> In shard shards'.


(** ** Notions for the further properties *)

(** Indices that designate cells of the sorted array of the table. *)
Definition indicesInArray (cacheEntry : DistTableCacheEntry) (indices : list Z) : Prop :=
  forall index, In index indices -> 0 <= index < shardIntervalArrayLength cacheEntry.

(** A call that can fail only because a comparator returned NULL. *)
Definition failsOnlyOnNull {A} (m : result A) : Prop :=
  forall e, m = Error e -> e = FunctionReturnedNull.

(** The answers of a comparator; zero stands in where it returns NULL. *)
Definition answersOf (compareFunction : CompareFunction) : Datum -> Datum -> Z :=
  fun a b => match compareFunction a b with Some r => r | None => 0 end.

(** A reference table: one shard without boundaries, no comparator. *)
Definition referenceShard : ShardInterval := mkShardInterval 102012 false false 0 0.

Definition referenceTable : DistTableCacheEntry :=
  mkCacheEntry DISTRIBUTE_BY_NONE keyColumn [referenceShard] false None None
               (fun value => value).

(** What the tree passes assert of a prune tree: no node carries
    [NOT_EXPR] ... *)
Fixpoint noNotNode (node : PruneNode) : bool :=
  match node with
  | mkPruneNode op bs _ =>
      negb (BoolExprType_eqb op NOT_EXPR) && forallb noNotNode bs
  end.

(** ... and, from [SeparateOrConditionsFromBools] on, an OR node holds no
    condition of its own ([Assert(!orNode->conditions)],
    [Assert(node->boolOp == OR_EXPR)], [Assert(!node->conditions)]). *)
Fixpoint orNodesBare (node : PruneNode) : bool :=
  match node with
  | mkPruneNode op bs conds =>
      match op, conds with
      | AND_EXPR, _ => true
      | OR_EXPR, [] => true
      | _, _ => false
      end && forallb orNodesBare bs
  end.

(** The nodes [BuildPruneTree] returns from without recording anything:
    a NOT expression, and every node that is neither a list, a boolean
    expression nor an operator expression. *)
Definition leftOutOfPruneTree (node : Node) : bool :=
  match node with
  | T_BoolExpr NOT_EXPR _ => true
  | T_Var _ | T_Const _ | T_RelabelType _ _ | T_NullTest _ _ => true
  | _ => false
  end.

(** The nodes [BuildPruneTree] classifies: operator expressions and scalar
    array operator expressions. *)
Definition isConditionNode (node : Node) : bool :=
  match node with
  | T_OpExpr _ _ | T_ScalarArrayOpExpr _ _ _ _ => true
  | _ => false
  end.

(** The conditions [AppendConstraint] builds in an AND node from the valid
    constraints [valid] seen so far and the fact [invalid] that a rejected
    condition was seen: one wrapper with all the valid constraints, one
    marker, in the order of their first appearance. *)
Definition conjunctionWrappers (conditions : list ConditionWrapper)
           (valid : list Node) (invalid : bool) : Prop :=
  match valid, invalid with
  | [], false => conditions = []
  | [], true => conditions = [mkConditionWrapper []]
  | _ :: _, false => conditions = [mkConditionWrapper valid]
  | _ :: _, true =>
      conditions = [mkConditionWrapper valid; mkConditionWrapper []]
      \/ conditions = [mkConditionWrapper []; mkConditionWrapper valid]
  end.

(** A comparison of the partition column with a constant by an operator
    that has no equality strategy. *)
Definition isRangeComparison (cat : Catalog) (partitionColumn : Var) (node : Node) : bool :=
  match node with
  | T_OpExpr opno args =>
      match constAndVarOperands args with
      | Some (_, varClause) =>
          Var_eqb varClause partitionColumn && negb (OperatorImplementsEquality cat opno)
      | None => false
      end
  | _ => false
  end.

(** An instance that pins the partition column to no value: what
    [PruneShards] tests before it gives up on a hash-partitioned table. *)
Definition pinsNoValue (prune : PruningInstance) : Prop :=
  evaluatesToFalse prune = false
  /\ equalConsts prune = None
  /\ saoEqualConsts prune = []
  /\ hashedEqualConsts prune = None
  /\ isPartial prune = false.

(** The comparator answers every comparison, by the order in which [rank]
    places the datums. *)
Definition comparesBy (rank : Datum -> Z) (compareFunction : CompareFunction) : Prop :=
  forall a b, exists r,
    compareFunction a b = Some r
    /\ (r < 0 <-> rank a < rank b)
    /\ (0 < r <-> rank b < rank a).

(** A sorted array of non-overlapping intervals: the minimum of an interval
    is not above its maximum, and an interval ends before the next begins. *)
Definition sortedDisjoint (rank : Datum -> Z) (shardIntervalCache : list ShardInterval)
  : Prop :=
  (forall i, 0 <= i < Z.of_nat (length shardIntervalCache) ->
             rank (minValue (shardAt shardIntervalCache i))
             <= rank (maxValue (shardAt shardIntervalCache i)))
  /\ (forall i j, 0 <= i -> i < j -> j < Z.of_nat (length shardIntervalCache) ->
                  rank (maxValue (shardAt shardIntervalCache i))
                  < rank (minValue (shardAt shardIntervalCache j))).

(** The interval begins at or below the value (below it, for an exclusive
    bound). *)
Definition startsBy (rank : Datum -> Z) (value : Datum) (inclusive : bool)
           (shard : ShardInterval) : Prop :=
  if inclusive then rank (minValue shard) <= rank value
  else rank (minValue shard) < rank value.

(** The interval ends at or above the value (above it, for an exclusive
    bound). *)
Definition reaches (rank : Datum -> Z) (value : Datum) (inclusive : bool)
           (shard : ShardInterval) : Prop :=
  if inclusive then rank value <= rank (maxValue shard)
  else rank value < rank (maxValue shard).

(** Three intervals with gaps between them: [1,10], [20,30], [40,50]. *)
Definition gappedShards : list ShardInterval :=
  [mkShardInterval 102020 true true 1 10;
   mkShardInterval 102021 true true 20 30;
   mkShardInterval 102022 true true 40 50].

Definition gappedTable : DistTableCacheEntry :=
  mkCacheEntry DISTRIBUTE_BY_RANGE keyColumn gappedShards false
               (Some btint4cmp) (Some btint4cmp) (fun value => value).

(** The interval is excluded by none of the range bounds of the instance. *)
Definition withinBounds (rank : Datum -> Z) (prune : PruningInstance)
           (shard : ShardInterval) : Prop :=
  (forall c, greaterEqualConsts prune = Some c -> reaches rank (constvalue c) true shard)
  /\ (forall c, greaterConsts prune = Some c -> reaches rank (constvalue c) false shard)
  /\ (forall c, lessEqualConsts prune = Some c -> startsBy rank (constvalue c) true shard)
  /\ (forall c, lessConsts prune = Some c -> startsBy rank (constvalue c) false shard).

(** The interval holds the value. *)
Definition holdsValue (rank : Datum -> Z) (shard : ShardInterval) (value : Datum) : Prop :=
  rank (minValue shard) <= rank value <= rank (maxValue shard).

(** What [ExhaustivePruneOne] asks of an interval to keep it: both
    boundaries missing or not, the equality value and every membership
    value inside the interval, and no range bound that excludes it. *)
Definition keptByExhaustivePrune (rank : Datum -> Z) (prune : PruningInstance)
           (shard : ShardInterval) : Prop :=
  minValueExists shard = false \/ maxValueExists shard = false
  \/ ((forall c, equalConsts prune = Some c -> holdsValue rank shard (constvalue c))
      /\ (forall c, In c (saoEqualConsts prune) -> holdsValue rank shard (constvalue c))
      /\ withinBounds rank prune shard).














(** The trees on which the loop of [OneBooleanDistributeToORofANDs] never
    reads a list cell that was freed and handed out again: every child the
    loop visits has no conditions of its own, so that [MakeORofAnds]
    allocates nothing between [list_delete_ptr] freeing the cell of the
    child and [foreach] reading its [next].  On these trees
    [distributeOverChildren] is what the loop does in a production build.
    A node that is neither AND nor OR is not among them: the function
    dereferences a null [andNode] there. *)
Fixpoint distributionReadsNoReusedCell (node : PruneNode) : bool :=
  match node with
  | mkPruneNode AND_EXPR bs _ =>
      forallb (fun orNode =>
                 match conditions orNode with [] => true | _ :: _ => false end) bs
  | mkPruneNode OR_EXPR bs _ => forallb distributionReadsNoReusedCell bs
  | mkPruneNode NOT_EXPR _ _ => false
  end.

(** The trees on which that loop is not entered at all: no AND node that the
    pass reaches has children.  In a build with assertions [pfree]
    overwrites what it frees, so the loop cannot step past the first child
    it visits; on these trees the pass frees nothing. *)
Fixpoint distributionLoopNotEntered (node : PruneNode) : bool :=
  match node with
  | mkPruneNode AND_EXPR bs _ => match bs with [] => true | _ :: _ => false end
  | mkPruneNode OR_EXPR bs _ => forallb distributionLoopNotEntered bs
  | mkPruneNode NOT_EXPR _ _ => false
  end.

(** * Properties *)

(** ** The binary searches end by their own test *)

Lemma middleIndex_bounds (lowerBoundIndex upperBoundIndex : Z) :
  lowerBoundIndex < upperBoundIndex ->
  lowerBoundIndex <= lowerBoundIndex + Z.quot (upperBoundIndex - lowerBoundIndex) 2
  < upperBoundIndex.
Proof.
  intros Hlt.
  assert (0 <= Z.quot (upperBoundIndex - lowerBoundIndex) 2)
    by (apply Z.quot_pos; lia).
  assert (Z.quot (upperBoundIndex - lowerBoundIndex) 2 < upperBoundIndex - lowerBoundIndex)
    by (apply Z.quot_lt; lia).
  lia.
Qed.

(** Fuel beyond the width of the search range is never used: the turn count
    of [LowerShardBoundary] is bounded by the array length it starts from. *)
Lemma LowerShardBoundary_loop_fuel (fuel extra : nat) compareFunction value cache includeMax :
  forall lowerBoundIndex upperBoundIndex,
    upperBoundIndex - lowerBoundIndex <= Z.of_nat fuel ->
    LowerShardBoundary_loop (fuel + extra) compareFunction value cache includeMax
                            lowerBoundIndex upperBoundIndex
    = LowerShardBoundary_loop fuel compareFunction value cache includeMax
                              lowerBoundIndex upperBoundIndex.
Proof.
  induction fuel as [|fuel IH]; intros lo hi Hwidth.
  - destruct extra; simpl; destruct (lo <? hi) eqn:E; try reflexivity;
      apply Z.ltb_lt in E; lia.
  - simpl. destruct (lo <? hi) eqn:E; [|reflexivity].
    apply Z.ltb_lt in E. pose proof (middleIndex_bounds lo hi E) as Hmid.
    destruct (PerformValueCompare compareFunction value
                (minValue (shardAt cache (lo + Z.quot (hi - lo) 2)))) as [r|e];
      simpl; [|reflexivity].
    destruct (r <? 0).
    + apply IH. lia.
    + destruct (PerformValueCompare compareFunction value
                  (maxValue (shardAt cache (lo + Z.quot (hi - lo) 2)))) as [r'|e'];
        simpl; [|reflexivity].
      destruct (((r' =? 0) && negb includeMax) || (r' >? 0)); [|reflexivity].
      apply IH. lia.
Qed.

Lemma UpperShardBoundary_loop_fuel (fuel extra : nat) compareFunction value cache includeMin :
  forall lowerBoundIndex upperBoundIndex,
    upperBoundIndex - lowerBoundIndex <= Z.of_nat fuel ->
    UpperShardBoundary_loop (fuel + extra) compareFunction value cache includeMin
                            lowerBoundIndex upperBoundIndex
    = UpperShardBoundary_loop fuel compareFunction value cache includeMin
                              lowerBoundIndex upperBoundIndex.
Proof.
  induction fuel as [|fuel IH]; intros lo hi Hwidth.
  - destruct extra; simpl; destruct (lo <? hi) eqn:E; try reflexivity;
      apply Z.ltb_lt in E; lia.
  - simpl. destruct (lo <? hi) eqn:E; [|reflexivity].
    apply Z.ltb_lt in E. pose proof (middleIndex_bounds lo hi E) as Hmid.
    destruct (PerformValueCompare compareFunction value
                (minValue (shardAt cache (lo + Z.quot (hi - lo) 2)))) as [r|e];
      simpl; [|reflexivity].
    destruct (((r =? 0) && negb includeMin) || (r <? 0)).
    + apply IH. lia.
    + destruct (PerformValueCompare compareFunction value
                  (maxValue (shardAt cache (lo + Z.quot (hi - lo) 2)))) as [r'|e'];
        simpl; [|reflexivity].
      destruct (r' >? 0); [|reflexivity].
      apply IH. lia.
Qed.

(** ** False clauses *)

Lemma ContainsFalseClause_In (whereClauseList : list Node) (c : Const) :
  In (T_Const c) whereClauseList ->
  consttype c = BOOLOID ->
  DatumGetBool (constvalue c) = false ->
  ContainsFalseClause whereClauseList = true.
Proof.
  intros Hin Hty Hval.
  induction whereClauseList as [|clause rest IH]; [contradiction|].
  destruct Hin as [->|Hin].
  - simpl. rewrite Hty, Hval. reflexivity.
  - simpl. specialize (IH Hin).
    destruct clause; try exact IH.
    destruct ((consttype c0 =? BOOLOID) && negb (DatumGetBool (constvalue c0)));
      [reflexivity | exact IH].
Qed.

Lemma PruneShards_ContainsFalseClause cat cacheEntry whereClauseList wantsPartitionValue :
  ContainsFalseClause whereClauseList = true ->
  PruneShards cat cacheEntry whereClauseList wantsPartitionValue = Ok ([], NotWritten).
Proof.
  intros H. unfold PruneShards. rewrite H.
  destruct (shardIntervalArrayLength cacheEntry =? 0); reflexivity.
Qed.

(** C8. A where clause list that holds a boolean constant false among its
    top-level conjuncts is pruned to the empty list at once: for every table
    (with shards or without, whatever its partition method and
    comparators), nothing else is looked at and nothing is written through
    [partitionValueConst]. *)
Theorem PruneShards_false_clause cat cacheEntry whereClauseList wantsPartitionValue
        (c : Const) :
  consttype c = BOOLOID ->
  DatumGetBool (constvalue c) = false ->
  In (T_Const c) whereClauseList ->
  PruneShards cat cacheEntry whereClauseList wantsPartitionValue = Ok ([], NotWritten).
Proof.
  intros Hty Hval Hin.
  apply PruneShards_ContainsFalseClause.
  exact (ContainsFalseClause_In whereClauseList c Hin Hty Hval).
Qed.

Lemma PruneShards_false_clause_witness :
  PruneShards int4Catalog rangeTable
    [compareColumn keyColumn Int4EqualOperator 5; T_Const (mkConst BOOLOID 0 false)] true
  = Ok ([], NotWritten).
Proof.
  apply (PruneShards_false_clause int4Catalog rangeTable _ true (mkConst BOOLOID 0 false)).
  - reflexivity.
  - reflexivity.
  - simpl. right. left. reflexivity.
Defined.

Lemma ContainsFalseClause_ignores_constisnull (before after : list Node)
      (type : Oid) (value : Datum) (isnull isnull' : bool) :
  ContainsFalseClause (before ++ T_Const (mkConst type value isnull) :: after)
  = ContainsFalseClause (before ++ T_Const (mkConst type value isnull') :: after).
Proof.
  induction before as [|clause before IH]; simpl.
  - reflexivity.
  - destruct clause; try exact IH.
    destruct ((consttype c =? BOOLOID) && negb (DatumGetBool (constvalue c)));
      [reflexivity | exact IH].
Qed.

(** C9. [ContainsFalseClause] reads the type and the datum of a constant
    and not its null flag: changing [constisnull] of any conjunct never
    changes its answer.  A null boolean constant (datum 0, as
    [makeNullConst] builds it) among the conjuncts therefore counts as
    false: [ContainsFalseClause] is true and [PruneShards] returns the empty
    list for every table. *)
Theorem ContainsFalseClause_null_boolean (whereClauseList : list Node) :
  In (T_Const (makeNullConst BOOLOID)) whereClauseList ->
  ContainsFalseClause whereClauseList = true
  /\ (forall cat cacheEntry wantsPartitionValue,
         PruneShards cat cacheEntry whereClauseList wantsPartitionValue
         = Ok ([], NotWritten))
  /\ (forall before after type value isnull isnull',
         ContainsFalseClause (before ++ T_Const (mkConst type value isnull) :: after)
         = ContainsFalseClause (before ++ T_Const (mkConst type value isnull') :: after)).
Proof.
  intros Hin.
  assert (Hfalse : ContainsFalseClause whereClauseList = true)
    by (apply (ContainsFalseClause_In _ (makeNullConst BOOLOID)); auto).
  split; [exact Hfalse|]. split.
  - intros. apply PruneShards_ContainsFalseClause. exact Hfalse.
  - intros. apply ContainsFalseClause_ignores_constisnull.
Qed.

Lemma ContainsFalseClause_null_boolean_witness :
  ContainsFalseClause
    [compareColumn keyColumn Int4EqualOperator 5; T_Const (makeNullConst BOOLOID)] = true
  /\ PruneShards int4Catalog rangeTable
       [compareColumn keyColumn Int4EqualOperator 5; T_Const (makeNullConst BOOLOID)] true
     = Ok ([], NotWritten).
Proof.
  destruct (ContainsFalseClause_null_boolean
              [compareColumn keyColumn Int4EqualOperator 5; T_Const (makeNullConst BOOLOID)])
    as [Hfalse [Hprune _]].
  - simpl. right. left. reflexivity.
  - split; [exact Hfalse | apply Hprune].
Defined.

(** ** The boundary searches on adjacent shards *)

(** The lower boundary search for [> 1000] ends between the two shards with
    [lowerBoundIndex = 1], the index of the first shard above 1000, and
    returns [lowerBoundIndex + 1 = 2], an index past the array. *)
Lemma LowerShardBoundary_between_adjacent :
  LowerShardBoundary_loop 2 btint4cmp 1000 [firstShard; secondShard] false 0 2
  = Ok (NotFound 1 1)
  /\ LowerShardBoundary 1000 [firstShard; secondShard] 2 btint4cmp false = Ok 2
  /\ UpperShardBoundary 1001 [firstShard; secondShard] 2 btint4cmp false = Ok 0.
Proof. repeat split. Qed.

(** C2. On the table with the adjacent shards [1,1000] and [1001,2000]
    (range or append distributed, no overlap), [col = 1000] selects the
    first shard only and [col = 1001] the second only, but
    [col > 1000 AND col <= 1001] selects no shard at all, where the second
    shard is due: [LowerShardBoundary] answers 2 for the bound [> 1000]. *)
Theorem adjacent_shards_boundaries :
  Forall (fun table =>
     PruneShards int4Catalog table [compareColumn keyColumn Int4EqualOperator 1000] true
     = Ok ([firstShard], WrittenNull)
     /\ PruneShards int4Catalog table [compareColumn keyColumn Int4EqualOperator 1001] true
        = Ok ([secondShard], WrittenNull)
     /\ PruneShards int4Catalog table
          [compareColumn keyColumn Int4GreaterOperator 1000;
           compareColumn keyColumn Int4LessEqualOperator 1001] true
        = Ok ([], WrittenNull)
     /\ PruneShards int4Catalog table
          [T_BoolExpr AND_EXPR [compareColumn keyColumn Int4GreaterOperator 1000;
                                compareColumn keyColumn Int4LessEqualOperator 1001]] true
        = Ok ([], WrittenNull))
    [rangeTable; appendTable].
Proof.
  repeat constructor.
Qed.

(** C1. Pruning loses a shard that holds a matching row.  The row with key
    1500 passes [col > 1000] and lies in the second shard of the table of
    adjacent shards, and [PruneShards] returns no shard. *)
Theorem PruneShards_misses_matching_shard :
  rowSatisfies int4Catalog btint4cmp (rowWithKey 1500)
               [compareColumn keyColumn Int4GreaterOperator 1000] = true
  /\ In secondShard (sortedShardIntervalArray rangeTable)
  /\ shardContains btint4cmp secondShard 1500 = true
  /\ PruneShards int4Catalog rangeTable
       [compareColumn keyColumn Int4GreaterOperator 1000] false
     = Ok ([], NotWritten).
Proof.
  repeat split. simpl. right. left. reflexivity.
Qed.

(** A second way a matching shard is lost: [BuildPruneTree] records nothing
    for a node that is neither a boolean nor an operator expression, so an OR
    with such an arm is pruned as if the arm were not there.  The row with
    key 1500 and a null other column passes [col = 5 OR other IS NULL]. *)
Lemma PruneShards_drops_unclassified_OR_arm :
  rowSatisfies int4Catalog btint4cmp (rowWithKey 1500)
    [T_BoolExpr OR_EXPR [compareColumn keyColumn Int4EqualOperator 5;
                         T_NullTest (T_Var otherColumn) IS_NULL]] = true
  /\ shardContains btint4cmp secondShard 1500 = true
  /\ PruneShards int4Catalog rangeTable
       [T_BoolExpr OR_EXPR [compareColumn keyColumn Int4EqualOperator 5;
                            T_NullTest (T_Var otherColumn) IS_NULL]] false
     = Ok ([firstShard], NotWritten).
Proof. repeat split. Qed.

(** ** The distribution pass *)

Lemma distributeOverChildren_last andConds (cells : list PruneNode) lastChild :
  forall newOrBools,
    distributeOverChildren andConds (cells ++ [lastChild]) newOrBools
    = MakeORofAnds [] (conditions lastChild) andConds ++ bools lastChild.
Proof.
  induction cells as [|cell cells IH]; intros acc; simpl.
  - reflexivity.
  - apply IH.
Qed.

(** C3. What the distribution pass makes of an AND node with several OR
    children.  After the separation pass an OR child has no condition of its
    own, its alternatives are its children; for such a last child the pass
    returns exactly that child's alternatives: the conditions of the AND
    node and every alternative of the earlier children are gone, and no
    combination is formed.  On [(a = 1 OR a = 2) AND (a = 3 OR a = 4)] the
    normalized tree is [a = 3 OR a = 4], two branches where four
    combinations are due. *)
Theorem distribution_keeps_last_OR_child_only :
  (forall andConds earlierChildren lastOp lastAlternatives,
      BooleanDistributeToORofANDs
        (mkPruneNode AND_EXPR
           (earlierChildren ++ [mkPruneNode lastOp lastAlternatives []]) andConds)
      = mkPruneNode OR_EXPR lastAlternatives [])
  /\ NormalizedPruneTree int4Catalog keyColumn
       [T_BoolExpr OR_EXPR [compareColumn keyColumn Int4EqualOperator 1;
                            compareColumn keyColumn Int4EqualOperator 2];
        T_BoolExpr OR_EXPR [compareColumn keyColumn Int4EqualOperator 3;
                            compareColumn keyColumn Int4EqualOperator 4]]
     = mkPruneNode OR_EXPR
         [mkPruneNode AND_EXPR []
            [mkConditionWrapper [compareColumn keyColumn Int4EqualOperator 3]];
          mkPruneNode AND_EXPR []
            [mkConditionWrapper [compareColumn keyColumn Int4EqualOperator 4]]]
         [].
Proof.
  split; [|reflexivity].
  intros andConds earlier lastOp alternatives.
  unfold BooleanDistributeToORofANDs, OneBooleanDistributeToORofANDs.
  destruct (earlier ++ [mkPruneNode lastOp alternatives []]) as [|first others] eqn:E.
  - destruct earlier; discriminate.
  - rewrite <- E, distributeOverChildren_last. simpl.
    destruct andConds; reflexivity.
Qed.

(** ** The main path of [PruneShards] *)

Lemma Var_eqb_refl v : Var_eqb v v = true.
Proof. unfold Var_eqb. rewrite !Z.eqb_refl. reflexivity. Qed.

(** With shards, no false clause, a partition method and both comparators,
    [PruneShards] is the walk of the normalized tree followed by the main
    loop. *)
Lemma PruneShards_main_path cat cacheEntry whereClauseList wantsPartitionValue
      compareInterval compareValue :
  shardIntervalArrayLength cacheEntry <> 0 ->
  ContainsFalseClause whereClauseList = false ->
  partitionMethod cacheEntry <> DISTRIBUTE_BY_NONE ->
  shardIntervalCompareFunction cacheEntry = Some compareInterval ->
  shardColumnCompareFunction cacheEntry = Some compareValue ->
  PruneShards cat cacheEntry whereClauseList wantsPartitionValue
  = (pruningInstances <-
       PrunableExpressionsWalker2 cat (partitionColumn cacheEntry) compareValue
         (NormalizedPruneTree cat (partitionColumn cacheEntry) whereClauseList) ;;
     st <- PruneShards_loop cacheEntry
             (mkContext (partitionColumn cacheEntry) (partitionMethod cacheEntry)
                        compareValue compareInterval)
             wantsPartitionValue pruningInstances initialPruneState ;;
     Ok (PruneShards_finish cacheEntry wantsPartitionValue st)).
Proof.
  intros Hcount Hfalse Hmethod Hci Hcv. unfold PruneShards.
  apply Z.eqb_neq in Hcount. rewrite Hcount, Hfalse, Hci, Hcv.
  destruct (partitionMethod cacheEntry); try reflexivity. contradiction.
Qed.

(** ** Equality conflict *)

Lemma IsValidConditionNode_equality cat column opno c :
  get_op_btree_interpretation cat opno = [BTEqualStrategyNumber] ->
  IsValidConditionNode cat (keyRestriction column opno c) column = true.
Proof.
  intros H. unfold IsValidConditionNode, keyRestriction. simpl.
  rewrite Var_eqb_refl. unfold IsValidPartitionKeyRestriction. rewrite H. reflexivity.
Qed.

Lemma NormalizedPruneTree_two_equalities cat column opno c1 c2 :
  get_op_btree_interpretation cat opno = [BTEqualStrategyNumber] ->
  Forall (fun whereClauseList =>
    NormalizedPruneTree cat column whereClauseList
    = mkPruneNode OR_EXPR
        [mkPruneNode AND_EXPR []
           [mkConditionWrapper [keyRestriction column opno c1;
                                keyRestriction column opno c2]]] []
    /\ ContainsFalseClause whereClauseList = false)
   [ [keyRestriction column opno c1; keyRestriction column opno c2];
     [T_BoolExpr AND_EXPR [keyRestriction column opno c1; keyRestriction column opno c2]] ].
Proof.
  intros H.
  assert (V1 := IsValidConditionNode_equality cat column opno c1 H).
  assert (V2 := IsValidConditionNode_equality cat column opno c2 H).
  unfold keyRestriction in *.
  repeat constructor; unfold NormalizedPruneTree;
  cbn [BuildPruneTree fold_left boolOp bools conditions BoolExprType_eqb negb];
  rewrite V1; cbn [BuildPruneTree fold_left boolOp bools conditions];
  rewrite V2; reflexivity.
Qed.

Lemma FoldBranch_two_equalities cat column opno c1 c2 compareValue r :
  get_op_btree_interpretation cat opno = [BTEqualStrategyNumber] ->
  compareValue (constvalue c2) (constvalue c1) = Some r ->
  FoldBranch cat column compareValue
    [mkConditionWrapper [keyRestriction column opno c1; keyRestriction column opno c2]]
  = Ok (mkPruningInstance true (negb (r =? 0)) None None (Some c1) None None [] None []
                          true false).
Proof.
  intros H Hc. unfold FoldBranch, branchConstraints, keyRestriction. simpl.
  rewrite Var_eqb_refl. unfold AddPartitionKeyRestrictionToInstance. rewrite H. simpl.
  unfold PerformValueCompare. rewrite Hc. simpl. destruct (r =? 0); reflexivity.
Qed.

(** C5. A conjunction that equates the partition column to two constants
    the column comparator tells apart, written as two conjuncts of the list
    or as one AND expression, is folded into a single instance marked
    [evaluatesToFalse], and [PruneShards] returns the empty list, with no
    error, for every partitioned table that has its comparators. *)
Theorem equality_conflict_yields_empty cat cacheEntry opno c1 c2
        compareInterval compareValue wantsPartitionValue r :
  get_op_btree_interpretation cat opno = [BTEqualStrategyNumber] ->
  partitionMethod cacheEntry <> DISTRIBUTE_BY_NONE ->
  shardIntervalCompareFunction cacheEntry = Some compareInterval ->
  shardColumnCompareFunction cacheEntry = Some compareValue ->
  compareValue (constvalue c2) (constvalue c1) = Some r ->
  r <> 0 ->
  Forall (fun whereClauseList =>
     (exists prune,
         PrunableExpressionsWalker2 cat (partitionColumn cacheEntry) compareValue
           (NormalizedPruneTree cat (partitionColumn cacheEntry) whereClauseList)
         = Ok [prune]
         /\ evaluatesToFalse prune = true)
     /\ exists written,
         PruneShards cat cacheEntry whereClauseList wantsPartitionValue = Ok ([], written))
    [ [keyRestriction (partitionColumn cacheEntry) opno c1;
       keyRestriction (partitionColumn cacheEntry) opno c2];
      [T_BoolExpr AND_EXPR [keyRestriction (partitionColumn cacheEntry) opno c1;
                            keyRestriction (partitionColumn cacheEntry) opno c2]] ].
Proof.
  intros Hop Hmethod Hci Hcv Hcmp Hr.
  pose proof (NormalizedPruneTree_two_equalities cat (partitionColumn cacheEntry) opno c1 c2 Hop)
    as Htree.
  pose proof (FoldBranch_two_equalities cat (partitionColumn cacheEntry) opno c1 c2
                compareValue r Hop Hcmp) as Hfold.
  assert (Hne : negb (r =? 0) = true) by (apply negb_true_iff, Z.eqb_neq; exact Hr).
  rewrite Hne in Hfold.
  eapply Forall_impl; [|exact Htree].
  intros whereClauseList [Hnorm Hfalse].
  assert (Hwalk : PrunableExpressionsWalker2 cat (partitionColumn cacheEntry) compareValue
           (NormalizedPruneTree cat (partitionColumn cacheEntry) whereClauseList)
          = Ok [mkPruningInstance true true None None (Some c1) None None [] None []
                                  true false]).
  { rewrite Hnorm. cbn -[FoldBranch]. rewrite Hfold. reflexivity. }
  split.
  - eexists. split; [exact Hwalk | reflexivity].
  - destruct (Z.eq_dec (shardIntervalArrayLength cacheEntry) 0) as [Hzero|Hcount].
    + unfold PruneShards. rewrite Hzero. eexists. reflexivity.
    + rewrite (PruneShards_main_path cat cacheEntry whereClauseList wantsPartitionValue
                 compareInterval compareValue Hcount Hfalse Hmethod Hci Hcv).
      rewrite Hwalk. cbn.
      destruct (PartitionMethod_eqb (partitionMethod cacheEntry) DISTRIBUTE_BY_HASH),
               wantsPartitionValue; cbn; eexists; reflexivity.
Qed.

Lemma equality_conflict_yields_empty_witness :
  Forall (fun whereClauseList =>
     (exists prune,
         PrunableExpressionsWalker2 int4Catalog keyColumn btint4cmp
           (NormalizedPruneTree int4Catalog keyColumn whereClauseList) = Ok [prune]
         /\ evaluatesToFalse prune = true)
     /\ exists written,
         PruneShards int4Catalog rangeTable whereClauseList true = Ok ([], written))
    [ [compareColumn keyColumn Int4EqualOperator 5;
       compareColumn keyColumn Int4EqualOperator 7];
      [T_BoolExpr AND_EXPR [compareColumn keyColumn Int4EqualOperator 5;
                            compareColumn keyColumn Int4EqualOperator 7]] ].
Proof.
  apply (equality_conflict_yields_empty int4Catalog rangeTable Int4EqualOperator
           (int4Const 5) (int4Const 7) btint4cmp btint4cmp true 1).
  - reflexivity.
  - discriminate.
  - reflexivity.
  - reflexivity.
  - reflexivity.
  - lia.
Defined.

(** ** The single partition value *)

(** Off the hash method the main loop never touches
    [singlePartitionValueConst]. *)
Lemma PruneShards_loop_single_value cacheEntry context wantsPartitionValue :
  PartitionMethod_eqb (ctxPartitionMethod context) DISTRIBUTE_BY_HASH = false ->
  forall pruningInstances st st',
    PruneShards_loop cacheEntry context wantsPartitionValue pruningInstances st = Ok st' ->
    singlePartitionValueConst st' = singlePartitionValueConst st.
Proof.
  intros Hmethod. induction pruningInstances as [|prune rest IH]; intros st st' Hloop.
  - simpl in Hloop. inversion Hloop. reflexivity.
  - simpl in Hloop. rewrite Hmethod in Hloop. simpl in Hloop.
    destruct (isPartial prune); [exact (IH _ _ Hloop)|].
    destruct (hasValidConstraint prune); simpl in Hloop.
    + destruct (PruneOne cacheEntry context prune) as [pruneOneList|e];
        simpl in Hloop; [|discriminate].
      apply IH in Hloop. exact Hloop.
    + inversion Hloop. reflexivity.
Qed.

Lemma PruneShards_early_return cat cacheEntry whereClauseList wantsPartitionValue
      shards written :
  shardIntervalArrayLength cacheEntry = 0
  \/ ContainsFalseClause whereClauseList = true
  \/ partitionMethod cacheEntry = DISTRIBUTE_BY_NONE ->
  PruneShards cat cacheEntry whereClauseList wantsPartitionValue = Ok (shards, written) ->
  written = NotWritten.
Proof.
  intros Hearly Hprune. unfold PruneShards in Hprune.
  destruct (shardIntervalArrayLength cacheEntry =? 0) eqn:Hcount;
    [inversion Hprune; reflexivity|].
  destruct (ContainsFalseClause whereClauseList); [inversion Hprune; reflexivity|].
  destruct Hearly as [Hzero | [Hfalse | Hnone]].
  - apply Z.eqb_neq in Hcount. contradiction.
  - discriminate.
  - rewrite Hnone in Hprune. inversion Hprune. reflexivity.
Qed.

Lemma PruneShards_range_append_written cat cacheEntry whereClauseList wantsPartitionValue
      shards written :
  partitionMethod cacheEntry = DISTRIBUTE_BY_RANGE
  \/ partitionMethod cacheEntry = DISTRIBUTE_BY_APPEND ->
  shardIntervalArrayLength cacheEntry <> 0 ->
  ContainsFalseClause whereClauseList = false ->
  PruneShards cat cacheEntry whereClauseList wantsPartitionValue = Ok (shards, written) ->
  written = if wantsPartitionValue then WrittenNull else NotWritten.
Proof.
  intros Hmethod Hcount Hfalse Hprune.
  destruct (shardIntervalCompareFunction cacheEntry) as [compareInterval|] eqn:Hci.
  2: { unfold PruneShards in Hprune. apply Z.eqb_neq in Hcount.
       rewrite Hcount, Hfalse, Hci in Hprune.
       destruct Hmethod as [Hm | Hm]; rewrite Hm in Hprune; discriminate. }
  destruct (shardColumnCompareFunction cacheEntry) as [compareValue|] eqn:Hcv.
  2: { unfold PruneShards in Hprune. apply Z.eqb_neq in Hcount.
       rewrite Hcount, Hfalse, Hci, Hcv in Hprune.
       destruct Hmethod as [Hm | Hm]; rewrite Hm in Hprune; discriminate. }
  rewrite (PruneShards_main_path cat cacheEntry whereClauseList wantsPartitionValue
             compareInterval compareValue Hcount Hfalse) in Hprune;
    [| destruct Hmethod as [Hm | Hm]; rewrite Hm; discriminate | exact Hci | exact Hcv].
  destruct (PrunableExpressionsWalker2 cat (partitionColumn cacheEntry) compareValue
              (NormalizedPruneTree cat (partitionColumn cacheEntry) whereClauseList))
    as [pruningInstances|e]; simpl in Hprune; [|discriminate].
  match type of Hprune with
  | context [PruneShards_loop ?ce ?ctx ?w ?l ?s] =>
      destruct (PruneShards_loop ce ctx w l s) as [st|e] eqn:Hloop
  end; simpl in Hprune; [|discriminate].
  apply PruneShards_loop_single_value in Hloop.
  2: { simpl. destruct Hmethod as [Hm | Hm]; rewrite Hm; reflexivity. }
  unfold PruneShards_finish in Hprune. rewrite Hloop in Hprune. simpl in Hprune.
  inversion Hprune. reflexivity.
Qed.

(** C10. [PruneShards] writes a constant through [partitionValueConst] only
    for a hash-partitioned table.  For a range- or append-partitioned table
    a call that gets past the early returns (there are shards, no false
    clause) and was asked for the value writes NULL, whatever the where
    clause pins the column to. *)
Theorem partition_value_only_for_hash cat cacheEntry whereClauseList wantsPartitionValue
        shards written :
  PruneShards cat cacheEntry whereClauseList wantsPartitionValue = Ok (shards, written) ->
  (forall c, written = WrittenConst c -> partitionMethod cacheEntry = DISTRIBUTE_BY_HASH)
  /\ (partitionMethod cacheEntry = DISTRIBUTE_BY_RANGE
      \/ partitionMethod cacheEntry = DISTRIBUTE_BY_APPEND ->
      wantsPartitionValue = true ->
      shardIntervalArrayLength cacheEntry <> 0 ->
      ContainsFalseClause whereClauseList = false ->
      written = WrittenNull).
Proof.
  intros Hprune. split.
  - intros c Hwritten.
    destruct (Z.eq_dec (shardIntervalArrayLength cacheEntry) 0) as [Hzero|Hcount].
    { rewrite (PruneShards_early_return _ _ _ _ _ _ (or_introl Hzero) Hprune) in Hwritten.
      discriminate. }
    destruct (ContainsFalseClause whereClauseList) eqn:Hfalse.
    { rewrite (PruneShards_early_return _ _ _ _ _ _ (or_intror (or_introl Hfalse)) Hprune)
        in Hwritten.
      discriminate. }
    destruct (partitionMethod cacheEntry) eqn:Hmethod.
    + reflexivity.
    + rewrite (PruneShards_range_append_written _ _ _ _ _ _ (or_introl Hmethod)
                 Hcount Hfalse Hprune) in Hwritten.
      destruct wantsPartitionValue; discriminate.
    + rewrite (PruneShards_range_append_written _ _ _ _ _ _ (or_intror Hmethod)
                 Hcount Hfalse Hprune) in Hwritten.
      destruct wantsPartitionValue; discriminate.
    + rewrite (PruneShards_early_return _ _ _ _ _ _
                 (or_intror (or_intror Hmethod)) Hprune) in Hwritten.
      discriminate.
  - intros Hmethod Hwants Hcount Hfalse.
    rewrite (PruneShards_range_append_written _ _ _ _ _ _ Hmethod Hcount Hfalse Hprune).
    rewrite Hwants. reflexivity.
Qed.

(** On the range table [col = 1000] pins the column to one constant and
    selects one shard; NULL is written all the same. *)
Lemma partition_value_only_for_hash_witness :
  PruneShards int4Catalog rangeTable [compareColumn keyColumn Int4EqualOperator 1000] true
  = Ok ([firstShard], WrittenNull)
  /\ (forall c, WrittenNull = WrittenConst c ->
                partitionMethod rangeTable = DISTRIBUTE_BY_HASH)
  /\ (partitionMethod rangeTable = DISTRIBUTE_BY_RANGE
      \/ partitionMethod rangeTable = DISTRIBUTE_BY_APPEND ->
      true = true ->
      shardIntervalArrayLength rangeTable <> 0 ->
      ContainsFalseClause [compareColumn keyColumn Int4EqualOperator 1000] = false ->
      WrittenNull = WrittenNull).
Proof.
  split; [reflexivity|].
  apply (partition_value_only_for_hash int4Catalog rangeTable
           [compareColumn keyColumn Int4EqualOperator 1000] true [firstShard] WrittenNull).
  reflexivity.
Defined.

(** The hash-partitioned table does report the constant. *)
Lemma partition_value_reported_for_hash :
  PruneShards int4Catalog hashTable [compareColumn keyColumn Int4EqualOperator 5] true
  = Ok ([upperHashShard], WrittenConst (int4Const 5)).
Proof. reflexivity. Qed.

(** ** Unconstrained branches *)

Lemma map_nth_seq_from {A} (d : A) (l before : list A) :
  map (fun k => nth k (before ++ l) d) (seq (length before) (length l)) = l.
Proof.
  revert before. induction l as [|x l IH]; intros before; simpl.
  - reflexivity.
  - f_equal.
    + rewrite app_nth2, Nat.sub_diag by lia. reflexivity.
    + specialize (IH (before ++ [x])).
      rewrite <- app_assoc, length_app, Nat.add_1_r in IH. exact IH.
Qed.

(** The list of all shards, copied, is the sorted array. *)
Lemma DeepCopy_all_shards cacheEntry :
  DeepCopyShardIntervalList cacheEntry
    (ShardArrayToList (sortedShardIntervalArray cacheEntry)
                      (shardIntervalArrayLength cacheEntry))
  = sortedShardIntervalArray cacheEntry.
Proof.
  unfold DeepCopyShardIntervalList, ShardArrayToList, indexRange, shardIntervalArrayLength.
  rewrite map_map.
  replace (Z.to_nat (Z.of_nat (length (sortedShardIntervalArray cacheEntry)) - 1 - 0 + 1))
    with (length (sortedShardIntervalArray cacheEntry)) by lia.
  etransitivity;
    [| exact (map_nth_seq_from dummyShardInterval (sortedShardIntervalArray cacheEntry) [])].
  apply map_ext. intros k. unfold shardAt. simpl. rewrite Nat2Z.id. reflexivity.
Qed.

(** The loop stops at the first instance that is not partial and has no
    valid constraint: what follows it in the list plays no part. *)
Lemma PruneShards_loop_stops cacheEntry context wantsPartitionValue unconstrained after :
  isPartial unconstrained = false ->
  hasValidConstraint unconstrained = false ->
  forall before st,
    PruneShards_loop cacheEntry context wantsPartitionValue
                     (before ++ unconstrained :: after) st
    = PruneShards_loop cacheEntry context wantsPartitionValue
                       (before ++ [unconstrained]) st.
Proof.
  intros Hpartial Hvalid. induction before as [|prune before IH]; intros st; simpl.
  - rewrite Hpartial, Hvalid. reflexivity.
  - destruct (isPartial prune); [apply IH|].
    destruct (negb (hasValidConstraint prune)); [reflexivity|].
    destruct (PartitionMethod_eqb (ctxPartitionMethod context) DISTRIBUTE_BY_HASH
              && hasNoEqualityConstraint prune); [reflexivity|].
    destruct (PruneOne cacheEntry context prune); simpl; [apply IH | reflexivity].
Qed.

Lemma PruneShards_loop_unconstrained cacheEntry context wantsPartitionValue unconstrained :
  isPartial unconstrained = false ->
  hasValidConstraint unconstrained = false ->
  forall before st,
    Forall (fun prune => exists shards, PruneOne cacheEntry context prune = Ok shards)
           before ->
    exists st',
      PruneShards_loop cacheEntry context wantsPartitionValue
                       (before ++ [unconstrained]) st = Ok st'
      /\ foundRestriction st' = false.
Proof.
  intros Hpartial Hvalid. induction before as [|prune before IH]; intros st Hbefore; simpl.
  - rewrite Hpartial, Hvalid. simpl. eexists. split; reflexivity.
  - inversion Hbefore as [|? ? [shards Hone] Hrest]; subst.
    destruct (isPartial prune); [apply IH; exact Hrest|].
    destruct (negb (hasValidConstraint prune)); [eexists; split; reflexivity|].
    destruct (PartitionMethod_eqb (ctxPartitionMethod context) DISTRIBUTE_BY_HASH
              && hasNoEqualityConstraint prune); [eexists; split; reflexivity|].
    rewrite Hone. simpl. apply IH. exact Hrest.
Qed.

(** C7. Let the walk of the normalized tree yield the instances
    [before ++ unconstrained :: after], where [unconstrained] is not partial
    and has no valid constraint, and let the instances before it be pruned
    without error.  Then [PruneShards] returns the full shard list of the
    table; and the main loop on that list is the main loop on
    [before ++ [unconstrained]]: the instances after the unconstrained one
    are not evaluated (nothing is asked of them, not even that [PruneOne]
    succeeds on them). *)
Theorem unconstrained_branch_forces_all_shards cat cacheEntry whereClauseList
        wantsPartitionValue compareInterval compareValue before unconstrained after :
  shardIntervalArrayLength cacheEntry <> 0 ->
  ContainsFalseClause whereClauseList = false ->
  shardIntervalCompareFunction cacheEntry = Some compareInterval ->
  shardColumnCompareFunction cacheEntry = Some compareValue ->
  PrunableExpressionsWalker2 cat (partitionColumn cacheEntry) compareValue
    (NormalizedPruneTree cat (partitionColumn cacheEntry) whereClauseList)
  = Ok (before ++ unconstrained :: after) ->
  isPartial unconstrained = false ->
  hasValidConstraint unconstrained = false ->
  Forall (fun prune =>
            exists shards,
              PruneOne cacheEntry
                (mkContext (partitionColumn cacheEntry) (partitionMethod cacheEntry)
                           compareValue compareInterval) prune = Ok shards)
         before ->
  (exists written,
      PruneShards cat cacheEntry whereClauseList wantsPartitionValue
      = Ok (sortedShardIntervalArray cacheEntry, written))
  /\ (forall st,
         PruneShards_loop cacheEntry
           (mkContext (partitionColumn cacheEntry) (partitionMethod cacheEntry)
                      compareValue compareInterval)
           wantsPartitionValue (before ++ unconstrained :: after) st
         = PruneShards_loop cacheEntry
             (mkContext (partitionColumn cacheEntry) (partitionMethod cacheEntry)
                        compareValue compareInterval)
             wantsPartitionValue (before ++ [unconstrained]) st).
Proof.
  intros Hcount Hfalse Hci Hcv Hwalk Hpartial Hvalid Hbefore.
  split; [|intros st; apply PruneShards_loop_stops; assumption].
  destruct (PartitionMethod_eqb (partitionMethod cacheEntry) DISTRIBUTE_BY_NONE) eqn:Hnone.
  - unfold PruneShards. apply Z.eqb_neq in Hcount. rewrite Hcount, Hfalse.
    destruct (partitionMethod cacheEntry); try discriminate.
    rewrite DeepCopy_all_shards. eexists. reflexivity.
  - rewrite (PruneShards_main_path cat cacheEntry whereClauseList wantsPartitionValue
               compareInterval compareValue Hcount Hfalse);
      [| intros Hm; rewrite Hm in Hnone; discriminate | exact Hci | exact Hcv].
    rewrite Hwalk. cbn [bind].
    rewrite PruneShards_loop_stops by assumption.
    destruct (PruneShards_loop_unconstrained cacheEntry
                (mkContext (partitionColumn cacheEntry) (partitionMethod cacheEntry)
                           compareValue compareInterval)
                wantsPartitionValue unconstrained Hpartial Hvalid before
                initialPruneState Hbefore) as [st' [Hloop Hfound]].
    rewrite Hloop. cbn [bind]. unfold PruneShards_finish. rewrite Hfound.
    cbn [negb]. rewrite DeepCopy_all_shards. eexists. reflexivity.
Qed.

(** [col = 5 OR other = 5 OR col = 1007]: the second arm says nothing of
    the partition column, and the third is never pruned. *)
Lemma unconstrained_branch_forces_all_shards_witness :
  exists written,
    PruneShards int4Catalog rangeTable
      [T_BoolExpr OR_EXPR [compareColumn keyColumn Int4EqualOperator 5;
                           compareColumn otherColumn Int4EqualOperator 5;
                           compareColumn keyColumn Int4EqualOperator 1007]] true
    = Ok ([firstShard; secondShard], written).
Proof.
  refine (proj1 (unconstrained_branch_forces_all_shards int4Catalog rangeTable
           [T_BoolExpr OR_EXPR [compareColumn keyColumn Int4EqualOperator 5;
                                compareColumn otherColumn Int4EqualOperator 5;
                                compareColumn keyColumn Int4EqualOperator 1007]]
           true btint4cmp btint4cmp
           [mkPruningInstance true false None None (Some (int4Const 5)) None None [] None []
                              true false]
           unconstrainedInstance
           [mkPruningInstance true false None None (Some (int4Const 1007)) None None [] None []
                              true false]
           _ _ _ _ _ _ _ _)).
  - discriminate.
  - reflexivity.
  - reflexivity.
  - reflexivity.
  - reflexivity.
  - reflexivity.
  - reflexivity.
  - constructor; [|constructor]. exists [0]. reflexivity.
Defined.

(** With a comparator that fails on 1007 the arm [col = 1007] cannot be
    pruned; behind the unconstrained arm it is not looked at, before it the
    call fails. *)
Lemma later_branches_not_evaluated :
  PruneShards int4Catalog touchyTable
    [T_BoolExpr OR_EXPR [compareColumn keyColumn Int4EqualOperator 5;
                         compareColumn otherColumn Int4EqualOperator 5;
                         compareColumn keyColumn Int4EqualOperator 1007]] false
  = Ok ([firstShard; secondShard], NotWritten)
  /\ PruneShards int4Catalog touchyTable
       [T_BoolExpr OR_EXPR [compareColumn keyColumn Int4EqualOperator 1007;
                            compareColumn otherColumn Int4EqualOperator 5]] false
     = Error FunctionReturnedNull.
Proof. split; reflexivity. Qed.

(** ** OR of two equalities *)

Lemma list_member_ptr_In (lst : list Z) (datum : Z) :
  list_member_ptr lst datum = true <-> In datum lst.
Proof.
  unfold list_member_ptr. rewrite existsb_exists. split.
  - intros [x [Hin Heq]]. apply Z.eqb_eq in Heq. subst. exact Hin.
  - intros Hin. exists datum. split; [exact Hin | apply Z.eqb_refl].
Qed.

Lemma list_append_unique_ptr_In (lst : list Z) (datum x : Z) :
  In x (list_append_unique_ptr lst datum) <-> In x lst \/ x = datum.
Proof.
  unfold list_append_unique_ptr.
  destruct (list_member_ptr lst datum) eqn:E.
  - apply list_member_ptr_In in E. split; [auto|]. intros [H | ->]; assumption.
  - rewrite in_app_iff. simpl. intuition.
Qed.

Lemma list_union_ptr_In (list2 list1 : list Z) (x : Z) :
  In x (list_union_ptr list1 list2) <-> In x list1 \/ In x list2.
Proof.
  unfold list_union_ptr. revert list1.
  induction list2 as [|y list2 IH]; intros list1; simpl.
  - intuition.
  - rewrite IH, list_append_unique_ptr_In. intuition.
Qed.

Lemma NormalizedPruneTree_equality cat column opno c :
  get_op_btree_interpretation cat opno = [BTEqualStrategyNumber] ->
  NormalizedPruneTree cat column [keyRestriction column opno c]
  = mkPruneNode OR_EXPR
      [mkPruneNode AND_EXPR [] [mkConditionWrapper [keyRestriction column opno c]]] [].
Proof.
  intros H. pose proof (IsValidConditionNode_equality cat column opno c H) as V.
  unfold keyRestriction in *. unfold NormalizedPruneTree.
  cbn [BuildPruneTree fold_left boolOp bools conditions]. rewrite V. reflexivity.
Qed.

Lemma NormalizedPruneTree_OR_equalities cat column opno c1 c2 :
  get_op_btree_interpretation cat opno = [BTEqualStrategyNumber] ->
  NormalizedPruneTree cat column
    [T_BoolExpr OR_EXPR [keyRestriction column opno c1; keyRestriction column opno c2]]
  = mkPruneNode OR_EXPR
      [mkPruneNode AND_EXPR [] [mkConditionWrapper [keyRestriction column opno c1]];
       mkPruneNode AND_EXPR [] [mkConditionWrapper [keyRestriction column opno c2]]] [].
Proof.
  intros H.
  pose proof (IsValidConditionNode_equality cat column opno c1 H) as V1.
  pose proof (IsValidConditionNode_equality cat column opno c2 H) as V2.
  unfold keyRestriction in *. unfold NormalizedPruneTree.
  cbn [BuildPruneTree fold_left boolOp bools conditions BoolExprType_eqb negb].
  rewrite V1. cbn [BuildPruneTree fold_left boolOp bools conditions].
  rewrite V2. reflexivity.
Qed.

Lemma FoldBranch_equality cat column opno c compareValue :
  get_op_btree_interpretation cat opno = [BTEqualStrategyNumber] ->
  FoldBranch cat column compareValue [mkConditionWrapper [keyRestriction column opno c]]
  = Ok (equalityInstance c).
Proof.
  intros H. unfold FoldBranch, branchConstraints, keyRestriction. simpl.
  rewrite Var_eqb_refl. unfold AddPartitionKeyRestrictionToInstance. rewrite H.
  reflexivity.
Qed.

Lemma prunedList_rememberPartitionValue value st :
  prunedList (rememberPartitionValue value st) = prunedList st.
Proof.
  unfold rememberPartitionValue.
  destruct (negb (foundPartitionColumnValue st)); [reflexivity|].
  destruct (singlePartitionValueConst st) as [single|]; [|reflexivity].
  destruct (negb (Const_eqb value single)); reflexivity.
Qed.

(** A turn of the main loop on the instance of one equality. *)
Lemma PruneShards_loop_equality cacheEntry context wantsPartitionValue c rest st :
  PruneShards_loop cacheEntry context wantsPartitionValue (equalityInstance c :: rest) st
  = (pruneOneList <- PruneOne cacheEntry context (equalityInstance c) ;;
     PruneShards_loop cacheEntry context wantsPartitionValue rest
       (mkPruneState
          (match prunedList st with
           | _ :: _ => list_union_ptr (prunedList st) pruneOneList
           | [] => pruneOneList
           end)
          true
          (foundPartitionColumnValue
             (if PartitionMethod_eqb (ctxPartitionMethod context) DISTRIBUTE_BY_HASH
                 && wantsPartitionValue
              then rememberPartitionValue c st else st))
          (singlePartitionValueConst
             (if PartitionMethod_eqb (ctxPartitionMethod context) DISTRIBUTE_BY_HASH
                 && wantsPartitionValue
              then rememberPartitionValue c st else st)))).
Proof.
  cbn -[PruneOne]. rewrite andb_false_r. cbn -[PruneOne].
  destruct (PartitionMethod_eqb (ctxPartitionMethod context) DISTRIBUTE_BY_HASH),
           wantsPartitionValue; cbn -[PruneOne];
    destruct (PruneOne cacheEntry context (equalityInstance c)); cbn -[PruneOne];
    rewrite ?prunedList_rememberPartitionValue; reflexivity.
Qed.

(** What [PruneShards] returns for the single condition [column = c], in
    terms of [PruneOne] on its instance. *)
Lemma PruneShards_equality cat cacheEntry opno c wantsPartitionValue
      compareInterval compareValue :
  get_op_btree_interpretation cat opno = [BTEqualStrategyNumber] ->
  shardIntervalArrayLength cacheEntry <> 0 ->
  partitionMethod cacheEntry <> DISTRIBUTE_BY_NONE ->
  shardIntervalCompareFunction cacheEntry = Some compareInterval ->
  shardColumnCompareFunction cacheEntry = Some compareValue ->
  exists written,
    PruneShards cat cacheEntry [keyRestriction (partitionColumn cacheEntry) opno c]
                wantsPartitionValue
    = (pruneOneList <-
         PruneOne cacheEntry
           (mkContext (partitionColumn cacheEntry) (partitionMethod cacheEntry)
                      compareValue compareInterval)
           (equalityInstance c) ;;
       Ok (DeepCopyShardIntervalList cacheEntry pruneOneList, written)).
Proof.
  intros Hop Hcount Hmethod Hci Hcv.
  rewrite (PruneShards_main_path cat cacheEntry
             [keyRestriction (partitionColumn cacheEntry) opno c] wantsPartitionValue
             compareInterval compareValue Hcount eq_refl Hmethod Hci Hcv).
  rewrite (NormalizedPruneTree_equality _ _ _ _ Hop).
  cbn -[FoldBranch PruneShards_loop PruneOne].
  rewrite (FoldBranch_equality _ _ _ _ _ Hop).
  cbn -[PruneShards_loop PruneOne]. rewrite PruneShards_loop_equality.
  destruct (PruneOne _ _ (equalityInstance c)) as [pruneOneList|e].
  - cbn [bind PruneShards_loop]. unfold PruneShards_finish.
    cbn [foundRestriction negb prunedList initialPruneState].
    eexists. reflexivity.
  - exists NotWritten. reflexivity.
Qed.

(** C4. For every table and every two constants: if pruning with
    [a = c1] alone and pruning with [a = c2] alone succeed, so does pruning
    with [a = c1 OR a = c2] on the partition column [a], and the shard ids
    it returns are the shard ids of the first result together with the
    shard ids of the second. *)
Theorem OR_of_equalities_is_union cat cacheEntry opno c1 c2
        wantsPartitionValue wantsPartitionValue1 wantsPartitionValue2
        shards1 written1 shards2 written2 :
  get_op_btree_interpretation cat opno = [BTEqualStrategyNumber] ->
  PruneShards cat cacheEntry [keyRestriction (partitionColumn cacheEntry) opno c1]
              wantsPartitionValue1 = Ok (shards1, written1) ->
  PruneShards cat cacheEntry [keyRestriction (partitionColumn cacheEntry) opno c2]
              wantsPartitionValue2 = Ok (shards2, written2) ->
  exists shards written,
    PruneShards cat cacheEntry
      [T_BoolExpr OR_EXPR [keyRestriction (partitionColumn cacheEntry) opno c1;
                           keyRestriction (partitionColumn cacheEntry) opno c2]]
      wantsPartitionValue = Ok (shards, written)
    /\ forall id, In id (map shardId shards)
                  <-> In id (map shardId shards1) \/ In id (map shardId shards2).
Proof.
  intros Hop Hone Htwo.
  destruct (Z.eq_dec (shardIntervalArrayLength cacheEntry) 0) as [Hzero|Hcount].
  { unfold PruneShards in *. rewrite Hzero in *. simpl in *.
    inversion Hone; inversion Htwo; subst.
    exists [], NotWritten. split; [reflexivity | simpl; tauto]. }
  destruct (PartitionMethod_eqb (partitionMethod cacheEntry) DISTRIBUTE_BY_NONE) eqn:Hnone.
  { unfold PruneShards in *. apply Z.eqb_neq in Hcount. rewrite Hcount in *.
    cbn [ContainsFalseClause keyRestriction] in *.
    destruct (partitionMethod cacheEntry); try discriminate.
    inversion Hone; inversion Htwo; subst.
    eexists _, _. split; [reflexivity | tauto]. }
  assert (Hmethod : partitionMethod cacheEntry <> DISTRIBUTE_BY_NONE)
    by (intros Hm; rewrite Hm in Hnone; discriminate).
  destruct (shardIntervalCompareFunction cacheEntry) as [compareInterval|] eqn:Hci.
  2: { unfold PruneShards in Hone. apply Z.eqb_neq in Hcount.
       rewrite Hcount, Hci in Hone. cbn [ContainsFalseClause keyRestriction] in Hone.
       destruct (partitionMethod cacheEntry); discriminate. }
  destruct (shardColumnCompareFunction cacheEntry) as [compareValue|] eqn:Hcv.
  2: { unfold PruneShards in Hone. apply Z.eqb_neq in Hcount.
       rewrite Hcount, Hci, Hcv in Hone. cbn [ContainsFalseClause keyRestriction] in Hone.
       destruct (partitionMethod cacheEntry); discriminate. }
  destruct (PruneShards_equality cat cacheEntry opno c1 wantsPartitionValue1
              compareInterval compareValue Hop Hcount Hmethod Hci Hcv) as [w1 E1].
  destruct (PruneShards_equality cat cacheEntry opno c2 wantsPartitionValue2
              compareInterval compareValue Hop Hcount Hmethod Hci Hcv) as [w2 E2].
  rewrite E1 in Hone. rewrite E2 in Htwo. clear E1 E2.
  set (context := mkContext (partitionColumn cacheEntry) (partitionMethod cacheEntry)
                            compareValue compareInterval) in *.
  destruct (PruneOne cacheEntry context (equalityInstance c1)) as [list1|] eqn:P1;
    [|discriminate].
  destruct (PruneOne cacheEntry context (equalityInstance c2)) as [list2|] eqn:P2;
    [|discriminate].
  cbn in Hone, Htwo. inversion Hone; inversion Htwo; subst; clear Hone Htwo.
  rewrite (PruneShards_main_path cat cacheEntry
             [T_BoolExpr OR_EXPR [keyRestriction (partitionColumn cacheEntry) opno c1;
                                  keyRestriction (partitionColumn cacheEntry) opno c2]]
             wantsPartitionValue
             compareInterval compareValue Hcount eq_refl Hmethod Hci Hcv).
  rewrite (NormalizedPruneTree_OR_equalities _ _ _ _ _ Hop).
  cbn -[FoldBranch PruneShards_loop PruneOne].
  rewrite !(FoldBranch_equality _ _ _ _ _ Hop).
  cbn -[PruneShards_loop PruneOne].
  fold context. rewrite !PruneShards_loop_equality, P1. cbn [bind].
  rewrite PruneShards_loop_equality, P2. cbn [bind PruneShards_loop].
  unfold PruneShards_finish. cbn [foundRestriction negb prunedList initialPruneState].
  eexists _, _. split; [reflexivity|].
  intros id. unfold DeepCopyShardIntervalList. rewrite !map_map, !in_map_iff.
  destruct list1 as [|first list1].
  - split.
    + intros [x [Hid Hin]]. right. exists x. split; assumption.
    + intros [[x [_ []]] | H]; exact H.
  - split.
    + intros [x [Hid Hin]]. apply list_union_ptr_In in Hin.
      destruct Hin as [Hin | Hin]; [left | right]; exists x; split; assumption.
    + intros [[x [Hid Hin]] | [x [Hid Hin]]]; exists x; split; try assumption;
        apply list_union_ptr_In; [left | right]; assumption.
Qed.

(** On the range table: [col = 5 OR col = 1007] selects both shards, one for
    each arm. *)
Lemma OR_of_equalities_is_union_witness :
  exists shards written,
    PruneShards int4Catalog rangeTable
      [T_BoolExpr OR_EXPR [compareColumn keyColumn Int4EqualOperator 5;
                           compareColumn keyColumn Int4EqualOperator 1007]] true
    = Ok (shards, written)
    /\ forall id, In id (map shardId shards)
                  <-> In id (map shardId [firstShard]) \/ In id (map shardId [secondShard]).
Proof.
  apply (OR_of_equalities_is_union int4Catalog rangeTable Int4EqualOperator
           (int4Const 5) (int4Const 1007) true true true
           [firstShard] WrittenNull [secondShard] WrittenNull).
  - reflexivity.
  - reflexivity.
  - reflexivity.
Defined.

(** ** The fold of a branch as a sequence of updates *)

Section FoldAsUpdates.

Variable cat : Catalog.
Variable partitionColumn : Var.
Variable compareValue : CompareFunction.
Variable compareValues : Datum -> Datum -> Z.
Hypothesis compareValue_answers : forall a b, compareValue a b = Some (compareValues a b).

Lemma AddPartitionKeyRestriction_case_update constantClause strategy prune matchedOp :
  AddPartitionKeyRestriction_case compareValue constantClause strategy prune matchedOp
  = Ok (applyKeyBound compareValues strategy constantClause prune,
        matchedOpAfter [strategy] matchedOp).
Proof.
  unfold AddPartitionKeyRestriction_case, applyKeyBound, PerformValueCompare.
  destruct strategy; simpl;
    try (match goal with
         | |- context [match ?field prune with _ => _ end] => destruct (field prune)
         end; simpl; rewrite ?compareValue_answers; simpl;
         try match goal with |- context [if ?b then _ else _] => destruct b end;
         reflexivity).
  reflexivity.
Qed.

Lemma AddPartitionKeyRestriction_loop_updates constantClause :
  forall interpretations prune matchedOp,
    AddPartitionKeyRestriction_loop compareValue constantClause interpretations
                                    prune matchedOp
    = Ok (applyUpdates compareValues
            (map (fun strategy => KeyBound strategy constantClause) interpretations)
            prune,
          matchedOpAfter interpretations matchedOp).
Proof.
  induction interpretations as [|strategy rest IH]; intros prune matchedOp; simpl.
  - reflexivity.
  - rewrite AddPartitionKeyRestriction_case_update. simpl. rewrite IH.
    destruct strategy; reflexivity.
Qed.

Lemma AddHashRestriction_loop_updates constantClause :
  forall interpretations prune,
    AddHashRestriction_loop constantClause interpretations prune
    = applyUpdates compareValues
        (flat_map (fun strategy =>
                     match strategy with
                     | BTGreaterEqualStrategyNumber => [HashedValue constantClause]
                     | _ => []
                     end) interpretations)
        prune.
Proof.
  induction interpretations as [|strategy rest IH]; intros prune; simpl.
  - reflexivity.
  - destruct strategy; simpl; apply IH.
Qed.

Lemma AddSAO_elements_updates elementType :
  forall elements prune,
    AddSAO_elements elementType elements prune
    = applyUpdates compareValues
        (map (fun element : Datum * bool =>
                MembershipValue (mkConst elementType (fst element) (snd element)))
             elements)
        prune.
Proof.
  induction elements as [|[arrayElement isNull] rest IH]; intros prune; simpl.
  - reflexivity.
  - apply IH.
Qed.

Lemma applyUpdates_app updates1 updates2 prune :
  applyUpdates compareValues (updates1 ++ updates2) prune
  = applyUpdates compareValues updates2 (applyUpdates compareValues updates1 prune).
Proof. apply fold_left_app. Qed.

(** [HandleConditionNode] makes the updates of [updatesOf]. *)
Lemma HandleConditionNode_updates node prune :
  HandleConditionNode cat partitionColumn compareValue node prune
  = Ok (applyUpdates compareValues (updatesOf cat partitionColumn node) prune).
Proof.
  destruct node as [v | c | opno args | opno useOr leftarg rightarg | boolop args
                    | arg format | arg test | elements]; try reflexivity.
  - (* T_OpExpr *)
    unfold HandleConditionNode, updatesOf.
    destruct (constAndVarOperands args) as [[constantClause varClause]|]; [|reflexivity].
    destruct (Var_eqb varClause partitionColumn).
    + unfold AddPartitionKeyRestrictionToInstance.
      rewrite AddPartitionKeyRestriction_loop_updates. cbn [bind fst snd].
      change (applyUpdates compareValues (MarkAdded :: ?l) prune)
        with (applyUpdates compareValues l (set_addedToPruningInstances true prune)).
      rewrite applyUpdates_app.
      destruct (matchedOpAfter (get_op_btree_interpretation cat opno) false); reflexivity.
    + destruct (varattno varClause =? RESERVED_HASHED_COLUMN_ID); [|reflexivity].
      unfold AddHashRestrictionToInstance. rewrite AddHashRestriction_loop_updates.
      reflexivity.
  - (* T_ScalarArrayOpExpr *)
    unfold HandleConditionNode, updatesOf, AddSAOPartitionKeyRestrictionToInstance2.
    destruct rightarg as [| arrayConst | | | | | |]; try reflexivity.
    destruct (OperatorImplementsEquality cat opno
              && equalsVar (strip_implicit_coercions leftarg) partitionColumn);
      [|reflexivity].
    destruct (constvalue arrayConst =? 0); [reflexivity|].
    rewrite AddSAO_elements_updates. reflexivity.
Qed.

Lemma HandleConditionNodes_updates :
  forall nodes prune,
    HandleConditionNodes cat partitionColumn compareValue nodes prune
    = Ok (applyUpdates compareValues (branchUpdates cat partitionColumn nodes) prune).
Proof.
  induction nodes as [|node rest IH]; intros prune; simpl.
  - reflexivity.
  - rewrite HandleConditionNode_updates. cbn [bind]. rewrite IH.
    unfold branchUpdates. simpl. rewrite applyUpdates_app. reflexivity.
Qed.

End FoldAsUpdates.

(** ** Instances that hold the same constraints *)

Lemma sameConstraints_refl p : sameConstraints p p.
Proof. unfold sameConstraints. repeat split; auto. Qed.
















Section OrderOfTheFold.

Variable rank : Datum -> Z.
Variable compareValues : Datum -> Datum -> Z.
Hypothesis compareValues_order : ordersBy rank compareValues.










End OrderOfTheFold.



(** ** Pruning with instances that hold the same constraints *)

Section SameConstraintsSameShards.

Variable cacheEntry : DistTableCacheEntry.
Variable context : ClauseWalkerContext.
Variable compareIntervals : Datum -> Datum -> Z.
Hypothesis compareInterval_answers :
  forall a b, compareIntervalFunctionCall context a b = Some (compareIntervals a b).

Lemma PerformValueCompare_answers a b :
  PerformValueCompare (compareIntervalFunctionCall context) a b
  = Ok (compareIntervals a b).
Proof. unfold PerformValueCompare. rewrite compareInterval_answers. reflexivity. Qed.

Lemma LowerShardBoundary_loop_total value cache includeMax :
  forall fuel lowerBoundIndex upperBoundIndex,
  exists outcome,
    LowerShardBoundary_loop fuel (compareIntervalFunctionCall context) value cache
                            includeMax lowerBoundIndex upperBoundIndex = Ok outcome.
Proof.
  induction fuel as [|fuel IH]; intros lo hi; simpl.
  - destruct (lo <? hi); eexists; reflexivity.
  - destruct (lo <? hi); [|eexists; reflexivity].
    rewrite !PerformValueCompare_answers. cbn [bind].
    destruct (_ <? 0); [apply IH|].
    destruct (_ || _); [apply IH | eexists; reflexivity].
Qed.

Lemma UpperShardBoundary_loop_total value cache includeMin :
  forall fuel lowerBoundIndex upperBoundIndex,
  exists outcome,
    UpperShardBoundary_loop fuel (compareIntervalFunctionCall context) value cache
                            includeMin lowerBoundIndex upperBoundIndex = Ok outcome.
Proof.
  induction fuel as [|fuel IH]; intros lo hi; simpl.
  - destruct (lo <? hi); eexists; reflexivity.
  - destruct (lo <? hi); [|eexists; reflexivity].
    rewrite !PerformValueCompare_answers. cbn [bind].
    destruct (_ || _); [apply IH|].
    destruct (_ >? 0); [apply IH | eexists; reflexivity].
Qed.

Lemma LowerShardBoundary_total value cache shardCount includeMax :
  exists index,
    LowerShardBoundary value cache shardCount (compareIntervalFunctionCall context)
                       includeMax = Ok index.
Proof.
  unfold LowerShardBoundary.
  destruct (LowerShardBoundary_loop_total value cache includeMax
              (Z.to_nat shardCount) 0 shardCount) as [outcome ->].
  cbn [bind]. destruct outcome as [middle | lo hi]; [eexists; reflexivity|].
  destruct (lo =? 0); [eexists; reflexivity|].
  destruct (lo =? shardCount); eexists; reflexivity.
Qed.

Lemma UpperShardBoundary_total value cache shardCount includeMin :
  exists index,
    UpperShardBoundary value cache shardCount (compareIntervalFunctionCall context)
                       includeMin = Ok index.
Proof.
  unfold UpperShardBoundary.
  destruct (UpperShardBoundary_loop_total value cache includeMin
              (Z.to_nat shardCount) 0 shardCount) as [outcome ->].
  cbn [bind]. destruct outcome as [middle | lo hi]; [eexists; reflexivity|].
  destruct (hi =? shardCount); [eexists; reflexivity|].
  destruct (hi =? 0); eexists; reflexivity.
Qed.

Lemma FindShardIntervalIndex_total value :
  exists index,
    FindShardIntervalIndex value cacheEntry (compareIntervalFunctionCall context)
    = Ok index.
Proof.
  unfold FindShardIntervalIndex.
  destruct (LowerShardBoundary_loop_total value (sortedShardIntervalArray cacheEntry) true
              (length (sortedShardIntervalArray cacheEntry)) 0
              (shardIntervalArrayLength cacheEntry)) as [outcome ->].
  cbn [bind]. destruct outcome; eexists; reflexivity.
Qed.

Lemma FindShardInterval_total value :
  exists found,
    FindShardInterval value cacheEntry (compareIntervalFunctionCall context) = Ok found.
Proof.
  unfold FindShardInterval.
  destruct (FindShardIntervalIndex_total
              match partitionMethod cacheEntry with
              | DISTRIBUTE_BY_HASH => hashFunction cacheEntry value
              | _ => value
              end) as [index ->].
  cbn [bind]. destruct (index =? INVALID_SHARD_INDEX); eexists; reflexivity.
Qed.

Lemma valueOutsideInterval_total value shard :
  exists outside,
    valueOutsideInterval (compareIntervalFunctionCall context) value shard = Ok outside.
Proof.
  unfold valueOutsideInterval. rewrite !PerformValueCompare_answers. cbn [bind].
  destruct (_ <? 0); [eexists; reflexivity|].
  destruct (_ >? 0); eexists; reflexivity.
Qed.

(** The loop over the membership values asks whether some value lies
    outside the interval. *)
Lemma anyValueOutsideInterval_spec shard :
  forall consts,
  exists outside,
    anyValueOutsideInterval (compareIntervalFunctionCall context) consts shard
    = Ok outside
    /\ (outside = true
        <-> exists value,
              In value (map constvalue consts)
              /\ valueOutsideInterval (compareIntervalFunctionCall context) value shard
                 = Ok true).
Proof.
  induction consts as [|c rest [outside [Hrest Hiff]]]; simpl.
  - exists false. split; [reflexivity|]. split; [discriminate | intros [v [[] _]]].
  - destruct (valueOutsideInterval_total (constvalue c) shard) as [[|] Hc];
      rewrite Hc; cbn [bind].
    + exists true. split; [reflexivity|]. split; [|reflexivity].
      intros _. exists (constvalue c). split; [left; reflexivity | exact Hc].
    + exists outside. split; [exact Hrest|]. rewrite Hiff. split.
      * intros [v [Hin Hv]]. exists v. split; [right; exact Hin | exact Hv].
      * intros [v [[Heq | Hin] Hv]].
        -- subst v. rewrite Hc in Hv. discriminate.
        -- exists v. split; assumption.
Qed.

Lemma anyValueOutsideInterval_same shard consts consts' :
  Permutation (map constvalue consts) (map constvalue consts') ->
  exists outside,
    anyValueOutsideInterval (compareIntervalFunctionCall context) consts shard
    = Ok outside
    /\ anyValueOutsideInterval (compareIntervalFunctionCall context) consts' shard
       = Ok outside.
Proof.
  intros Hperm.
  destruct (anyValueOutsideInterval_spec shard consts) as [b [Hb Hiff]].
  destruct (anyValueOutsideInterval_spec shard consts') as [b' [Hb' Hiff']].
  exists b. split; [exact Hb|]. rewrite Hb'. f_equal.
  destruct b, b'; try reflexivity.
  - destruct (proj1 Hiff eq_refl) as [v [Hin Hv]].
    apply Hiff'. exists v. split; [|exact Hv].
    eapply Permutation_in; eassumption.
  - destruct (proj1 Hiff' eq_refl) as [v [Hin Hv]].
    symmetry. apply Hiff. exists v. split; [|exact Hv].
    eapply Permutation_in; [apply Permutation_sym|]; eassumption.
Qed.

Ltac same_field Hvalue :=
  match type of Hvalue with
  | valueOf ?o = valueOf ?o' =>
      destruct o, o'; simpl in Hvalue; try discriminate;
      [injection Hvalue as Hvalue; rewrite ?Hvalue | ]
  end.

Ltac split_ifs :=
  repeat match goal with
         | |- context [if ?b then _ else _] => destruct b
         end.

(** The interval test gives the same answer on instances with the same
    constraints (that are not marked false). *)
Lemma ExhaustivePruneOne_same shard p q :
  sameConstraints p q ->
  evaluatesToFalse p = false ->
  exists pruned,
    ExhaustivePruneOne shard context p = Ok pruned
    /\ ExhaustivePruneOne shard context q = Ok pruned.
Proof.
  intros (A1 & A2 & A3 & A4 & A5 & A6 & A7 & A8 & A9 & A10 & A11 & A12) Hfalse.
  specialize (A6 Hfalse).
  unfold ExhaustivePruneOne.
  destruct (negb (minValueExists shard) || negb (maxValueExists shard));
    [exists false; split; reflexivity|].
  destruct (anyValueOutsideInterval_same shard _ _ A9) as [bySao [-> ->]].
  unfold valueOutsideInterval. 
  same_field A6; same_field A7; same_field A8; same_field A4; same_field A3;
    rewrite ?PerformValueCompare_answers; cbn [bind];
    split_ifs; cbn [bind]; split_ifs; eexists; split; reflexivity.
Qed.


Lemma ExhaustivePrune_loop_same p q :
  sameConstraints p q ->
  evaluatesToFalse p = false ->
  forall indices,
  exists remaining,
    ExhaustivePrune_loop (sortedShardIntervalArray cacheEntry) context p indices
    = Ok remaining
    /\ ExhaustivePrune_loop (sortedShardIntervalArray cacheEntry) context q indices
       = Ok remaining.
Proof.
  intros Hsame Hfalse. induction indices as [|curIdx rest [remaining [Hp Hq]]]; simpl.
  - exists []. split; reflexivity.
  - destruct (ExhaustivePruneOne_same
                (shardAt (sortedShardIntervalArray cacheEntry) curIdx) p q Hsame Hfalse)
      as [pruned [-> ->]].
    rewrite Hp, Hq. cbn [bind]. destruct pruned; eexists; split; reflexivity.
Qed.

Lemma PruneWithBoundaries_same p q :
  sameConstraints p q ->
  exists shards,
    PruneWithBoundaries cacheEntry context p = Ok shards
    /\ PruneWithBoundaries cacheEntry context q = Ok shards.
Proof.
  intros (A1 & A2 & A3 & A4 & A5 & A6 & A7 & A8 & A9 & A10 & A11 & A12).
  unfold PruneWithBoundaries.
  same_field A7; same_field A8; same_field A4; same_field A3;
    rewrite ?PerformValueCompare_answers; cbn [bind negb];
    split_ifs; cbn [bind];
    repeat match goal with
           | |- context [LowerShardBoundary ?v ?c ?n ?f ?i] =>
               let index := fresh "index" in
               let H := fresh "H" in
               destruct (LowerShardBoundary_total v c n i) as [index H]; rewrite H;
               cbn [bind]
           | |- context [UpperShardBoundary ?v ?c ?n ?f ?i] =>
               let index := fresh "index" in
               let H := fresh "H" in
               destruct (UpperShardBoundary_total v c n i) as [index H]; rewrite H;
               cbn [bind]
           end;
    split_ifs; eexists; split; reflexivity.
Qed.

(** The check of the candidates asks whether some candidate is excluded. *)
Lemma anyCandidatePruned_spec p :
  evaluatesToFalse p = false ->
  forall shardIntervals,
  exists pruned,
    anyCandidatePruned cacheEntry context p shardIntervals = Ok pruned
    /\ (pruned = true
        <-> exists shardInterval,
              In shardInterval shardIntervals
              /\ anyCandidatePruned cacheEntry context p [shardInterval] = Ok true).
Proof.
  intros Hfalse.
  induction shardIntervals as [|shardInterval rest [pruned [Hrest Hiff]]].
  - exists false. split; [reflexivity|]. split; [discriminate | intros [x [[] _]]].
  - assert (Hone : exists b,
              (if negb (PartitionMethod_eqb (ctxPartitionMethod context) DISTRIBUTE_BY_HASH)
               then ExhaustivePruneOne
                      (shardAt (sortedShardIntervalArray cacheEntry) shardInterval)
                      context p
               else Ok false) = Ok b).
    { destruct (negb _); [|eexists; reflexivity].
      destruct (ExhaustivePruneOne_same
                  (shardAt (sortedShardIntervalArray cacheEntry) shardInterval)
                  p p (sameConstraints_refl p) Hfalse) as [b [Hb _]].
      exists b. exact Hb. }
    destruct Hone as [b Hb]. cbn [anyCandidatePruned]. rewrite Hb. cbn [bind].
    destruct b.
    + exists true. split; [reflexivity|]. split; [|reflexivity].
      intros _. exists shardInterval. split; [left; reflexivity|].
      cbn [anyCandidatePruned]. rewrite Hb. reflexivity.
    + exists pruned. split; [exact Hrest|]. rewrite Hiff. split.
      * intros [x [Hin Hx]]. exists x. split; [right; exact Hin | exact Hx].
      * intros [x [[Heq | Hin] Hx]].
        -- subst x. cbn [anyCandidatePruned] in Hx. rewrite Hb in Hx. discriminate.
        -- exists x. split; assumption.
Qed.

Lemma anyCandidatePruned_one_same p q shardInterval :
  sameConstraints p q ->
  evaluatesToFalse p = false ->
  anyCandidatePruned cacheEntry context p [shardInterval]
  = anyCandidatePruned cacheEntry context q [shardInterval].
Proof.
  intros Hsame Hfalse. cbn [anyCandidatePruned].
  destruct (negb _); [|reflexivity].
  destruct (ExhaustivePruneOne_same
              (shardAt (sortedShardIntervalArray cacheEntry) shardInterval)
              p q Hsame Hfalse) as [b [-> ->]].
  reflexivity.
Qed.

Lemma anyCandidatePruned_same p q shardIntervals shardIntervals' :
  sameConstraints p q ->
  evaluatesToFalse p = false ->
  sameShardSet shardIntervals shardIntervals' ->
  exists pruned,
    anyCandidatePruned cacheEntry context p shardIntervals = Ok pruned
    /\ anyCandidatePruned cacheEntry context q shardIntervals' = Ok pruned.
Proof.
  intros Hsame Hfalse Hset.
  assert (Hfalse' : evaluatesToFalse q = false)
    by (destruct Hsame as (_ & A2 & _); congruence).
  destruct (anyCandidatePruned_spec p Hfalse shardIntervals) as [b [Hb Hiff]].
  destruct (anyCandidatePruned_spec q Hfalse' shardIntervals') as [b' [Hb' Hiff']].
  exists b. split; [exact Hb|]. rewrite Hb'. f_equal.
  destruct b, b'; try reflexivity.
  - destruct (proj1 Hiff eq_refl) as [x [Hin Hx]].
    apply Hiff'. exists x. split; [apply Hset; exact Hin|].
    rewrite <- (anyCandidatePruned_one_same p q x Hsame Hfalse). exact Hx.
  - destruct (proj1 Hiff' eq_refl) as [x [Hin Hx]].
    symmetry. apply Hiff. exists x. split; [apply Hset; exact Hin|].
    rewrite (anyCandidatePruned_one_same p q x Hsame Hfalse). exact Hx.
Qed.

Lemma sameShardSet_nil_cons (x : Z) l : ~ sameShardSet [] (x :: l).
Proof. intros H. apply (proj2 (H x)). left. reflexivity. Qed.

Lemma sameShardSet_cons_nil (x : Z) l : ~ sameShardSet (x :: l) [].
Proof. intros H. apply (proj1 (H x)). left. reflexivity. Qed.

Lemma PruneOne_ranges_same p q shardIntervals shardIntervals' :
  sameConstraints p q ->
  evaluatesToFalse p = false ->
  sameShardSet shardIntervals shardIntervals' ->
  exists shards shards',
    PruneOne_ranges cacheEntry context p shardIntervals = Ok shards
    /\ PruneOne_ranges cacheEntry context q shardIntervals' = Ok shards'
    /\ sameShardSet shards shards'.
Proof.
  intros Hsame Hfalse Hset. unfold PruneOne_ranges.
  destruct shardIntervals as [|x rest], shardIntervals' as [|x' rest'];
    try (exfalso; revert Hset;
         first [apply sameShardSet_nil_cons | apply sameShardSet_cons_nil]).
  - assert (Hrange : hasRangeConstraint p = hasRangeConstraint q).
    { destruct Hsame as (A1 & A2 & A3 & A4 & A5 & A6 & A7 & A8 & _).
      unfold hasRangeConstraint.
      destruct (greaterConsts p), (greaterConsts q), (greaterEqualConsts p),
               (greaterEqualConsts q), (lessConsts p), (lessConsts q),
               (lessEqualConsts p), (lessEqualConsts q);
        simpl in *; try discriminate; reflexivity. }
    rewrite <- Hrange.
    destruct (negb (hasOverlappingShardInterval cacheEntry) && hasRangeConstraint p).
    + destruct (PruneWithBoundaries_same p q Hsame) as [shards [-> ->]].
      exists shards, shards. repeat split; auto.
    + unfold ExhaustivePrune.
      destruct (ExhaustivePrune_loop_same p q Hsame Hfalse
                  (indexRange 0 (shardIntervalArrayLength cacheEntry - 1)))
        as [shards [-> ->]].
      exists shards, shards. repeat split; auto.
  - destruct (anyCandidatePruned_same p q (x :: rest) (x' :: rest') Hsame Hfalse Hset)
      as [pruned [-> ->]].
    cbn [bind]. destruct pruned.
    + exists [], []. repeat split; auto.
    + exists (x :: rest), (x' :: rest'). repeat split; auto; apply Hset.
Qed.


Lemma sameShardSet_refl (l : list Z) : sameShardSet l l.
Proof. intros x. reflexivity. Qed.

Lemma PruneOne_hashed_same p q shardIntervals shardIntervals' :
  sameConstraints p q ->
  evaluatesToFalse p = false ->
  sameShardSet shardIntervals shardIntervals' ->
  exists shards shards',
    PruneOne_hashed cacheEntry context p shardIntervals = Ok shards
    /\ PruneOne_hashed cacheEntry context q shardIntervals' = Ok shards'
    /\ sameShardSet shards shards'.
Proof.
  intros Hsame Hfalse Hset. unfold PruneOne_hashed.
  pose proof Hsame as (_ & _ & _ & _ & _ & _ & _ & _ & _ & A10 & _).
  destruct (hashedEqualConsts p) as [hashedConst|],
           (hashedEqualConsts q) as [hashedConst'|];
    simpl in A10; try discriminate.
  - injection A10 as A10. rewrite <- A10.
    destruct (FindShardIntervalIndex_total (constvalue hashedConst)) as [shardIndex ->].
    cbn [bind].
    destruct (shardIndex =? INVALID_SHARD_INDEX).
    { exists [], []. repeat split; auto. }
    destruct shardIntervals as [|x rest], shardIntervals' as [|x' rest'];
      try (exfalso; revert Hset;
           first [apply sameShardSet_nil_cons | apply sameShardSet_cons_nil]).
    + exists [shardIndex], [shardIndex]. repeat split; auto.
    + eexists _, _. split; [reflexivity|]. split; [reflexivity|].
      intros y. rewrite !in_map_iff. split.
      * intros [z [Hy Hz]]. apply filter_In in Hz. destruct Hz as [Hz Htest].
        apply Hset in Hz. exists z. split; [exact Hy|].
        apply filter_In. split; assumption.
      * intros [z [Hy Hz]]. apply filter_In in Hz. destruct Hz as [Hz Htest].
        apply Hset in Hz. exists z. split; [exact Hy|].
        apply filter_In. split; assumption.
  - apply PruneOne_ranges_same; assumption.
Qed.

(** The membership lookup adds the shards of the values that have one. *)
Lemma PruneOne_saoLookup_spec :
  forall consts shardIntervals,
  exists found,
    PruneOne_saoLookup cacheEntry context consts shardIntervals = Ok found
    /\ forall shard,
        In shard found
        <-> In shard shardIntervals
            \/ exists value,
                In value (map constvalue consts)
                /\ FindShardInterval value cacheEntry
                     (compareIntervalFunctionCall context) = Ok (Some shard).
Proof.
  induction consts as [|c rest IH]; intros shardIntervals; simpl.
  - exists shardIntervals. split; [reflexivity|]. intros shard. split; [auto|].
    intros [H | [v [[] _]]]. exact H.
  - destruct (FindShardInterval_total (constvalue c)) as [found Hfound].
    rewrite Hfound. cbn [bind]. destruct found as [shardInterval|].
    + destruct (IH (list_append_unique_ptr shardIntervals shardInterval))
        as [l [Hl Hiff]].
      exists l. split; [exact Hl|]. intros shard. rewrite Hiff.
      rewrite list_append_unique_ptr_In. split.
      * intros [[H | ->] | [v [Hin Hv]]].
        -- left. exact H.
        -- right. exists (constvalue c). split; [left; reflexivity | exact Hfound].
        -- right. exists v. split; [right; exact Hin | exact Hv].
      * intros [H | [v [[<- | Hin] Hv]]].
        -- left. left. exact H.
        -- rewrite Hfound in Hv. injection Hv as ->. left. right. reflexivity.
        -- right. exists v. split; assumption.
    + destruct (IH shardIntervals) as [l [Hl Hiff]].
      exists l. split; [exact Hl|]. intros shard. rewrite Hiff. split.
      * intros [H | [v [Hin Hv]]]; [left; exact H|].
        right. exists v. split; [right; exact Hin | exact Hv].
      * intros [H | [v [[<- | Hin] Hv]]]; [left; exact H | |].
        -- rewrite Hfound in Hv. discriminate.
        -- right. exists v. split; assumption.
Qed.

Lemma PruneOne_sao_same p q shardIntervals shardIntervals' :
  sameConstraints p q ->
  evaluatesToFalse p = false ->
  sameShardSet shardIntervals shardIntervals' ->
  exists shards shards',
    PruneOne_sao cacheEntry context p shardIntervals = Ok shards
    /\ PruneOne_sao cacheEntry context q shardIntervals' = Ok shards'
    /\ sameShardSet shards shards'.
Proof.
  intros Hsame Hfalse Hset. unfold PruneOne_sao.
  pose proof Hsame as (_ & _ & _ & _ & _ & _ & _ & _ & A9 & _).
  destruct (saoEqualConsts p) as [|c rest] eqn:Ep,
           (saoEqualConsts q) as [|c' rest'] eqn:Eq.
  - apply PruneOne_hashed_same; assumption.
  - apply Permutation_nil in A9. discriminate.
  - apply Permutation_sym, Permutation_nil in A9. discriminate.
  - destruct (negb (hasOverlappingShardInterval cacheEntry));
      [|apply PruneOne_hashed_same; assumption].
    destruct (PruneOne_saoLookup_spec (c :: rest) shardIntervals) as [l [-> Hl]].
    destruct (PruneOne_saoLookup_spec (c' :: rest') shardIntervals') as [l' [-> Hl']].
    cbn [bind].
    assert (Hfound : sameShardSet l l').
    { intros shard. rewrite Hl, Hl'. split.
      - intros [H | [v [Hin Hv]]]; [left; apply Hset; exact H|].
        right. exists v. split; [|exact Hv]. eapply Permutation_in; eassumption.
      - intros [H | [v [Hin Hv]]]; [left; apply Hset; exact H|].
        right. exists v. split; [|exact Hv].
        eapply Permutation_in; [apply Permutation_sym|]; eassumption. }
    destruct l as [|x l], l' as [|x' l'];
      try (exfalso; revert Hfound;
           first [apply sameShardSet_nil_cons | apply sameShardSet_cons_nil]).
    + exists [], []. repeat split; auto.
    + apply PruneOne_hashed_same; assumption.
Qed.

(** [PruneOne] succeeds on instances with the same constraints and returns
    the same shards. *)
Lemma PruneOne_same p q :
  sameConstraints p q ->
  exists shards shards',
    PruneOne cacheEntry context p = Ok shards
    /\ PruneOne cacheEntry context q = Ok shards'
    /\ sameShardSet shards shards'.
Proof.
  intros Hsame. unfold PruneOne.
  pose proof Hsame as (_ & A2 & _ & _ & A5 & A6 & _).
  rewrite <- A2. destruct (evaluatesToFalse p) eqn:Hfalse.
  { exists [], []. repeat split; auto. }
  specialize (A6 eq_refl).
  destruct (equalConsts p) as [equalConst|], (equalConsts q) as [equalConst'|];
    simpl in A6; try discriminate.
  - injection A6 as A6. rewrite <- A6.
    destruct (negb (hasOverlappingShardInterval cacheEntry)).
    + destruct (FindShardInterval_total (constvalue equalConst)) as [found ->].
      cbn [bind]. destruct found as [shardInterval|].
      * apply PruneOne_sao_same; [assumption | assumption | apply sameShardSet_refl].
      * exists [], []. repeat split; auto.
    + apply PruneOne_sao_same; [assumption | assumption | apply sameShardSet_refl].
  - apply PruneOne_sao_same; [assumption | assumption | apply sameShardSet_refl].
Qed.


End SameConstraintsSameShards.

(** ** The order of the fold *)

(** The bound an update keeps, [<] and [<=]: the smaller one. *)
Lemma applyKeyBound_keeps_smaller rank compareValues constant old prune :
  ordersBy rank compareValues ->
  (lessConsts prune = Some old ->
   exists kept,
     lessConsts (applyKeyBound compareValues BTLessStrategyNumber constant prune)
     = Some kept
     /\ rank (constvalue kept)
        = Z.min (rank (constvalue constant)) (rank (constvalue old)))
  /\ (lessEqualConsts prune = Some old ->
      exists kept,
        lessEqualConsts (applyKeyBound compareValues BTLessEqualStrategyNumber constant prune)
        = Some kept
        /\ rank (constvalue kept)
           = Z.min (rank (constvalue constant)) (rank (constvalue old))).
Proof.
  intros Horder.
  pose proof (Horder (constvalue constant) (constvalue old)) as (Hlt & Heq & Hgt).
  split; intros Hold; unfold applyKeyBound; rewrite Hold;
    destruct (compareValues (constvalue constant) (constvalue old) <? 0) eqn:Htest;
    [ apply Z.ltb_lt in Htest | apply Z.ltb_ge in Htest
    | apply Z.ltb_lt in Htest | apply Z.ltb_ge in Htest ];
    eexists; (split; [first [exact Hold | reflexivity]|]); lia.
Qed.

(** The bound an update keeps, [>=] and [>]: the larger one. *)
Lemma applyKeyBound_keeps_larger rank compareValues constant old prune :
  ordersBy rank compareValues ->
  (greaterEqualConsts prune = Some old ->
   exists kept,
     greaterEqualConsts
       (applyKeyBound compareValues BTGreaterEqualStrategyNumber constant prune)
     = Some kept
     /\ rank (constvalue kept)
        = Z.max (rank (constvalue constant)) (rank (constvalue old)))
  /\ (greaterConsts prune = Some old ->
      exists kept,
        greaterConsts (applyKeyBound compareValues BTGreaterStrategyNumber constant prune)
        = Some kept
        /\ rank (constvalue kept)
           = Z.max (rank (constvalue constant)) (rank (constvalue old))).
Proof.
  intros Horder.
  pose proof (Horder (constvalue constant) (constvalue old)) as (Hlt & Heq & Hgt).
  split; intros Hold; unfold applyKeyBound; rewrite Hold;
    destruct (compareValues (constvalue constant) (constvalue old) >? 0) eqn:Htest;
    rewrite Z.gtb_ltb in Htest;
    [ apply Z.ltb_lt in Htest | apply Z.ltb_ge in Htest
    | apply Z.ltb_lt in Htest | apply Z.ltb_ge in Htest ];
    eexists; (split; [first [exact Hold | reflexivity]|]); lia.
Qed.



Section TightestBounds.

Variable rank : Datum -> Z.
Variable compareValues : Datum -> Datum -> Z.
Hypothesis compareValues_order : ordersBy rank compareValues.





End TightestBounds.





(** * Further properties *)

(** ** The searches stay inside the array *)

Lemma bind_Ok {A B} (m : result A) (k : A -> result B) (b : B) :
  bind m k = Ok b -> exists a, m = Ok a /\ k a = Ok b.
Proof. destruct m as [a|e]; simpl; [eauto | discriminate]. Qed.

(** The loop of [LowerShardBoundary] keeps [lowerBoundIndex <=
    upperBoundIndex] inside the bounds it starts from: a found index lies
    between them, and the loop otherwise ends with the two indices equal
    (the [Assert] after the loop). *)
Lemma LowerShardBoundary_loop_range compareFunction value cache includeMax :
  forall fuel lowerBoundIndex upperBoundIndex outcome,
    lowerBoundIndex <= upperBoundIndex ->
    upperBoundIndex - lowerBoundIndex <= Z.of_nat fuel ->
    LowerShardBoundary_loop fuel compareFunction value cache includeMax
                            lowerBoundIndex upperBoundIndex = Ok outcome ->
    match outcome with
    | Found middleIndex => lowerBoundIndex <= middleIndex < upperBoundIndex
    | NotFound lo hi => lo = hi /\ lowerBoundIndex <= lo <= upperBoundIndex
    end.
Proof.
  induction fuel as [|fuel IH]; intros lo hi outcome Hle Hfuel Hloop; simpl in Hloop.
  - destruct (lo <? hi) eqn:E; [apply Z.ltb_lt in E; lia|].
    apply Z.ltb_ge in E. inversion Hloop. lia.
  - destruct (lo <? hi) eqn:E.
    2: { apply Z.ltb_ge in E. inversion Hloop. lia. }
    apply Z.ltb_lt in E. pose proof (middleIndex_bounds lo hi E) as Hmid.
    apply bind_Ok in Hloop. destruct Hloop as [r [_ Hloop]].
    destruct (r <? 0).
    + apply IH in Hloop; [|lia|lia]. destruct outcome; lia.
    + apply bind_Ok in Hloop. destruct Hloop as [r' [_ Hloop]].
      destruct (((r' =? 0) && negb includeMax) || (r' >? 0)).
      * apply IH in Hloop; [|lia|lia]. destruct outcome; lia.
      * inversion Hloop. lia.
Qed.

Lemma UpperShardBoundary_loop_range compareFunction value cache includeMin :
  forall fuel lowerBoundIndex upperBoundIndex outcome,
    lowerBoundIndex <= upperBoundIndex ->
    upperBoundIndex - lowerBoundIndex <= Z.of_nat fuel ->
    UpperShardBoundary_loop fuel compareFunction value cache includeMin
                            lowerBoundIndex upperBoundIndex = Ok outcome ->
    match outcome with
    | Found middleIndex => lowerBoundIndex <= middleIndex < upperBoundIndex
    | NotFound lo hi => lo = hi /\ lowerBoundIndex <= lo <= upperBoundIndex
    end.
Proof.
  induction fuel as [|fuel IH]; intros lo hi outcome Hle Hfuel Hloop; simpl in Hloop.
  - destruct (lo <? hi) eqn:E; [apply Z.ltb_lt in E; lia|].
    apply Z.ltb_ge in E. inversion Hloop. lia.
  - destruct (lo <? hi) eqn:E.
    2: { apply Z.ltb_ge in E. inversion Hloop. lia. }
    apply Z.ltb_lt in E. pose proof (middleIndex_bounds lo hi E) as Hmid.
    apply bind_Ok in Hloop. destruct Hloop as [r [_ Hloop]].
    destruct (((r =? 0) && negb includeMin) || (r <? 0)).
    + apply IH in Hloop; [|lia|lia]. destruct outcome; lia.
    + apply bind_Ok in Hloop. destruct Hloop as [r' [_ Hloop]].
      destruct (r' >? 0).
      * apply IH in Hloop; [|lia|lia]. destruct outcome; lia.
      * inversion Hloop. lia.
Qed.

(** [LowerShardBoundary] answers [INVALID_SHARD_INDEX] or an index from 0 to
    [shardCount] (the last one past the array, from the [+ 1]);
    [UpperShardBoundary] answers [INVALID_SHARD_INDEX] or an index of the
    array. *)
Lemma LowerShardBoundary_range value cache shardCount compareFunction includeMax index :
  0 <= shardCount ->
  LowerShardBoundary value cache shardCount compareFunction includeMax = Ok index ->
  index = INVALID_SHARD_INDEX \/ 0 <= index <= shardCount.
Proof.
  intros Hcount Hlower. unfold LowerShardBoundary in Hlower.
  apply bind_Ok in Hlower. destruct Hlower as [outcome [Hloop Hlower]].
  apply LowerShardBoundary_loop_range in Hloop; [|lia|lia].
  destruct outcome as [middle | lo hi].
  - inversion Hlower. lia.
  - destruct (lo =? 0); [inversion Hlower; lia|].
    destruct (lo =? shardCount) eqn:E; [inversion Hlower; auto|].
    apply Z.eqb_neq in E. inversion Hlower. lia.
Qed.

Lemma UpperShardBoundary_range value cache shardCount compareFunction includeMin index :
  0 <= shardCount ->
  UpperShardBoundary value cache shardCount compareFunction includeMin = Ok index ->
  index = INVALID_SHARD_INDEX \/ 0 <= index < shardCount.
Proof.
  intros Hcount Hupper. unfold UpperShardBoundary in Hupper.
  apply bind_Ok in Hupper. destruct Hupper as [outcome [Hloop Hupper]].
  apply UpperShardBoundary_loop_range in Hloop; [|lia|lia].
  destruct outcome as [middle | lo hi].
  - inversion Hupper. lia.
  - unfold INVALID_SHARD_INDEX.
    destruct (hi =? shardCount) eqn:E; [inversion Hupper; lia|].
    apply Z.eqb_neq in E.
    destruct (hi =? 0) eqn:E0; [inversion Hupper; auto|].
    apply Z.eqb_neq in E0. inversion Hupper. lia.
Qed.

Lemma indexRange_In from to index :
  In index (indexRange from to) <-> from <= index <= to.
Proof.
  unfold indexRange. rewrite in_map_iff. split.
  - intros [k [<- Hk]]. apply in_seq in Hk. lia.
  - intros H. exists (Z.to_nat (index - from)). split; [lia|].
    apply in_seq. lia.
Qed.

Lemma ExhaustivePrune_loop_sublist cache context prune :
  forall indices remaining,
    ExhaustivePrune_loop cache context prune indices = Ok remaining ->
    forall index, In index remaining -> In index indices.
Proof.
  induction indices as [|curIdx rest IH]; intros remaining Hloop index Hin;
    simpl in Hloop.
  - inversion Hloop. subst. contradiction.
  - apply bind_Ok in Hloop. destruct Hloop as [pruned [_ Hloop]].
    apply bind_Ok in Hloop. destruct Hloop as [remaining' [Hrest Hloop]].
    specialize (IH _ Hrest index).
    destruct pruned; inversion Hloop; subst.
    + right. apply IH. exact Hin.
    + destruct Hin as [<- | Hin]; [left; reflexivity | right; apply IH; exact Hin].
Qed.

Lemma shardIntervalArrayLength_nonneg cacheEntry :
  0 <= shardIntervalArrayLength cacheEntry.
Proof. unfold shardIntervalArrayLength. lia. Qed.

Lemma ExhaustivePrune_inArray cacheEntry context prune shards :
  ExhaustivePrune cacheEntry context prune = Ok shards ->
  indicesInArray cacheEntry shards.
Proof.
  intros Hprune index Hin. unfold ExhaustivePrune in Hprune.
  apply (ExhaustivePrune_loop_sublist _ _ _ _ _ Hprune) in Hin.
  apply indexRange_In in Hin. lia.
Qed.

Lemma PruneWithBoundaries_inArray cacheEntry context prune shards :
  PruneWithBoundaries cacheEntry context prune = Ok shards ->
  indicesInArray cacheEntry shards.
Proof.
  intros Hprune index Hin. unfold PruneWithBoundaries in Hprune.
  pose proof (shardIntervalArrayLength_nonneg cacheEntry) as Hcount.
  apply bind_Ok in Hprune. destruct Hprune as [[[hasLower lower] lowerIncl] [_ Hprune]].
  apply bind_Ok in Hprune. destruct Hprune as [[[hasUpper upper] upperIncl] [_ Hprune]].
  apply bind_Ok in Hprune. destruct Hprune as [lowerIdx [Hlower Hprune]].
  apply bind_Ok in Hprune. destruct Hprune as [upperIdx [Hupper Hprune]].
  assert (HlowerIdx : lowerIdx = INVALID_SHARD_INDEX \/ 0 <= lowerIdx).
  { destruct hasLower; [|inversion Hlower; lia].
    apply LowerShardBoundary_range in Hlower; [lia | exact Hcount]. }
  assert (HupperIdx : upperIdx = INVALID_SHARD_INDEX
                      \/ upperIdx < shardIntervalArrayLength cacheEntry).
  { destruct hasUpper; [|inversion Hupper; lia].
    apply UpperShardBoundary_range in Hupper; [lia | exact Hcount]. }
  destruct (lowerIdx =? INVALID_SHARD_INDEX) eqn:El;
    [inversion Hprune; subst; contradiction|].
  destruct (upperIdx =? INVALID_SHARD_INDEX) eqn:Eu;
    [inversion Hprune; subst; contradiction|].
  apply Z.eqb_neq in El, Eu. inversion Hprune; subst.
  apply indexRange_In in Hin. lia.
Qed.

Lemma FindShardIntervalIndex_range value cacheEntry compareFunction index :
  FindShardIntervalIndex value cacheEntry compareFunction = Ok index ->
  index = INVALID_SHARD_INDEX \/ 0 <= index < shardIntervalArrayLength cacheEntry.
Proof.
  intros Hfind. unfold FindShardIntervalIndex in Hfind.
  apply bind_Ok in Hfind. destruct Hfind as [outcome [Hloop Hfind]].
  apply LowerShardBoundary_loop_range in Hloop;
    [| apply shardIntervalArrayLength_nonneg | unfold shardIntervalArrayLength; lia].
  destruct outcome; inversion Hfind; subst; [right; lia | left; reflexivity].
Qed.

Lemma FindShardInterval_range value cacheEntry compareFunction index :
  FindShardInterval value cacheEntry compareFunction = Ok (Some index) ->
  0 <= index < shardIntervalArrayLength cacheEntry.
Proof.
  intros Hfind. unfold FindShardInterval in Hfind.
  apply bind_Ok in Hfind. destruct Hfind as [shardIndex [Hindex Hfind]].
  apply FindShardIntervalIndex_range in Hindex.
  destruct (shardIndex =? INVALID_SHARD_INDEX) eqn:E; [discriminate|].
  apply Z.eqb_neq in E. inversion Hfind. subst. lia.
Qed.

Lemma indicesInArray_nil cacheEntry : indicesInArray cacheEntry [].
Proof. intros index []. Qed.

Lemma PruneOne_ranges_inArray cacheEntry context prune shardIntervals shards :
  indicesInArray cacheEntry shardIntervals ->
  PruneOne_ranges cacheEntry context prune shardIntervals = Ok shards ->
  indicesInArray cacheEntry shards.
Proof.
  intros Hcandidates Hprune. unfold PruneOne_ranges in Hprune.
  destruct shardIntervals as [|x rest].
  - destruct (negb (hasOverlappingShardInterval cacheEntry) && hasRangeConstraint prune).
    + eapply PruneWithBoundaries_inArray; eassumption.
    + eapply ExhaustivePrune_inArray; eassumption.
  - apply bind_Ok in Hprune. destruct Hprune as [pruned [_ Hprune]].
    destruct pruned; inversion Hprune; subst;
      [apply indicesInArray_nil | exact Hcandidates].
Qed.

Lemma PruneOne_hashed_inArray cacheEntry context prune shardIntervals shards :
  indicesInArray cacheEntry shardIntervals ->
  PruneOne_hashed cacheEntry context prune shardIntervals = Ok shards ->
  indicesInArray cacheEntry shards.
Proof.
  intros Hcandidates Hprune. unfold PruneOne_hashed in Hprune.
  destruct (hashedEqualConsts prune) as [hashedConst|].
  2: { eapply PruneOne_ranges_inArray; eassumption. }
  apply bind_Ok in Hprune. destruct Hprune as [shardIndex [Hindex Hprune]].
  apply FindShardIntervalIndex_range in Hindex.
  destruct (shardIndex =? INVALID_SHARD_INDEX) eqn:E.
  { inversion Hprune. apply indicesInArray_nil. }
  apply Z.eqb_neq in E.
  destruct shardIntervals; inversion Hprune; subst; intros index Hin.
  - destruct Hin as [<- | []]. lia.
  - apply in_map_iff in Hin. destruct Hin as [_ [<- _]]. lia.
Qed.

Lemma PruneOne_saoLookup_inArray cacheEntry context :
  forall consts shardIntervals found,
    indicesInArray cacheEntry shardIntervals ->
    PruneOne_saoLookup cacheEntry context consts shardIntervals = Ok found ->
    indicesInArray cacheEntry found.
Proof.
  induction consts as [|c rest IH]; intros shardIntervals found Hcandidates Hlookup;
    simpl in Hlookup.
  - inversion Hlookup. subst. exact Hcandidates.
  - apply bind_Ok in Hlookup. destruct Hlookup as [hit [Hfind Hlookup]].
    destruct hit as [shardInterval|]; [|eapply IH; eassumption].
    eapply IH; [|exact Hlookup].
    intros index Hin. apply list_append_unique_ptr_In in Hin.
    destruct Hin as [Hin | ->]; [apply Hcandidates; exact Hin|].
    eapply FindShardInterval_range; eassumption.
Qed.

Lemma PruneOne_sao_inArray cacheEntry context prune shardIntervals shards :
  indicesInArray cacheEntry shardIntervals ->
  PruneOne_sao cacheEntry context prune shardIntervals = Ok shards ->
  indicesInArray cacheEntry shards.
Proof.
  intros Hcandidates Hprune. unfold PruneOne_sao in Hprune.
  destruct (saoEqualConsts prune) as [|c rest];
    [eapply PruneOne_hashed_inArray; eassumption|].
  destruct (negb (hasOverlappingShardInterval cacheEntry));
    [|eapply PruneOne_hashed_inArray; eassumption].
  apply bind_Ok in Hprune. destruct Hprune as [found [Hlookup Hprune]].
  apply PruneOne_saoLookup_inArray in Hlookup; [|exact Hcandidates].
  destruct found; [inversion Hprune; apply indicesInArray_nil|].
  eapply PruneOne_hashed_inArray; eassumption.
Qed.

(** Every pointer [PruneOne] returns points into the sorted array. *)
Lemma PruneOne_inArray cacheEntry context prune shards :
  PruneOne cacheEntry context prune = Ok shards ->
  indicesInArray cacheEntry shards.
Proof.
  intros Hprune. unfold PruneOne in Hprune.
  destruct (evaluatesToFalse prune); [inversion Hprune; apply indicesInArray_nil|].
  destruct (equalConsts prune) as [equalConst|];
    [|eapply PruneOne_sao_inArray; [apply indicesInArray_nil | eassumption]].
  destruct (negb (hasOverlappingShardInterval cacheEntry));
    [|eapply PruneOne_sao_inArray; [apply indicesInArray_nil | eassumption]].
  apply bind_Ok in Hprune. destruct Hprune as [found [Hfind Hprune]].
  destruct found as [shardInterval|]; [|inversion Hprune; apply indicesInArray_nil].
  eapply PruneOne_sao_inArray; [|eassumption].
  intros index [<- | []]. eapply FindShardInterval_range; eassumption.
Qed.

Lemma prunedList_rememberPartitionValues values :
  forall st,
    prunedList (fold_left (fun s saoConst => rememberPartitionValue saoConst s) values st)
    = prunedList st.
Proof.
  induction values as [|value rest IH]; intros st; simpl; [reflexivity|].
  rewrite IH. apply prunedList_rememberPartitionValue.
Qed.

Lemma PruneShards_loop_inArray cacheEntry context wantsPartitionValue :
  forall pruningInstances st st',
    indicesInArray cacheEntry (prunedList st) ->
    PruneShards_loop cacheEntry context wantsPartitionValue pruningInstances st = Ok st' ->
    indicesInArray cacheEntry (prunedList st').
Proof.
  induction pruningInstances as [|prune rest IH]; intros st st' Hst Hloop;
    simpl in Hloop.
  - inversion Hloop. subst. exact Hst.
  - destruct (isPartial prune); [eapply IH; eassumption|].
    destruct (negb (hasValidConstraint prune)); [inversion Hloop; exact Hst|].
    destruct (PartitionMethod_eqb (ctxPartitionMethod context) DISTRIBUTE_BY_HASH
              && hasNoEqualityConstraint prune); [inversion Hloop; exact Hst|].
    apply bind_Ok in Hloop. destruct Hloop as [pruneOneList [Hone Hloop]].
    apply PruneOne_inArray in Hone.
    eapply IH; [|exact Hloop]. cbn [prunedList].
    match goal with
    | |- indicesInArray _ (match prunedList ?s with _ => _ end) =>
        assert (Hs : prunedList s = prunedList st)
    end.
    { destruct (PartitionMethod_eqb (ctxPartitionMethod context) DISTRIBUTE_BY_HASH);
        [|reflexivity].
      destruct (equalConsts prune), (saoEqualConsts prune), wantsPartitionValue;
        try reflexivity;
        first [apply prunedList_rememberPartitionValue
              | apply prunedList_rememberPartitionValues]. }
    rewrite Hs.
    destruct (prunedList st) eqn:El; [exact Hone|].
    intros index Hin. apply list_union_ptr_In in Hin.
    destruct Hin as [Hin | Hin]; [apply Hst | apply Hone]; exact Hin.
Qed.

Lemma shardAt_In cacheEntry index :
  0 <= index < shardIntervalArrayLength cacheEntry ->
  In (shardAt (sortedShardIntervalArray cacheEntry) index)
     (sortedShardIntervalArray cacheEntry).
Proof.
  intros Hindex. unfold shardAt. apply nth_In.
  unfold shardIntervalArrayLength in Hindex. lia.
Qed.

(** X1. Whatever the where clause, every shard interval [PruneShards]
    returns is a copy of a cell of the table's sorted array: the binary
    searches, the boundary arithmetic ([lowerBoundIndex + 1],
    [shardCount - 1]) and the lookups never yield a pointer outside the
    array. *)
Theorem PruneShards_returns_shards_of_the_table cat cacheEntry whereClauseList
        wantsPartitionValue shards written :
  PruneShards cat cacheEntry whereClauseList wantsPartitionValue = Ok (shards, written) ->
  forall shard, In shard shards -> In shard (sortedShardIntervalArray cacheEntry).
Proof.
  intros Hprune shard Hin. unfold PruneShards in Hprune.
  destruct (shardIntervalArrayLength cacheEntry =? 0);
    [inversion Hprune; subst; contradiction|].
  destruct (ContainsFalseClause whereClauseList);
    [inversion Hprune; subst; contradiction|].
  assert (Hall : forall s,
             In s (DeepCopyShardIntervalList cacheEntry
                     (ShardArrayToList (sortedShardIntervalArray cacheEntry)
                                       (shardIntervalArrayLength cacheEntry))) ->
             In s (sortedShardIntervalArray cacheEntry))
    by (intros s; rewrite DeepCopy_all_shards; auto).
  assert (Hmain :
    forall compareInterval compareValue,
      (pruningInstances <-
         PrunableExpressionsWalker2 cat (partitionColumn cacheEntry) compareValue
           (NormalizedPruneTree cat (partitionColumn cacheEntry) whereClauseList) ;;
       st <- PruneShards_loop cacheEntry
               (mkContext (partitionColumn cacheEntry) (partitionMethod cacheEntry)
                          compareValue compareInterval)
               wantsPartitionValue pruningInstances initialPruneState ;;
       Ok (PruneShards_finish cacheEntry wantsPartitionValue st)) = Ok (shards, written) ->
      In shard (sortedShardIntervalArray cacheEntry)).
  { intros compareInterval compareValue H.
    apply bind_Ok in H. destruct H as [pruningInstances [_ H]].
    apply bind_Ok in H. destruct H as [st [Hloop H]].
    apply PruneShards_loop_inArray in Hloop; [|apply indicesInArray_nil].
    unfold PruneShards_finish in H. inversion H; subst.
    destruct (negb (foundRestriction st)); [apply Hall; exact Hin|].
    unfold DeepCopyShardIntervalList in Hin. apply in_map_iff in Hin.
    destruct Hin as [index [<- Hindex]]. apply shardAt_In, Hloop, Hindex. }
  destruct (partitionMethod cacheEntry);
    try (destruct (shardIntervalCompareFunction cacheEntry) as [compareInterval|];
         [|discriminate];
         destruct (shardColumnCompareFunction cacheEntry) as [compareValue|];
         [|discriminate];
         exact (Hmain compareInterval compareValue Hprune)).
  inversion Hprune; subst. apply Hall. exact Hin.
Qed.

Lemma PruneShards_returns_shards_of_the_table_witness :
  PruneShards int4Catalog rangeTable [compareColumn keyColumn Int4LessOperator 500] true
  = Ok ([firstShard], WrittenNull)
  /\ In firstShard (sortedShardIntervalArray rangeTable).
Proof.
  split; [reflexivity|].
  apply (PruneShards_returns_shards_of_the_table int4Catalog rangeTable
           [compareColumn keyColumn Int4LessOperator 500] true
           [firstShard] WrittenNull eq_refl firstShard).
  left. reflexivity.
Defined.


(** ** Reference tables *)

(** X2. For a reference table (partition method NONE) and a where clause
    list without a false constant, [PruneShards] returns the whole sorted
    array of the table, whatever the clauses say; it asks for no comparator
    and writes nothing through [partitionValueConst], requested or not. *)
Theorem reference_table_returns_every_shard cat cacheEntry whereClauseList
        wantsPartitionValue :
  partitionMethod cacheEntry = DISTRIBUTE_BY_NONE ->
  ContainsFalseClause whereClauseList = false ->
  PruneShards cat cacheEntry whereClauseList wantsPartitionValue
  = Ok (sortedShardIntervalArray cacheEntry, NotWritten).
Proof.
  intros Hmethod Hfalse. unfold PruneShards. rewrite Hfalse, Hmethod.
  destruct (shardIntervalArrayLength cacheEntry =? 0) eqn:Hcount.
  - apply Z.eqb_eq in Hcount. unfold shardIntervalArrayLength in Hcount.
    destruct (sortedShardIntervalArray cacheEntry); [reflexivity | discriminate].
  - rewrite DeepCopy_all_shards. reflexivity.
Qed.

Lemma reference_table_returns_every_shard_witness :
  PruneShards int4Catalog referenceTable
    [compareColumn keyColumn Int4EqualOperator 5] true
  = Ok ([referenceShard], NotWritten).
Proof.
  apply (reference_table_returns_every_shard int4Catalog referenceTable
           [compareColumn keyColumn Int4EqualOperator 5] true); reflexivity.
Defined.

(** ** Errors *)

Lemma failsOnlyOnNull_Ok {A} (a : A) : failsOnlyOnNull (Ok a).
Proof. intros e H. discriminate. Qed.

Lemma failsOnlyOnNull_bind {A B} (m : result A) (k : A -> result B) :
  failsOnlyOnNull m -> (forall a, failsOnlyOnNull (k a)) -> failsOnlyOnNull (bind m k).
Proof.
  intros Hm Hk e H. destruct m as [a|e']; simpl in H.
  - exact (Hk a e H).
  - inversion H; subst. apply Hm. reflexivity.
Qed.

Lemma PerformValueCompare_only_null compareFunction a b :
  failsOnlyOnNull (PerformValueCompare compareFunction a b).
Proof.
  intros e H. unfold PerformValueCompare in H.
  destruct (compareFunction a b); inversion H. reflexivity.
Qed.

Ltac only_null :=
  repeat first
    [ apply failsOnlyOnNull_Ok
    | apply PerformValueCompare_only_null
    | assumption
    | apply failsOnlyOnNull_bind; [|intros]
    | match goal with
      | |- failsOnlyOnNull (if ?b then _ else _) => destruct b
      | |- failsOnlyOnNull (match ?x with _ => _ end) => destruct x
      | |- failsOnlyOnNull (let '(_, _) := ?x in _) => destruct x
      end ].

Lemma AddPartitionKeyRestriction_loop_only_null compareValue constantClause :
  forall interpretations prune matchedOp,
    failsOnlyOnNull (AddPartitionKeyRestriction_loop compareValue constantClause
                       interpretations prune matchedOp).
Proof.
  induction interpretations as [|strategy rest IH]; intros prune matchedOp; simpl.
  - only_null.
  - apply failsOnlyOnNull_bind; [|intros st; apply IH].
    unfold AddPartitionKeyRestriction_case. only_null.
Qed.

Lemma HandleConditionNode_only_null cat partitionColumn compareValue node prune :
  failsOnlyOnNull (HandleConditionNode cat partitionColumn compareValue node prune).
Proof.
  unfold HandleConditionNode, AddPartitionKeyRestrictionToInstance.
  destruct node; only_null.
  apply AddPartitionKeyRestriction_loop_only_null.
Qed.

Lemma HandleConditionNodes_only_null cat partitionColumn compareValue :
  forall nodes prune,
    failsOnlyOnNull (HandleConditionNodes cat partitionColumn compareValue nodes prune).
Proof.
  induction nodes as [|node rest IH]; intros prune; simpl.
  - only_null.
  - apply failsOnlyOnNull_bind; [apply HandleConditionNode_only_null | intros; apply IH].
Qed.

(** The prune tree, with the children of a node known to have the property. *)
Lemma PruneNode_induction (P : PruneNode -> Prop) :
  (forall op bs conds, Forall P bs -> P (mkPruneNode op bs conds)) ->
  forall node, P node.
Proof.
  intros Hnode. fix IH 1. intros [op bs conds]. apply Hnode.
  induction bs as [|child rest IHrest]; constructor; [apply IH | exact IHrest].
Qed.

Lemma walkChildren_only_null (walk : PruneNode -> result (list PruningInstance)) :
  forall bs acc,
    Forall (fun child => failsOnlyOnNull (walk child)) bs ->
    failsOnlyOnNull acc ->
    failsOnlyOnNull
      (fold_left (fun acc boolNode =>
                    done <- acc ;; more <- walk boolNode ;; Ok (done ++ more))
                 bs acc).
Proof.
  induction bs as [|child rest IH]; intros acc Hbs Hacc; simpl.
  - exact Hacc.
  - inversion Hbs; subst. apply IH; [assumption|]. only_null.
Qed.

Lemma PrunableExpressionsWalker2_only_null cat partitionColumn compareValue :
  forall node,
    failsOnlyOnNull (PrunableExpressionsWalker2 cat partitionColumn compareValue node).
Proof.
  induction node as [op bs conds IH] using PruneNode_induction.
  simpl.
  assert (Hchildren := walkChildren_only_null
            (PrunableExpressionsWalker2 cat partitionColumn compareValue)
            bs (Ok []) IH (failsOnlyOnNull_Ok [])).
  destruct op; try exact Hchildren.
  apply failsOnlyOnNull_bind; [exact Hchildren|]. intros fromChildren.
  unfold FoldBranch.
  destruct (FindValidConditionWrapper conds); [|only_null].
  apply failsOnlyOnNull_bind; [apply HandleConditionNodes_only_null|].
  intros. only_null.
Qed.

Lemma LowerShardBoundary_loop_only_null compareFunction value cache includeMax :
  forall fuel lowerBoundIndex upperBoundIndex,
    failsOnlyOnNull (LowerShardBoundary_loop fuel compareFunction value cache includeMax
                       lowerBoundIndex upperBoundIndex).
Proof.
  induction fuel as [|fuel IH]; intros lo hi; simpl; only_null; apply IH.
Qed.

Lemma UpperShardBoundary_loop_only_null compareFunction value cache includeMin :
  forall fuel lowerBoundIndex upperBoundIndex,
    failsOnlyOnNull (UpperShardBoundary_loop fuel compareFunction value cache includeMin
                       lowerBoundIndex upperBoundIndex).
Proof.
  induction fuel as [|fuel IH]; intros lo hi; simpl; only_null; apply IH.
Qed.

Lemma FindShardIntervalIndex_only_null value cacheEntry compareFunction :
  failsOnlyOnNull (FindShardIntervalIndex value cacheEntry compareFunction).
Proof.
  unfold FindShardIntervalIndex.
  apply failsOnlyOnNull_bind; [apply LowerShardBoundary_loop_only_null|].
  intros. only_null.
Qed.

Lemma FindShardInterval_only_null value cacheEntry compareFunction :
  failsOnlyOnNull (FindShardInterval value cacheEntry compareFunction).
Proof.
  unfold FindShardInterval.
  apply failsOnlyOnNull_bind; [apply FindShardIntervalIndex_only_null|].
  intros. only_null.
Qed.

Lemma anyValueOutsideInterval_only_null compareFunction shard :
  forall consts, failsOnlyOnNull (anyValueOutsideInterval compareFunction consts shard).
Proof.
  induction consts as [|c rest IH]; simpl; [only_null|].
  unfold valueOutsideInterval. only_null.
Qed.

Lemma ExhaustivePruneOne_only_null shard context prune :
  failsOnlyOnNull (ExhaustivePruneOne shard context prune).
Proof.
  unfold ExhaustivePruneOne.
  destruct (negb (minValueExists shard) || negb (maxValueExists shard)); [only_null|].
  apply failsOnlyOnNull_bind.
  { unfold valueOutsideInterval. only_null. }
  intros byEqual. destruct byEqual; [only_null|].
  apply failsOnlyOnNull_bind; [apply anyValueOutsideInterval_only_null|].
  intros. only_null.
Qed.

Lemma ExhaustivePrune_loop_only_null cache context prune :
  forall indices, failsOnlyOnNull (ExhaustivePrune_loop cache context prune indices).
Proof.
  induction indices as [|curIdx rest IH]; simpl; [only_null|].
  apply failsOnlyOnNull_bind; [apply ExhaustivePruneOne_only_null|].
  intros. only_null.
Qed.

Lemma PruneWithBoundaries_only_null cacheEntry context prune :
  failsOnlyOnNull (PruneWithBoundaries cacheEntry context prune).
Proof.
  unfold PruneWithBoundaries, LowerShardBoundary, UpperShardBoundary.
  apply failsOnlyOnNull_bind; [only_null|]. intros [[hasLower lower] lowerIncl].
  apply failsOnlyOnNull_bind; [only_null|]. intros [[hasUpper upper] upperIncl].
  apply failsOnlyOnNull_bind.
  { destruct hasLower; [|only_null].
    apply failsOnlyOnNull_bind; [apply LowerShardBoundary_loop_only_null|].
    intros. only_null. }
  intros lowerIdx.
  apply failsOnlyOnNull_bind.
  { destruct hasUpper; [|only_null].
    apply failsOnlyOnNull_bind; [apply UpperShardBoundary_loop_only_null|].
    intros. only_null. }
  intros. only_null.
Qed.

Lemma anyCandidatePruned_only_null cacheEntry context prune :
  forall shardIntervals,
    failsOnlyOnNull (anyCandidatePruned cacheEntry context prune shardIntervals).
Proof.
  induction shardIntervals as [|shardInterval rest IH]; simpl; [only_null|].
  apply failsOnlyOnNull_bind.
  { destruct (negb _); [apply ExhaustivePruneOne_only_null | only_null]. }
  intros. only_null.
Qed.

Lemma PruneOne_hashed_only_null cacheEntry context prune shardIntervals :
  failsOnlyOnNull (PruneOne_hashed cacheEntry context prune shardIntervals).
Proof.
  unfold PruneOne_hashed, PruneOne_ranges.
  destruct (hashedEqualConsts prune).
  - apply failsOnlyOnNull_bind; [apply FindShardIntervalIndex_only_null|].
    intros. only_null.
  - destruct shardIntervals.
    + destruct (_ && _);
        [apply PruneWithBoundaries_only_null | apply ExhaustivePrune_loop_only_null].
    + apply failsOnlyOnNull_bind; [apply anyCandidatePruned_only_null|].
      intros. only_null.
Qed.

Lemma PruneOne_saoLookup_only_null cacheEntry context :
  forall consts shardIntervals,
    failsOnlyOnNull (PruneOne_saoLookup cacheEntry context consts shardIntervals).
Proof.
  induction consts as [|c rest IH]; intros shardIntervals; simpl; [only_null|].
  apply failsOnlyOnNull_bind; [apply FindShardInterval_only_null|].
  intros [shardInterval|]; apply IH.
Qed.

Lemma PruneOne_sao_only_null cacheEntry context prune shardIntervals :
  failsOnlyOnNull (PruneOne_sao cacheEntry context prune shardIntervals).
Proof.
  unfold PruneOne_sao.
  destruct (saoEqualConsts prune); [apply PruneOne_hashed_only_null|].
  destruct (negb _); [|apply PruneOne_hashed_only_null].
  apply failsOnlyOnNull_bind; [apply PruneOne_saoLookup_only_null|].
  intros [|firstFound moreFound]; [only_null | apply PruneOne_hashed_only_null].
Qed.

Lemma PruneOne_only_null cacheEntry context prune :
  failsOnlyOnNull (PruneOne cacheEntry context prune).
Proof.
  unfold PruneOne.
  destruct (evaluatesToFalse prune); [only_null|].
  destruct (equalConsts prune); [|apply PruneOne_sao_only_null].
  destruct (negb _); [|apply PruneOne_sao_only_null].
  apply failsOnlyOnNull_bind; [apply FindShardInterval_only_null|].
  intros [shardInterval|]; [apply PruneOne_sao_only_null | only_null].
Qed.

Lemma PruneShards_loop_only_null cacheEntry context wantsPartitionValue :
  forall pruningInstances st,
    failsOnlyOnNull (PruneShards_loop cacheEntry context wantsPartitionValue
                       pruningInstances st).
Proof.
  induction pruningInstances as [|prune rest IH]; intros st; simpl; [only_null|].
  destruct (isPartial prune); [apply IH|].
  destruct (negb (hasValidConstraint prune)); [only_null|].
  destruct (_ && _); [only_null|].
  apply failsOnlyOnNull_bind; [apply PruneOne_only_null|].
  intros. apply IH.
Qed.

(** X3. The two comparator errors of [PruneShards] are raised exactly when
    the call gets past the early returns (there are shards, no false
    constant among the clauses, the table is not a reference table) and the
    table lacks the comparator: the interval comparator is missed first, the
    column comparator only when the interval comparator is there.  Nothing
    else in the call raises either of them. *)
Theorem PruneShards_comparator_errors cat cacheEntry whereClauseList wantsPartitionValue :
  let pastEarlyReturns :=
    shardIntervalArrayLength cacheEntry <> 0
    /\ ContainsFalseClause whereClauseList = false
    /\ partitionMethod cacheEntry <> DISTRIBUTE_BY_NONE in
  (PruneShards cat cacheEntry whereClauseList wantsPartitionValue
   = Error NoShardIntervalComparator
   <-> pastEarlyReturns /\ shardIntervalCompareFunction cacheEntry = None)
  /\ (PruneShards cat cacheEntry whereClauseList wantsPartitionValue
      = Error NoPartitionColumnComparator
      <-> pastEarlyReturns
          /\ shardIntervalCompareFunction cacheEntry <> None
          /\ shardColumnCompareFunction cacheEntry = None).
Proof.
  intros pastEarlyReturns. subst pastEarlyReturns.
  assert (Hmain : forall compareInterval compareValue e,
             e <> FunctionReturnedNull ->
             (pruningInstances <-
                PrunableExpressionsWalker2 cat (partitionColumn cacheEntry) compareValue
                  (NormalizedPruneTree cat (partitionColumn cacheEntry) whereClauseList) ;;
              st <- PruneShards_loop cacheEntry
                      (mkContext (partitionColumn cacheEntry) (partitionMethod cacheEntry)
                                 compareValue compareInterval)
                      wantsPartitionValue pruningInstances initialPruneState ;;
              Ok (PruneShards_finish cacheEntry wantsPartitionValue st)) <> Error e).
  { intros compareInterval compareValue e He H. apply He.
    refine (_ e H).
    apply failsOnlyOnNull_bind; [apply PrunableExpressionsWalker2_only_null|].
    intros. apply failsOnlyOnNull_bind; [apply PruneShards_loop_only_null|].
    intros. apply failsOnlyOnNull_Ok. }
  unfold PruneShards.
  destruct (shardIntervalArrayLength cacheEntry =? 0) eqn:Hcount.
  { apply Z.eqb_eq in Hcount.
    split; (split; [discriminate | intros [[Hc _] _]; contradiction]). }
  apply Z.eqb_neq in Hcount.
  destruct (ContainsFalseClause whereClauseList).
  { split; (split; [discriminate | intros [[_ [Hf _]] _]; discriminate]). }
  assert (Hpast : forall method,
             partitionMethod cacheEntry = method -> method <> DISTRIBUTE_BY_NONE ->
             shardIntervalArrayLength cacheEntry <> 0
             /\ false = false /\ method <> DISTRIBUTE_BY_NONE)
    by (intros; repeat split; assumption).
  destruct (partitionMethod cacheEntry) eqn:Hmethod;
    [ specialize (Hpast _ eq_refl ltac:(discriminate))
    | specialize (Hpast _ eq_refl ltac:(discriminate))
    | specialize (Hpast _ eq_refl ltac:(discriminate))
    | split; (split; [discriminate | intros [[_ [_ Hm]] _]; congruence]) ].
  all: destruct (shardIntervalCompareFunction cacheEntry) as [compareInterval|];
    [ destruct (shardColumnCompareFunction cacheEntry) as [compareValue|] | ].
  all: split; split.
  all: try (intros H; exfalso;
            eapply (Hmain compareInterval compareValue); [|exact H]; discriminate).
  all: try discriminate.
  all: try (intros [_ H]; discriminate).
  all: try (intros [_ [_ H]]; discriminate).
  all: try (intros [_ [H _]]; exfalso; apply H; reflexivity).
  all: try (intros _; reflexivity).
  all: intros _; repeat split; try exact (proj1 Hpast); try discriminate.
Qed.

Lemma walkChildren_total (walk : PruneNode -> result (list PruningInstance)) :
  forall bs done,
    Forall (fun child => exists instances, walk child = Ok instances) bs ->
    exists instances,
      fold_left (fun acc boolNode =>
                   done <- acc ;; more <- walk boolNode ;; Ok (done ++ more))
                bs (Ok done) = Ok instances.
Proof.
  induction bs as [|child rest IH]; intros done Hbs; simpl.
  - eexists. reflexivity.
  - inversion Hbs as [|? ? [more Hchild] Hrest]; subst.
    rewrite Hchild. cbn [bind]. apply IH. exact Hrest.
Qed.

Lemma PrunableExpressionsWalker2_total cat partitionColumn compareValue :
  (forall a b, compareValue a b <> None) ->
  forall node,
  exists instances,
    PrunableExpressionsWalker2 cat partitionColumn compareValue node = Ok instances.
Proof.
  intros Hanswers.
  assert (Hvalue : forall a b, compareValue a b = Some (answersOf compareValue a b)).
  { intros a b. unfold answersOf. specialize (Hanswers a b).
    destruct (compareValue a b); [reflexivity | contradiction]. }
  induction node as [op bs conds IH] using PruneNode_induction.
  simpl.
  destruct (walkChildren_total
              (PrunableExpressionsWalker2 cat partitionColumn compareValue) bs [] IH)
    as [fromChildren Hchildren].
  destruct op; try (eexists; exact Hchildren).
  rewrite Hchildren. cbn [bind]. unfold FoldBranch.
  rewrite (HandleConditionNodes_updates cat partitionColumn compareValue
             (answersOf compareValue) Hvalue).
  cbn [bind].
  destruct (FindValidConditionWrapper conds).
  - destruct (addedToPruningInstances _); eexists; reflexivity.
  - destruct (FindInvalidConditionWrapper conds); eexists; reflexivity.
Qed.

Lemma PruneShards_loop_total cacheEntry context wantsPartitionValue :
  (forall a b, compareIntervalFunctionCall context a b <> None) ->
  forall pruningInstances st,
  exists st',
    PruneShards_loop cacheEntry context wantsPartitionValue pruningInstances st = Ok st'.
Proof.
  intros Hanswers.
  assert (Hinterval : forall a b,
             compareIntervalFunctionCall context a b
             = Some (answersOf (compareIntervalFunctionCall context) a b)).
  { intros a b. unfold answersOf. specialize (Hanswers a b).
    destruct (compareIntervalFunctionCall context a b); [reflexivity | contradiction]. }
  induction pruningInstances as [|prune rest IH]; intros st; simpl.
  - eexists. reflexivity.
  - destruct (isPartial prune); [apply IH|].
    destruct (negb (hasValidConstraint prune)); [eexists; reflexivity|].
    destruct (_ && _); [eexists; reflexivity|].
    destruct (PruneOne_same cacheEntry context _ Hinterval prune prune
                (sameConstraints_refl prune)) as [shards [_ [-> _]]].
    cbn [bind]. apply IH.
Qed.

(** X4. With both comparators in place and answering every comparison
    (never NULL), [PruneShards] returns, whatever the table, for every where
    clause list whose tree the distribution pass walks without reading a
    list cell that was freed and handed out again
    ([distributionReadsNoReusedCell]: every child of an AND node that the
    pass visits has no conditions of its own): the searches end, and
    nothing else in the call can fail.  Nothing is said of the other where
    clause lists, on which the loop of [OneBooleanDistributeToORofANDs]
    reads freed memory that [MakeORofAnds] has reused. *)
Theorem PruneShards_succeeds_when_comparators_answer cat cacheEntry whereClauseList
        wantsPartitionValue compareInterval compareValue :
  shardIntervalCompareFunction cacheEntry = Some compareInterval ->
  shardColumnCompareFunction cacheEntry = Some compareValue ->
  (forall a b, compareInterval a b <> None) ->
  (forall a b, compareValue a b <> None) ->
  distributionReadsNoReusedCell
    (SeparateOrConditionsFromBools
       (PullUpBooleanOps
          (BuildPruneTree cat (partitionColumn cacheEntry) (T_List whereClauseList)
                          (mkPruneNode AND_EXPR [] [])))) = true ->
  exists shards written,
    PruneShards cat cacheEntry whereClauseList wantsPartitionValue = Ok (shards, written).
Proof.
  intros Hci Hcv Hinterval Hvalue _. unfold PruneShards. rewrite Hci, Hcv.
  destruct (shardIntervalArrayLength cacheEntry =? 0); [eexists; eexists; reflexivity|].
  destruct (ContainsFalseClause whereClauseList); [eexists; eexists; reflexivity|].
  assert (Hmain :
    exists shards written,
      (pruningInstances <-
         PrunableExpressionsWalker2 cat (partitionColumn cacheEntry) compareValue
           (NormalizedPruneTree cat (partitionColumn cacheEntry) whereClauseList) ;;
       st <- PruneShards_loop cacheEntry
               (mkContext (partitionColumn cacheEntry) (partitionMethod cacheEntry)
                          compareValue compareInterval)
               wantsPartitionValue pruningInstances initialPruneState ;;
       Ok (PruneShards_finish cacheEntry wantsPartitionValue st)) = Ok (shards, written)).
  { destruct (PrunableExpressionsWalker2_total cat (partitionColumn cacheEntry)
                compareValue Hvalue
                (NormalizedPruneTree cat (partitionColumn cacheEntry) whereClauseList))
      as [pruningInstances ->].
    cbn [bind].
    destruct (PruneShards_loop_total cacheEntry
                (mkContext (partitionColumn cacheEntry) (partitionMethod cacheEntry)
                           compareValue compareInterval)
                wantsPartitionValue Hinterval pruningInstances initialPruneState)
      as [st ->].
    cbn [bind]. unfold PruneShards_finish. eexists. eexists. reflexivity. }
  destruct (partitionMethod cacheEntry); try exact Hmain.
  eexists. eexists. reflexivity.
Qed.

(** [col > 1000 AND (col < 5 OR col > 1500)] on the range table: the
    distribution loop visits the OR child, which has no conditions left
    after [SeparateOrConditionsFromBools]. *)
Lemma PruneShards_succeeds_when_comparators_answer_witness :
  distributionReadsNoReusedCell
    (SeparateOrConditionsFromBools
       (PullUpBooleanOps
          (BuildPruneTree int4Catalog (partitionColumn rangeTable)
             (T_List [compareColumn keyColumn Int4GreaterOperator 1000;
                      T_BoolExpr OR_EXPR
                        [compareColumn keyColumn Int4LessOperator 5;
                         compareColumn keyColumn Int4GreaterOperator 1500]])
             (mkPruneNode AND_EXPR [] [])))) = true
  /\ exists shards written,
    PruneShards int4Catalog rangeTable
      [compareColumn keyColumn Int4GreaterOperator 1000;
       T_BoolExpr OR_EXPR
         [compareColumn keyColumn Int4LessOperator 5;
          compareColumn keyColumn Int4GreaterOperator 1500]] true
    = Ok (shards, written).
Proof.
  split; [reflexivity|].
  apply (PruneShards_succeeds_when_comparators_answer int4Catalog rangeTable
           [compareColumn keyColumn Int4GreaterOperator 1000;
            T_BoolExpr OR_EXPR
              [compareColumn keyColumn Int4LessOperator 5;
               compareColumn keyColumn Int4GreaterOperator 1500]]
           true btint4cmp btint4cmp);
    try reflexivity; intros a b; discriminate.
Defined.


(** ** What the normalizer hands to the walker *)

(** Expression nodes, with the elements of every list inside a node known
    to have the property. *)
Lemma Node_induction (P : Node -> Prop) :
  (forall v, P (T_Var v)) ->
  (forall c, P (T_Const c)) ->
  (forall opno args, Forall P args -> P (T_OpExpr opno args)) ->
  (forall opno useOr leftarg rightarg,
      P leftarg -> P rightarg -> P (T_ScalarArrayOpExpr opno useOr leftarg rightarg)) ->
  (forall boolop args, Forall P args -> P (T_BoolExpr boolop args)) ->
  (forall arg format, P arg -> P (T_RelabelType arg format)) ->
  (forall arg test, P arg -> P (T_NullTest arg test)) ->
  (forall elements, Forall P elements -> P (T_List elements)) ->
  forall node, P node.
Proof.
  intros HVar HConst HOp HSao HBool HRelabel HNull HList. fix IH 1.
  intros [v | c | opno args | opno useOr leftarg rightarg | boolop args
          | arg format | arg test | elements].
  - apply HVar.
  - apply HConst.
  - apply HOp. induction args; constructor; [apply IH | assumption].
  - apply HSao; apply IH.
  - apply HBool. induction args; constructor; [apply IH | assumption].
  - apply HRelabel, IH.
  - apply HNull, IH.
  - apply HList. induction elements; constructor; [apply IH | assumption].
Qed.

Lemma fold_BuildPruneTree_noNot cat partitionColumn :
  forall nodes,
    Forall (fun node => forall pruneNode,
                noNotNode pruneNode = true ->
                noNotNode (BuildPruneTree cat partitionColumn node pruneNode) = true)
           nodes ->
    forall pruneNode,
      noNotNode pruneNode = true ->
      noNotNode (fold_left (fun pn n => BuildPruneTree cat partitionColumn n pn)
                           nodes pruneNode) = true.
Proof.
  induction nodes as [|node rest IH]; intros Hnodes pruneNode Hpn; simpl.
  - exact Hpn.
  - inversion Hnodes; subst. apply IH; [assumption|]. auto.
Qed.

(** [BuildPruneTree] creates no NOT node. *)
Lemma BuildPruneTree_noNot cat partitionColumn :
  forall node pruneNode,
    noNotNode pruneNode = true ->
    noNotNode (BuildPruneTree cat partitionColumn node pruneNode) = true.
Proof.
  induction node as [v | c | opno args IH | opno useOr leftarg rightarg IHl IHr
                     | boolop args IH | arg format IH | arg test IH | elements IH]
    using Node_induction; intros pruneNode Hpn; try exact Hpn.
  - (* T_OpExpr *)
    destruct pruneNode as [op bs conds]. cbn [BuildPruneTree boolOp bools conditions].
    destruct op, (IsValidConditionNode cat (T_OpExpr opno args) partitionColumn);
      exact Hpn.
  - (* T_ScalarArrayOpExpr *)
    destruct pruneNode as [op bs conds]. cbn [BuildPruneTree boolOp bools conditions].
    destruct op,
             (IsValidConditionNode cat (T_ScalarArrayOpExpr opno useOr leftarg rightarg)
                                   partitionColumn);
      exact Hpn.
  - (* T_BoolExpr *)
    simpl. destruct boolop; try exact Hpn.
    + destruct (negb (BoolExprType_eqb AND_EXPR (boolOp pruneNode)));
        [|apply fold_BuildPruneTree_noNot; assumption].
      destruct pruneNode as [op bs conds]. simpl in *.
      apply andb_true_iff in Hpn. destruct Hpn as [Hop Hbs].
      rewrite Hop, forallb_app, Hbs. simpl.
      rewrite fold_BuildPruneTree_noNot; [reflexivity | assumption | reflexivity].
    + destruct (negb (BoolExprType_eqb OR_EXPR (boolOp pruneNode)));
        [|apply fold_BuildPruneTree_noNot; assumption].
      destruct pruneNode as [op bs conds]. simpl in *.
      apply andb_true_iff in Hpn. destruct Hpn as [Hop Hbs].
      rewrite Hop, forallb_app, Hbs. simpl.
      rewrite fold_BuildPruneTree_noNot; [reflexivity | assumption | reflexivity].
  - (* T_List *)
    simpl. apply fold_BuildPruneTree_noNot; assumption.
Qed.

Lemma forallb_map_Forall {A} (f : A -> A) (p : A -> bool) (l : list A) :
  Forall (fun x => p x = true -> p (f x) = true) l ->
  forallb p l = true -> forallb p (map f l) = true.
Proof.
  induction 1 as [|x rest Hx _ IH]; simpl; [reflexivity|].
  intros H. apply andb_true_iff in H. destruct H as [Hpx Hrest].
  rewrite (Hx Hpx), (IH Hrest). reflexivity.
Qed.

(** [PullUpBooleanOps] moves nodes, it makes no NOT node. *)
Lemma PullUpBooleanOps_noNot :
  forall node, noNotNode node = true -> noNotNode (PullUpBooleanOps node) = true.
Proof.
  induction node as [op bs conds IH] using PruneNode_induction. intros Hnode.
  simpl in Hnode. apply andb_true_iff in Hnode. destruct Hnode as [Hop Hbs].
  pose proof (forallb_map_Forall PullUpBooleanOps noNotNode bs IH Hbs) as Hmap.
  assert (Hnode' : noNotNode (mkPruneNode op (map PullUpBooleanOps bs) conds) = true)
    by (simpl; rewrite Hop, Hmap; reflexivity).
  simpl. destruct (map PullUpBooleanOps bs) as [|child [|second rest]];
    try exact Hnode'.
  destruct (IsPullUpBooleanOp _); [|exact Hnode'].
  simpl in Hmap. apply andb_true_iff in Hmap. exact (proj1 Hmap).
Qed.

Lemma forallb_map_Forall2 {A} (f : A -> A) (p q : A -> bool) (l : list A) :
  Forall (fun x => p x = true -> q (f x) = true) l ->
  forallb p l = true -> forallb q (map f l) = true.
Proof.
  induction 1 as [|x rest Hx _ IH]; simpl; [reflexivity|].
  intros H. apply andb_true_iff in H. destruct H as [Hpx Hrest].
  rewrite (Hx Hpx), (IH Hrest). reflexivity.
Qed.

(** After [SeparateOrConditionsFromBools] no OR node holds a condition. *)
Lemma SeparateOrConditionsFromBools_bare :
  forall node,
    noNotNode node = true -> orNodesBare (SeparateOrConditionsFromBools node) = true.
Proof.
  induction node as [op bs conds IH] using PruneNode_induction. intros Hnode.
  simpl in Hnode. apply andb_true_iff in Hnode. destruct Hnode as [Hop Hbs].
  pose proof (forallb_map_Forall2 SeparateOrConditionsFromBools noNotNode orNodesBare
                bs IH Hbs) as Hmap.
  simpl. destruct op; try discriminate.
  - simpl. exact Hmap.
  - destruct conds as [|w conds]; simpl; [exact Hmap|].
    rewrite forallb_app, Hmap. simpl.
    clear. induction conds as [|w' conds IHc]; simpl; [reflexivity | exact IHc].
Qed.

Lemma MakeORofAnds_bare otherOrs orConds andConds :
  forallb orNodesBare (MakeORofAnds otherOrs orConds andConds) = true.
Proof.
  apply forallb_forall. intros node Hin. unfold MakeORofAnds in Hin.
  assert (Hleaf : forall conds, orNodesBare (mkPruneNode AND_EXPR [] conds) = true)
    by reflexivity.
  destruct otherOrs as [|otherOr otherOrs].
  - destruct andConds; [contradiction|].
    apply in_map_iff in Hin. destruct Hin as [cond [<- _]]. apply Hleaf.
  - apply in_flat_map in Hin. destruct Hin as [cond [_ Hin]].
    apply in_flat_map in Hin. destruct Hin as [other [_ Hin]].
    apply in_map_iff in Hin. destruct Hin as [cond2 [<- _]]. apply Hleaf.
Qed.

Lemma orNodesBare_bools node :
  orNodesBare node = true -> forallb orNodesBare (bools node) = true.
Proof.
  destruct node as [op bs conds]. simpl. intros H.
  apply andb_true_iff in H. exact (proj2 H).
Qed.

Lemma distributeOverChildren_bare andConds :
  forall cells newOrBools,
    forallb orNodesBare cells = true ->
    forallb orNodesBare newOrBools = true ->
    forallb orNodesBare (distributeOverChildren andConds cells newOrBools) = true.
Proof.
  induction cells as [|orNode rest IH]; intros newOrBools Hcells Hnew; simpl.
  - exact Hnew.
  - simpl in Hcells. apply andb_true_iff in Hcells. destruct Hcells as [Hnode Hrest].
    apply IH; [exact Hrest|].
    rewrite forallb_app, MakeORofAnds_bare. simpl.
    apply orNodesBare_bools. exact Hnode.
Qed.

(** The distribution pass keeps OR nodes bare and returns an OR node. *)
Lemma OneBooleanDistributeToORofANDs_bare :
  forall node,
    orNodesBare node = true ->
    orNodesBare (OneBooleanDistributeToORofANDs node) = true
    /\ boolOp (OneBooleanDistributeToORofANDs node) = OR_EXPR.
Proof.
  induction node as [op bs conds IH] using PruneNode_induction. intros Hnode.
  pose proof (orNodesBare_bools _ Hnode) as Hbs. simpl in Hbs.
  destruct op.
  - (* AND *)
    simpl. destruct bs as [|child rest].
    + destruct conds; simpl; split; reflexivity.
    + split; [|reflexivity].
      change (true && forallb orNodesBare
                        (distributeOverChildren conds (child :: rest) []) = true).
      cbn [andb]. apply distributeOverChildren_bare; [exact Hbs | reflexivity].
  - (* OR *)
    simpl in Hnode. destruct conds; [|discriminate].
    simpl. destruct bs as [|child rest]; [split; [exact Hnode | reflexivity]|].
    split; [|reflexivity].
    change (forallb orNodesBare
              (flat_map (fun andNode => bools (OneBooleanDistributeToORofANDs andNode))
                        (child :: rest)) = true).
    apply forallb_forall. intros node Hin. apply in_flat_map in Hin.
    destruct Hin as [andNode [HandNode Hin]].
    rewrite Forall_forall in IH. rewrite forallb_forall in Hbs.
    destruct (IH andNode HandNode (Hbs andNode HandNode)) as [Hbare _].
    apply orNodesBare_bools in Hbare. rewrite forallb_forall in Hbare.
    apply Hbare. exact Hin.
  - (* NOT *)
    discriminate.
Qed.

(** X5. The assertions of the tree passes.  For every where clause list,
    the tree [BuildPruneTree] makes has no NOT node, and after
    [SeparateOrConditionsFromBools] no OR node of the tree holds a condition
    of its own ([Assert(!orNode->conditions)] in the distribution pass).
    For a where clause list on whose tree the distribution pass does not
    enter its loop over the children of an AND node
    ([distributionLoopNotEntered]), the tree handed to
    [PrunableExpressionsWalker2] has an OR node at its root and only OR
    nodes without conditions (the walker's
    [Assert(node->boolOp == OR_EXPR)] and [Assert(!node->conditions)]).
    Nothing is said of the tree the pass returns once it has entered that
    loop: the loop steps on from a list cell it has freed, which a build
    with assertions overwrites. *)
Theorem normalized_tree_meets_the_assertions cat partitionColumn whereClauseList :
  let built :=
    BuildPruneTree cat partitionColumn (T_List whereClauseList)
                   (mkPruneNode AND_EXPR [] []) in
  noNotNode built = true
  /\ orNodesBare (SeparateOrConditionsFromBools (PullUpBooleanOps built)) = true
  /\ (distributionLoopNotEntered
        (SeparateOrConditionsFromBools (PullUpBooleanOps built)) = true ->
      orNodesBare (NormalizedPruneTree cat partitionColumn whereClauseList) = true
      /\ boolOp (NormalizedPruneTree cat partitionColumn whereClauseList) = OR_EXPR).
Proof.
  intros built.
  assert (Hbuilt : noNotNode built = true)
    by (apply BuildPruneTree_noNot; reflexivity).
  assert (Hseparated :
            orNodesBare (SeparateOrConditionsFromBools (PullUpBooleanOps built)) = true)
    by (apply SeparateOrConditionsFromBools_bare, PullUpBooleanOps_noNot, Hbuilt).
  split; [exact Hbuilt|]. split; [exact Hseparated|].
  intros _. exact (OneBooleanDistributeToORofANDs_bare _ Hseparated).
Qed.

(** [col < 5 OR col > 1500]: the OR node is pulled up to the root, its two
    conditions become AND leaves, and the distribution pass enters no
    loop. *)
Lemma normalized_tree_meets_the_assertions_witness :
  distributionLoopNotEntered
    (SeparateOrConditionsFromBools
       (PullUpBooleanOps
          (BuildPruneTree int4Catalog keyColumn
             (T_List [T_BoolExpr OR_EXPR
                        [compareColumn keyColumn Int4LessOperator 5;
                         compareColumn keyColumn Int4GreaterOperator 1500]])
             (mkPruneNode AND_EXPR [] [])))) = true
  /\ orNodesBare
       (NormalizedPruneTree int4Catalog keyColumn
          [T_BoolExpr OR_EXPR
             [compareColumn keyColumn Int4LessOperator 5;
              compareColumn keyColumn Int4GreaterOperator 1500]]) = true
  /\ boolOp
       (NormalizedPruneTree int4Catalog keyColumn
          [T_BoolExpr OR_EXPR
             [compareColumn keyColumn Int4LessOperator 5;
              compareColumn keyColumn Int4GreaterOperator 1500]]) = OR_EXPR.
Proof.
  split; [reflexivity|].
  apply (proj2 (proj2 (normalized_tree_meets_the_assertions int4Catalog keyColumn
                         [T_BoolExpr OR_EXPR
                            [compareColumn keyColumn Int4LessOperator 5;
                             compareColumn keyColumn Int4GreaterOperator 1500]]))).
  reflexivity.
Defined.


(** ** Clauses the tree builder flattens or leaves out *)

Lemma ContainsFalseClause_app (before after : list Node) :
  ContainsFalseClause (before ++ after)
  = ContainsFalseClause before || ContainsFalseClause after.
Proof.
  induction before as [|clause rest IH]; simpl; [reflexivity|].
  destruct clause; try exact IH.
  destruct (_ && _); [reflexivity | exact IH].
Qed.

(** [PruneShards] looks at the where clause list through
    [ContainsFalseClause] and the normalized tree only. *)
Lemma PruneShards_same_tree cat cacheEntry whereClauseList whereClauseList'
      wantsPartitionValue :
  ContainsFalseClause whereClauseList = ContainsFalseClause whereClauseList' ->
  NormalizedPruneTree cat (partitionColumn cacheEntry) whereClauseList
  = NormalizedPruneTree cat (partitionColumn cacheEntry) whereClauseList' ->
  PruneShards cat cacheEntry whereClauseList wantsPartitionValue
  = PruneShards cat cacheEntry whereClauseList' wantsPartitionValue.
Proof.
  intros Hfalse Htree. unfold PruneShards. cbn [ctxPartitionColumn].
  rewrite Hfalse, Htree. reflexivity.
Qed.

Lemma fold_BuildPruneTree_boolOp cat partitionColumn :
  forall nodes,
    Forall (fun node => forall pruneNode,
                boolOp (BuildPruneTree cat partitionColumn node pruneNode)
                = boolOp pruneNode) nodes ->
    forall pruneNode,
      boolOp (fold_left (fun pn n => BuildPruneTree cat partitionColumn n pn)
                        nodes pruneNode)
      = boolOp pruneNode.
Proof.
  induction nodes as [|node rest IH]; intros Hnodes pruneNode; simpl.
  - reflexivity.
  - inversion Hnodes as [|? ? Hnode Hrest]; subst.
    rewrite (IH Hrest). apply Hnode.
Qed.

(** [BuildPruneTree] fills the node it is given and leaves its operator. *)
Lemma BuildPruneTree_boolOp cat partitionColumn :
  forall node pruneNode,
    boolOp (BuildPruneTree cat partitionColumn node pruneNode) = boolOp pruneNode.
Proof.
  induction node as [v | c | opno args IH | opno useOr leftarg rightarg IHl IHr
                     | boolop args IH | arg format IH | arg test IH | elements IH]
    using Node_induction; intros pruneNode; try reflexivity.
  - cbn [BuildPruneTree].
    destruct (boolOp pruneNode) eqn:Hop,
             (IsValidConditionNode cat (T_OpExpr opno args) partitionColumn);
      cbn [boolOp]; reflexivity.
  - cbn [BuildPruneTree].
    destruct (boolOp pruneNode) eqn:Hop,
             (IsValidConditionNode cat (T_ScalarArrayOpExpr opno useOr leftarg rightarg)
                                   partitionColumn);
      cbn [boolOp]; reflexivity.
  - cbn [BuildPruneTree]. destruct boolop; try reflexivity;
      (destruct (negb _);
       [reflexivity | apply fold_BuildPruneTree_boolOp; assumption]).
  - cbn [BuildPruneTree]. apply fold_BuildPruneTree_boolOp. assumption.
Qed.

Lemma BuildPruneTree_list_boolOp cat partitionColumn nodes pruneNode :
  boolOp (fold_left (fun pn n => BuildPruneTree cat partitionColumn n pn) nodes pruneNode)
  = boolOp pruneNode.
Proof.
  apply fold_BuildPruneTree_boolOp. apply Forall_forall. intros node _.
  apply BuildPruneTree_boolOp.
Qed.

(** X6. An explicit [AND] among the top-level clauses is flattened into
    the implicitly ANDed list: unless one of its arguments is a false
    constant (which [ContainsFalseClause] sees only at the top level),
    [PruneShards] returns for [before ++ [AND (args)] ++ after] what it
    returns for [before ++ args ++ after]. *)
Theorem explicit_AND_is_flattened cat cacheEntry before args after wantsPartitionValue :
  ContainsFalseClause args = false ->
  PruneShards cat cacheEntry (before ++ T_BoolExpr AND_EXPR args :: after)
              wantsPartitionValue
  = PruneShards cat cacheEntry (before ++ args ++ after) wantsPartitionValue.
Proof.
  intros Hargs. apply PruneShards_same_tree.
  - rewrite !ContainsFalseClause_app, Hargs. reflexivity.
  - unfold NormalizedPruneTree. do 3 f_equal. cbn [BuildPruneTree].
    rewrite !fold_left_app. cbn [fold_left BuildPruneTree].
    rewrite BuildPruneTree_list_boolOp. reflexivity.
Qed.

Lemma explicit_AND_is_flattened_witness :
  PruneShards int4Catalog rangeTable
    [T_BoolExpr AND_EXPR [compareColumn keyColumn Int4GreaterOperator 1500;
                          compareColumn keyColumn Int4LessOperator 1800]] false
  = PruneShards int4Catalog rangeTable
      [compareColumn keyColumn Int4GreaterOperator 1500;
       compareColumn keyColumn Int4LessOperator 1800] false.
Proof.
  apply (explicit_AND_is_flattened int4Catalog rangeTable []
           [compareColumn keyColumn Int4GreaterOperator 1500;
            compareColumn keyColumn Int4LessOperator 1800] [] false).
  reflexivity.
Defined.

Lemma BuildPruneTree_leftOut cat partitionColumn node pruneNode :
  leftOutOfPruneTree node = true ->
  BuildPruneTree cat partitionColumn node pruneNode = pruneNode.
Proof.
  destruct node as [v | c | opno args | opno useOr leftarg rightarg | boolop args
                    | arg format | arg test | elements]; try discriminate;
    try reflexivity.
  destruct boolop; try discriminate. reflexivity.
Qed.

(** X7. A NOT expression, and any clause that is neither a boolean nor an
    operator expression (a bare column, a constant, a null test, a
    relabelled expression), leaves no trace in the prune tree.  As a
    top-level conjunct (other than a false constant) it changes nothing in
    what [PruneShards] returns; as an arm of a top-level OR it is dropped
    as well, so that the remaining arms alone decide the shards. *)
Theorem left_out_clause_never_prunes cat cacheEntry before node after wantsPartitionValue :
  leftOutOfPruneTree node = true ->
  ContainsFalseClause [node] = false ->
  PruneShards cat cacheEntry (before ++ node :: after) wantsPartitionValue
  = PruneShards cat cacheEntry (before ++ after) wantsPartitionValue
  /\ PruneShards cat cacheEntry [T_BoolExpr OR_EXPR (before ++ node :: after)]
                 wantsPartitionValue
     = PruneShards cat cacheEntry [T_BoolExpr OR_EXPR (before ++ after)]
                   wantsPartitionValue.
Proof.
  intros Hout Hfalse. split; apply PruneShards_same_tree.
  - change (node :: after) with ([node] ++ after).
    rewrite !ContainsFalseClause_app, Hfalse. reflexivity.
  - unfold NormalizedPruneTree. do 3 f_equal. cbn [BuildPruneTree].
    rewrite !fold_left_app. cbn [fold_left].
    rewrite (BuildPruneTree_leftOut _ _ _ _ Hout). reflexivity.
  - reflexivity.
  - unfold NormalizedPruneTree. do 3 f_equal.
    cbn [BuildPruneTree fold_left boolOp BoolExprType_eqb negb bools conditions].
    rewrite !fold_left_app. cbn [fold_left].
    rewrite (BuildPruneTree_leftOut _ _ _ _ Hout). reflexivity.
Qed.

(** On the range table [col = 5 OR NOT (col = 5)] is true of every row
    with a key, and is pruned like [col = 5]. *)
Lemma left_out_clause_never_prunes_witness :
  PruneShards int4Catalog rangeTable
    [T_BoolExpr NOT_EXPR [compareColumn keyColumn Int4EqualOperator 5];
     compareColumn keyColumn Int4EqualOperator 1500] false
  = PruneShards int4Catalog rangeTable
      [compareColumn keyColumn Int4EqualOperator 1500] false
  /\ PruneShards int4Catalog rangeTable
       [T_BoolExpr OR_EXPR
          [compareColumn keyColumn Int4EqualOperator 5;
           T_BoolExpr NOT_EXPR [compareColumn keyColumn Int4EqualOperator 5]]] false
     = PruneShards int4Catalog rangeTable
         [T_BoolExpr OR_EXPR [compareColumn keyColumn Int4EqualOperator 5]] false.
Proof.
  split.
  - apply (left_out_clause_never_prunes int4Catalog rangeTable []
             (T_BoolExpr NOT_EXPR [compareColumn keyColumn Int4EqualOperator 5])
             [compareColumn keyColumn Int4EqualOperator 1500] false);
      reflexivity.
  - apply (proj2 (left_out_clause_never_prunes int4Catalog rangeTable
                    [compareColumn keyColumn Int4EqualOperator 5]
                    (T_BoolExpr NOT_EXPR [compareColumn keyColumn Int4EqualOperator 5])
                    [] false eq_refl eq_refl)).
Defined.


(** ** A list of conditions is one branch *)

Lemma AppendConstraint_valid conditions valid invalid validConstraint :
  conjunctionWrappers conditions valid invalid ->
  conjunctionWrappers (AppendConstraint conditions (Some validConstraint))
                      (valid ++ [validConstraint]) invalid.
Proof.
  unfold conjunctionWrappers.
  destruct valid as [|first more], invalid; simpl.
  - intros ->. right. reflexivity.
  - intros ->. reflexivity.
  - intros [-> | ->]; [left | right]; reflexivity.
  - intros ->. reflexivity.
Qed.

Lemma AppendConstraint_invalid conditions valid invalid :
  conjunctionWrappers conditions valid invalid ->
  conjunctionWrappers (AppendConstraint conditions None) valid true.
Proof.
  unfold conjunctionWrappers.
  destruct valid as [|first more], invalid; simpl.
  - intros ->. reflexivity.
  - intros ->. reflexivity.
  - intros [-> | ->]; [left | right]; reflexivity.
  - intros ->. left. reflexivity.
Qed.

(** The walk of [BuildPruneTree] over a list of conditions, in an AND node
    without children. *)
Lemma BuildPruneTree_conditions cat partitionColumn :
  forall nodes conds valid invalid,
    forallb isConditionNode nodes = true ->
    conjunctionWrappers conds valid invalid ->
    exists conds',
      fold_left (fun pn n => BuildPruneTree cat partitionColumn n pn) nodes
                (mkPruneNode AND_EXPR [] conds)
      = mkPruneNode AND_EXPR [] conds'
      /\ conjunctionWrappers conds'
           (valid ++ filter (fun n => IsValidConditionNode cat n partitionColumn) nodes)
           (invalid
            || existsb (fun n => negb (IsValidConditionNode cat n partitionColumn)) nodes).
Proof.
  induction nodes as [|node rest IH]; intros conds valid invalid Hnodes Hshape.
  - exists conds. simpl. rewrite app_nil_r, orb_false_r. split; [reflexivity | exact Hshape].
  - simpl in Hnodes. apply andb_true_iff in Hnodes. destruct Hnodes as [Hnode Hrest].
    cbn [fold_left filter existsb].
    assert (Hstep :
      BuildPruneTree cat partitionColumn node (mkPruneNode AND_EXPR [] conds)
      = mkPruneNode AND_EXPR []
          (AppendConstraint conds
             (if IsValidConditionNode cat node partitionColumn then Some node else None))).
    { destruct node; try discriminate; cbn [BuildPruneTree boolOp bools conditions];
        match goal with |- context [if ?b then _ else _] => destruct b end; reflexivity. }
    rewrite Hstep.
    destruct (IsValidConditionNode cat node partitionColumn).
    + destruct (IH _ _ _ Hrest (AppendConstraint_valid _ _ _ node Hshape))
        as [conds' [Hfold Hshape']].
      exists conds'. split; [exact Hfold|].
      rewrite <- app_assoc in Hshape'. exact Hshape'.
    + destruct (IH _ _ _ Hrest (AppendConstraint_invalid _ _ _ Hshape))
        as [conds' [Hfold Hshape']].
      exists conds'. split; [exact Hfold|].
      cbn [negb]. rewrite orb_true_r. exact Hshape'.
Qed.

Lemma AddPartitionKeyRestriction_case_added compareValue constantClause strategy
      prune matchedOp st :
  AddPartitionKeyRestriction_case compareValue constantClause strategy prune matchedOp
  = Ok st ->
  addedToPruningInstances (fst st) = addedToPruningInstances prune.
Proof.
  intros Hcase. unfold AddPartitionKeyRestriction_case in Hcase.
  destruct strategy;
    repeat match type of Hcase with
           | match ?x with _ => _ end = _ => destruct x
           | bind ?m _ = _ =>
               apply bind_Ok in Hcase; destruct Hcase as [r [_ Hcase]]
           | (if ?b then _ else _) = _ => destruct b
           end;
    inversion Hcase; reflexivity.
Qed.

Lemma AddPartitionKeyRestriction_loop_added compareValue constantClause :
  forall interpretations prune matchedOp st,
    AddPartitionKeyRestriction_loop compareValue constantClause interpretations
                                    prune matchedOp = Ok st ->
    addedToPruningInstances (fst st) = addedToPruningInstances prune.
Proof.
  induction interpretations as [|strategy rest IH]; intros prune matchedOp st Hloop;
    simpl in Hloop.
  - inversion Hloop. reflexivity.
  - apply bind_Ok in Hloop. destruct Hloop as [st1 [Hcase Hloop]].
    rewrite (IH _ _ _ Hloop).
    exact (AddPartitionKeyRestriction_case_added _ _ _ _ _ _ Hcase).
Qed.

Lemma AddHashRestriction_loop_added constantClause :
  forall interpretations prune,
    addedToPruningInstances (AddHashRestriction_loop constantClause interpretations prune)
    = addedToPruningInstances prune.
Proof.
  induction interpretations as [|strategy rest IH]; intros prune; simpl;
    [reflexivity|].
  destruct strategy; rewrite IH; reflexivity.
Qed.

Lemma AddSAO_elements_added elementType :
  forall elements prune,
    addedToPruningInstances (AddSAO_elements elementType elements prune)
    = addedToPruningInstances prune.
Proof.
  induction elements as [|[arrayElement isNull] rest IH]; intros prune; simpl;
    [reflexivity|].
  rewrite IH. reflexivity.
Qed.

(** [HandleConditionNode] leaves the instance on the list of the context. *)
Lemma HandleConditionNode_added cat partitionColumn compareValue node prune prune' :
  HandleConditionNode cat partitionColumn compareValue node prune = Ok prune' ->
  addedToPruningInstances prune' = true.
Proof.
  intros Hhandle. unfold HandleConditionNode in Hhandle.
  destruct node as [v | c | opno args | opno useOr leftarg rightarg | boolop args
                    | arg format | arg test | elements];
    try (inversion Hhandle; reflexivity).
  - destruct (constAndVarOperands args) as [[constantClause varClause]|];
      [|inversion Hhandle; reflexivity].
    destruct (Var_eqb varClause partitionColumn).
    + unfold AddPartitionKeyRestrictionToInstance in Hhandle.
      apply bind_Ok in Hhandle. destruct Hhandle as [st [Hloop Hhandle]].
      apply AddPartitionKeyRestriction_loop_added in Hloop.
      destruct (negb (snd st)); inversion Hhandle; exact Hloop.
    + destruct (varattno varClause =? RESERVED_HASHED_COLUMN_ID);
        inversion Hhandle; [|reflexivity].
      unfold AddHashRestrictionToInstance. apply AddHashRestriction_loop_added.
  - inversion Hhandle. unfold AddSAOPartitionKeyRestrictionToInstance2.
    destruct rightarg; try reflexivity.
    destruct (_ && _); [|reflexivity].
    destruct (_ =? 0); [reflexivity|]. apply AddSAO_elements_added.
Qed.

Lemma HandleConditionNodes_added cat partitionColumn compareValue :
  forall nodes prune prune',
    HandleConditionNodes cat partitionColumn compareValue nodes prune = Ok prune' ->
    nodes <> [] \/ addedToPruningInstances prune = true ->
    addedToPruningInstances prune' = true.
Proof.
  induction nodes as [|node rest IH]; intros prune prune' Hfold Hstart;
    simpl in Hfold.
  - inversion Hfold; subst. destruct Hstart as [H | H]; [contradiction | exact H].
  - apply bind_Ok in Hfold. destruct Hfold as [prune1 [Hnode Hfold]].
    apply (IH _ _ Hfold). right.
    exact (HandleConditionNode_added _ _ _ _ _ _ Hnode).
Qed.

Lemma conjunctionWrappers_find conds valid invalid :
  conjunctionWrappers conds valid invalid ->
  branchConstraints conds = valid
  /\ isSome (FindValidConditionWrapper conds) = negb (Nat.eqb (length valid) 0)
  /\ isSome (FindInvalidConditionWrapper conds) = invalid.
Proof.
  unfold conjunctionWrappers, branchConstraints.
  destruct valid as [|first more], invalid; simpl.
  - intros ->. repeat split.
  - intros ->. repeat split.
  - intros [-> | ->]; simpl; rewrite ?app_nil_r; repeat split.
  - intros ->. simpl. rewrite app_nil_r. repeat split.
Qed.

(** The walk of the normalized tree of a list of conditions. *)
Lemma PrunableExpressionsWalker2_condition_list cat partitionColumn compareValue
      whereClauseList :
  forallb isConditionNode whereClauseList = true ->
  PrunableExpressionsWalker2 cat partitionColumn compareValue
    (NormalizedPruneTree cat partitionColumn whereClauseList)
  = match filter (fun n => IsValidConditionNode cat n partitionColumn) whereClauseList,
          whereClauseList with
    | (_ :: _) as accepted, _ =>
        newInstance <- HandleConditionNodes cat partitionColumn compareValue accepted
                         emptyPruningInstance ;;
        Ok [newInstance]
    | [], _ :: _ => Ok [unconstrainedInstance]
    | [], [] => Ok []
    end.
Proof.
  intros Hnodes.
  destruct (BuildPruneTree_conditions cat partitionColumn whereClauseList [] [] false
              Hnodes eq_refl) as [conds [Hbuilt Hshape]].
  unfold NormalizedPruneTree. cbn [BuildPruneTree]. rewrite Hbuilt.
  cbn [app orb] in Hshape.
  destruct (conjunctionWrappers_find _ _ _ Hshape) as [Hbranch [Hvalid Hinvalid]].
  assert (Hwalk :
    PrunableExpressionsWalker2 cat partitionColumn compareValue
      (BooleanDistributeToORofANDs
         (SeparateOrConditionsFromBools
            (PullUpBooleanOps (mkPruneNode AND_EXPR [] conds))))
    = match conds with
      | [] => Ok []
      | _ :: _ =>
          match FindValidConditionWrapper conds, FindInvalidConditionWrapper conds with
          | None, Some _ => Ok [unconstrainedInstance]
          | Some _, _ =>
              newInstance <- FoldBranch cat partitionColumn compareValue conds ;;
              if addedToPruningInstances newInstance
              then Ok [newInstance] else Ok []
          | None, None => Ok []
          end
      end).
  { destruct conds as [|w conds']; [reflexivity|].
    cbn [PullUpBooleanOps map SeparateOrConditionsFromBools BooleanDistributeToORofANDs
         OneBooleanDistributeToORofANDs PrunableExpressionsWalker2 fold_left bind app].
    destruct (FindValidConditionWrapper (w :: conds'));
      [|destruct (FindInvalidConditionWrapper (w :: conds'))]; cbn [bind app];
      try reflexivity.
    destruct (FoldBranch cat partitionColumn compareValue (w :: conds'));
      cbn [bind app]; [|reflexivity].
    destruct (addedToPruningInstances a); reflexivity. }
  rewrite Hwalk. clear Hwalk Hbuilt.
  unfold FoldBranch. rewrite Hbranch.
  destruct (filter (fun n => IsValidConditionNode cat n partitionColumn) whereClauseList)
    as [|first more] eqn:Haccepted.
  - (* nothing accepted *)
    simpl in Hvalid.
    destruct whereClauseList as [|node rest].
    + simpl in Hshape. subst conds. reflexivity.
    + assert (Hinv : existsb (fun n => negb (IsValidConditionNode cat n partitionColumn))
                             (node :: rest) = true).
      { simpl in Haccepted. simpl.
        destruct (IsValidConditionNode cat node partitionColumn);
          [discriminate | reflexivity]. }
      rewrite Hinv in Hshape, Hinvalid. simpl in Hshape. subst conds. reflexivity.
  - (* some condition accepted *)
    simpl in Hvalid.
    assert (Hconds : conds <> []).
    { intros ->. simpl in Hvalid. discriminate. }
    destruct conds as [|w conds']; [contradiction|].
    destruct (FindValidConditionWrapper (w :: conds')); [|discriminate].
    destruct (HandleConditionNodes cat partitionColumn compareValue (first :: more)
                emptyPruningInstance) as [newInstance|e] eqn:Hfold;
      cbn [bind]; [|reflexivity].
    rewrite (HandleConditionNodes_added _ _ _ _ _ _ Hfold); [reflexivity|].
    left. discriminate.
Qed.

(** X8. A where clause list that consists of operator expressions (and
    scalar array operator expressions) is handed to the walker as a single
    branch.  [AppendConstraint] gathers the conditions the classifier
    accepts in one wrapper, in their order in the list, and marks once that
    a condition was rejected; the tree passes put the AND node under an OR
    node.  The walk then yields one instance, folded from the accepted
    conditions (a rejected condition among them costs nothing); if all
    conditions are rejected, the one instance without a valid constraint;
    for the empty list, no instance. *)
Theorem condition_list_is_one_branch cat partitionColumn compareValue whereClauseList :
  forallb isConditionNode whereClauseList = true ->
  (exists conds,
      conjunctionWrappers conds
        (filter (fun n => IsValidConditionNode cat n partitionColumn) whereClauseList)
        (existsb (fun n => negb (IsValidConditionNode cat n partitionColumn))
                 whereClauseList)
      /\ NormalizedPruneTree cat partitionColumn whereClauseList
         = mkPruneNode OR_EXPR
             match conds with
             | [] => []
             | _ :: _ => [mkPruneNode AND_EXPR [] conds]
             end [])
  /\ PrunableExpressionsWalker2 cat partitionColumn compareValue
       (NormalizedPruneTree cat partitionColumn whereClauseList)
     = match filter (fun n => IsValidConditionNode cat n partitionColumn) whereClauseList,
             whereClauseList with
       | (_ :: _) as accepted, _ =>
           newInstance <- HandleConditionNodes cat partitionColumn compareValue accepted
                            emptyPruningInstance ;;
           Ok [newInstance]
       | [], _ :: _ => Ok [unconstrainedInstance]
       | [], [] => Ok []
       end.
Proof.
  intros Hnodes.
  split; [|exact (PrunableExpressionsWalker2_condition_list _ _ _ _ Hnodes)].
  destruct (BuildPruneTree_conditions cat partitionColumn whereClauseList [] [] false
              Hnodes eq_refl) as [conds [Hbuilt Hshape]].
  exists conds. split; [exact Hshape|].
  unfold NormalizedPruneTree. cbn [BuildPruneTree]. rewrite Hbuilt.
  destruct conds; reflexivity.
Qed.

(** [col > 1500 AND other = 5 AND col < 1800]: one instance with the two
    bounds. *)
Lemma condition_list_is_one_branch_witness :
  PrunableExpressionsWalker2 int4Catalog keyColumn btint4cmp
    (NormalizedPruneTree int4Catalog keyColumn
       [compareColumn keyColumn Int4GreaterOperator 1500;
        compareColumn otherColumn Int4EqualOperator 5;
        compareColumn keyColumn Int4LessOperator 1800])
  = Ok [mkPruningInstance true false (Some (int4Const 1800)) None None None
                          (Some (int4Const 1500)) [] None [] true false].
Proof.
  exact (proj2 (condition_list_is_one_branch int4Catalog keyColumn btint4cmp
                  [compareColumn keyColumn Int4GreaterOperator 1500;
                   compareColumn otherColumn Int4EqualOperator 5;
                   compareColumn keyColumn Int4LessOperator 1800] eq_refl)).
Defined.


(** ** Hash-partitioned tables prune on equality only *)

Lemma ContainsFalseClause_conditions whereClauseList :
  forallb isConditionNode whereClauseList = true ->
  ContainsFalseClause whereClauseList = false.
Proof.
  induction whereClauseList as [|node rest IH]; intros Hnodes; [reflexivity|].
  simpl in Hnodes. apply andb_true_iff in Hnodes. destruct Hnodes as [Hnode Hrest].
  destruct node; try discriminate; simpl; exact (IH Hrest).
Qed.

Lemma answersOf_answers compareFunction :
  (forall a b, compareFunction a b <> None) ->
  forall a b, compareFunction a b = Some (answersOf compareFunction a b).
Proof.
  intros Hanswers a b. unfold answersOf. specialize (Hanswers a b).
  destruct (compareFunction a b); [reflexivity | contradiction].
Qed.

Lemma applyKeyBound_pinsNoValue compareValues strategy constant prune :
  strategy <> BTEqualStrategyNumber ->
  pinsNoValue prune ->
  pinsNoValue (applyKeyBound compareValues strategy constant prune).
Proof.
  intros Hstrategy Hprune. unfold applyKeyBound.
  destruct strategy; try contradiction; try exact Hprune;
    match goal with
    | |- context [match ?field prune with _ => _ end] => destruct (field prune)
    end;
    try match goal with |- context [if ?b then _ else _] => destruct b end;
    exact Hprune.
Qed.

Lemma applyKeyBounds_pinsNoValue compareValues constant :
  forall interpretations prune,
    existsb (StrategyNumber_eqb BTEqualStrategyNumber) interpretations = false ->
    pinsNoValue prune ->
    pinsNoValue (applyUpdates compareValues
                   (map (fun strategy => KeyBound strategy constant) interpretations)
                   prune).
Proof.
  induction interpretations as [|strategy rest IH]; intros prune Hnone Hprune; simpl.
  - exact Hprune.
  - simpl in Hnone. apply orb_false_iff in Hnone. destruct Hnone as [Hstrategy Hrest].
    apply IH; [exact Hrest|]. apply applyKeyBound_pinsNoValue; [|exact Hprune].
    intros ->. discriminate.
Qed.

Lemma updatesOf_range_pinsNoValue cat partitionColumn compareValues node prune :
  isRangeComparison cat partitionColumn node = true ->
  pinsNoValue prune ->
  pinsNoValue (applyUpdates compareValues (updatesOf cat partitionColumn node) prune).
Proof.
  intros Hrange Hprune. unfold isRangeComparison in Hrange.
  destruct node as [v | c | opno args | opno useOr leftarg rightarg | boolop args
                    | arg format | arg test | elements]; try discriminate.
  unfold updatesOf.
  destruct (constAndVarOperands args) as [[constantClause varClause]|];
    [|discriminate].
  apply andb_true_iff in Hrange. destruct Hrange as [Hvar Hop]. rewrite Hvar.
  apply negb_true_iff in Hop. unfold OperatorImplementsEquality in Hop.
  change (applyUpdates compareValues (MarkAdded :: ?l) prune)
    with (applyUpdates compareValues l (set_addedToPruningInstances true prune)).
  unfold applyUpdates. rewrite fold_left_app.
  pose proof (applyKeyBounds_pinsNoValue compareValues constantClause
                (get_op_btree_interpretation cat opno)
                (set_addedToPruningInstances true prune) Hop Hprune) as Hbounds.
  unfold applyUpdates in Hbounds.
  destruct (matchedOpAfter _ _); exact Hbounds.
Qed.

Lemma branchUpdates_range_pinsNoValue cat partitionColumn compareValues :
  forall nodes prune,
    forallb (isRangeComparison cat partitionColumn) nodes = true ->
    pinsNoValue prune ->
    pinsNoValue (applyUpdates compareValues (branchUpdates cat partitionColumn nodes) prune).
Proof.
  induction nodes as [|node rest IH]; intros prune Hnodes Hprune.
  - exact Hprune.
  - simpl in Hnodes. apply andb_true_iff in Hnodes. destruct Hnodes as [Hnode Hrest].
    unfold branchUpdates. simpl. unfold applyUpdates. rewrite fold_left_app.
    apply (IH _ Hrest). apply updatesOf_range_pinsNoValue; assumption.
Qed.

Lemma pinsNoValue_hasNoEqualityConstraint prune :
  pinsNoValue prune -> hasNoEqualityConstraint prune = true.
Proof.
  intros (Hfalse & Hequal & Hsao & Hhashed & _). unfold hasNoEqualityConstraint.
  rewrite Hfalse, Hequal, Hsao, Hhashed. reflexivity.
Qed.

(** X9. On a hash-partitioned table only equality prunes: when the
    conditions of the where clause list that the classifier accepts are all
    comparisons of the partition column by operators without an equality
    strategy, [PruneShards] returns every shard of the table and reports no
    partition value, however tight the bounds are.  (The column comparator
    is asked while the bounds are folded and must answer; the interval
    comparator is never called.) *)
Theorem hash_table_ignores_range_conditions cat cacheEntry whereClauseList
        wantsPartitionValue compareInterval compareValue :
  partitionMethod cacheEntry = DISTRIBUTE_BY_HASH ->
  shardIntervalArrayLength cacheEntry <> 0 ->
  shardIntervalCompareFunction cacheEntry = Some compareInterval ->
  shardColumnCompareFunction cacheEntry = Some compareValue ->
  (forall a b, compareValue a b <> None) ->
  forallb isConditionNode whereClauseList = true ->
  forallb (isRangeComparison cat (partitionColumn cacheEntry))
          (filter (fun n => IsValidConditionNode cat n (partitionColumn cacheEntry))
                  whereClauseList) = true ->
  PruneShards cat cacheEntry whereClauseList wantsPartitionValue
  = Ok (sortedShardIntervalArray cacheEntry,
        if wantsPartitionValue then WrittenNull else NotWritten).
Proof.
  intros Hmethod Hcount Hci Hcv Hanswers Hnodes Hrange.
  rewrite (PruneShards_main_path cat cacheEntry whereClauseList wantsPartitionValue
             compareInterval compareValue Hcount
             (ContainsFalseClause_conditions _ Hnodes));
    [| rewrite Hmethod; discriminate | exact Hci | exact Hcv].
  rewrite (PrunableExpressionsWalker2_condition_list _ _ _ _ Hnodes).
  assert (Hall : forall st,
             foundRestriction st = false -> singlePartitionValueConst st = None ->
             PruneShards_finish cacheEntry wantsPartitionValue st
             = (sortedShardIntervalArray cacheEntry,
                if wantsPartitionValue then WrittenNull else NotWritten)).
  { intros st Hfound Hsingle. unfold PruneShards_finish.
    rewrite Hfound, Hsingle. cbn [negb]. rewrite DeepCopy_all_shards.
    destruct wantsPartitionValue; reflexivity. }
  destruct (filter (fun n => IsValidConditionNode cat n (partitionColumn cacheEntry))
                   whereClauseList) as [|first more].
  - destruct whereClauseList; cbn [bind PruneShards_loop isPartial hasValidConstraint
                                    unconstrainedInstance set_addedToPruningInstances
                                    emptyPruningInstance negb];
      rewrite Hall; reflexivity.
  - rewrite (HandleConditionNodes_updates cat (partitionColumn cacheEntry) compareValue
               (answersOf compareValue) (answersOf_answers _ Hanswers)).
    cbn [bind].
    pose proof (branchUpdates_range_pinsNoValue cat (partitionColumn cacheEntry)
                  (answersOf compareValue) (first :: more) emptyPruningInstance Hrange
                  ltac:(repeat split)) as Hpins.
    set (newInstance := applyUpdates _ _ _) in *.
    cbn [PruneShards_loop ctxPartitionMethod].
    rewrite (proj2 (proj2 (proj2 (proj2 Hpins)))).
    rewrite (pinsNoValue_hasNoEqualityConstraint _ Hpins), Hmethod.
    cbn [PartitionMethod_eqb andb].
    destruct (negb (hasValidConstraint newInstance)); cbn [bind]; rewrite Hall; reflexivity.
Qed.

(** [col > 5 AND col < 7] on the hash table. *)
Lemma hash_table_ignores_range_conditions_witness :
  PruneShards int4Catalog hashTable
    [compareColumn keyColumn Int4GreaterOperator 5;
     compareColumn keyColumn Int4LessOperator 7] true
  = Ok ([lowerHashShard; upperHashShard], WrittenNull).
Proof.
  apply (hash_table_ignores_range_conditions int4Catalog hashTable
           [compareColumn keyColumn Int4GreaterOperator 5;
            compareColumn keyColumn Int4LessOperator 7] true btint4cmp btint4cmp);
    try reflexivity; discriminate.
Defined.


(** ** The boundary searches on a sorted array of disjoint intervals *)

Section BoundarySearches.

Variable rank : Datum -> Z.
Variable compareFunction : CompareFunction.
Variable shardIntervalCache : list ShardInterval.
Variable value : Datum.
Hypothesis compareFunction_order : comparesBy rank compareFunction.
Hypothesis cache_sorted : sortedDisjoint rank shardIntervalCache.

Lemma PerformValueCompare_comparesBy a b :
  exists r,
    PerformValueCompare compareFunction a b = Ok r
    /\ (r < 0 <-> rank a < rank b)
    /\ (0 < r <-> rank b < rank a).
Proof.
  destruct (compareFunction_order a b) as [r [Hr Horder]].
  exists r. unfold PerformValueCompare. rewrite Hr. split; [reflexivity | exact Horder].
Qed.

Lemma sortedDisjoint_minValues i j :
  0 <= i -> i <= j -> j < Z.of_nat (length shardIntervalCache) ->
  rank (minValue (shardAt shardIntervalCache i))
  <= rank (minValue (shardAt shardIntervalCache j)).
Proof.
  intros Hi Hij Hj. destruct cache_sorted as [Hwithin Hbetween].
  destruct (Z.eq_dec i j) as [-> | Hne]; [lia|].
  pose proof (Hwithin i ltac:(lia)). pose proof (Hbetween i j Hi ltac:(lia) Hj). lia.
Qed.

Lemma sortedDisjoint_maxValues i j :
  0 <= i -> i <= j -> j < Z.of_nat (length shardIntervalCache) ->
  rank (maxValue (shardAt shardIntervalCache i))
  <= rank (maxValue (shardAt shardIntervalCache j)).
Proof.
  intros Hi Hij Hj. destruct cache_sorted as [Hwithin Hbetween].
  destruct (Z.eq_dec i j) as [-> | Hne]; [lia|].
  pose proof (Hwithin j ltac:(lia)). pose proof (Hbetween i j Hi ltac:(lia) Hj). lia.
Qed.

(** The loop of [UpperShardBoundary]: the intervals below [lowerBoundIndex]
    end below the value, those from [upperBoundIndex] on begin too late. *)
Lemma UpperShardBoundary_loop_sorted includeMin :
  forall fuel lowerBoundIndex upperBoundIndex,
    0 <= lowerBoundIndex <= upperBoundIndex ->
    upperBoundIndex <= Z.of_nat (length shardIntervalCache) ->
    upperBoundIndex - lowerBoundIndex <= Z.of_nat fuel ->
    (forall i, 0 <= i < lowerBoundIndex ->
               rank (maxValue (shardAt shardIntervalCache i)) < rank value) ->
    (forall i, upperBoundIndex <= i < Z.of_nat (length shardIntervalCache) ->
               ~ startsBy rank value includeMin (shardAt shardIntervalCache i)) ->
    exists outcome,
      UpperShardBoundary_loop fuel compareFunction value shardIntervalCache includeMin
                              lowerBoundIndex upperBoundIndex = Ok outcome
      /\ match outcome with
         | Found middleIndex =>
             0 <= middleIndex < Z.of_nat (length shardIntervalCache)
             /\ startsBy rank value includeMin (shardAt shardIntervalCache middleIndex)
             /\ rank value <= rank (maxValue (shardAt shardIntervalCache middleIndex))
         | NotFound lo hi =>
             lo = hi /\ 0 <= hi <= Z.of_nat (length shardIntervalCache)
             /\ (forall i, 0 <= i < hi ->
                           rank (maxValue (shardAt shardIntervalCache i)) < rank value)
             /\ (forall i, hi <= i < Z.of_nat (length shardIntervalCache) ->
                           ~ startsBy rank value includeMin (shardAt shardIntervalCache i))
         end.
Proof.
  induction fuel as [|fuel IH]; intros lo hi Hlohi Hhi Hfuel Hbelow Habove;
    cbn [UpperShardBoundary_loop].
  - destruct (lo <? hi) eqn:Hlt; [apply Z.ltb_lt in Hlt; lia|].
    apply Z.ltb_ge in Hlt. assert (lo = hi) by lia. subst lo.
    eexists. split; [reflexivity|]. repeat split; try lia; assumption.
  - destruct (lo <? hi) eqn:Hlt.
    2: { apply Z.ltb_ge in Hlt. assert (lo = hi) by lia. subst lo.
         eexists. split; [reflexivity|]. repeat split; try lia; assumption. }
    apply Z.ltb_lt in Hlt.
    pose proof (middleIndex_bounds lo hi Hlt) as Hmiddle.
    set (middleIndex := lo + Z.quot (hi - lo) 2) in *.
    destruct (PerformValueCompare_comparesBy value
                (minValue (shardAt shardIntervalCache middleIndex)))
      as [minCmp [-> [HminLt HminGt]]].
    cbn [bind].
    destruct (((minCmp =? 0) && negb includeMin) || (minCmp <? 0)) eqn:Hsmaller.
    + (* value smaller than entire range *)
      apply IH; try lia; [exact Hbelow|].
      intros i Hi Hstarts.
      destruct (Z.lt_ge_cases i hi) as [Hinside | Houtside];
        [|exact (Habove i ltac:(lia) Hstarts)].
      pose proof (sortedDisjoint_minValues middleIndex i ltac:(lia) ltac:(lia) ltac:(lia)).
      unfold startsBy in Hstarts.
      apply orb_true_iff in Hsmaller. destruct Hsmaller as [Hzero | Hneg].
      * apply andb_true_iff in Hzero. destruct Hzero as [Hzero Hexcl].
        apply Z.eqb_eq in Hzero. apply negb_true_iff in Hexcl. subst includeMin.
        lia.
      * apply Z.ltb_lt in Hneg. destruct includeMin; lia.
    + apply orb_false_iff in Hsmaller. destruct Hsmaller as [Hzero Hneg].
      apply Z.ltb_ge in Hneg.
      destruct (PerformValueCompare_comparesBy value
                  (maxValue (shardAt shardIntervalCache middleIndex)))
        as [maxCmp [-> [HmaxLt HmaxGt]]].
      cbn [bind].
      destruct (maxCmp >? 0) eqn:Hbigger.
      * (* value bigger than entire range *)
        apply Z.gtb_lt in Hbigger.
        apply IH; try lia; [|exact Habove].
        intros i Hi.
        destruct (Z.lt_ge_cases i lo) as [Hinside | Houtside];
          [exact (Hbelow i ltac:(lia))|].
        pose proof (sortedDisjoint_maxValues i middleIndex ltac:(lia) ltac:(lia)
                      ltac:(lia)).
        lia.
      * (* found interval containing partitionValue *)
        assert (Hnot : ~ 0 < maxCmp).
        { intros H. apply Z.gtb_lt in H. rewrite H in Hbigger. discriminate. }
        eexists. split; [reflexivity|].
        split; [lia|]. split; [|lia].
        unfold startsBy. destruct includeMin.
        -- lia.
        -- rewrite andb_true_r in Hzero. apply Z.eqb_neq in Hzero. lia.
Qed.

(** The loop of [LowerShardBoundary]: the intervals below [lowerBoundIndex]
    end too early, those from [upperBoundIndex] on begin above the value. *)
Lemma LowerShardBoundary_loop_sorted includeMax :
  forall fuel lowerBoundIndex upperBoundIndex,
    0 <= lowerBoundIndex <= upperBoundIndex ->
    upperBoundIndex <= Z.of_nat (length shardIntervalCache) ->
    upperBoundIndex - lowerBoundIndex <= Z.of_nat fuel ->
    (forall i, 0 <= i < lowerBoundIndex ->
               ~ reaches rank value includeMax (shardAt shardIntervalCache i)) ->
    (forall i, upperBoundIndex <= i < Z.of_nat (length shardIntervalCache) ->
               rank value < rank (minValue (shardAt shardIntervalCache i))) ->
    exists outcome,
      LowerShardBoundary_loop fuel compareFunction value shardIntervalCache includeMax
                              lowerBoundIndex upperBoundIndex = Ok outcome
      /\ match outcome with
         | Found middleIndex =>
             0 <= middleIndex < Z.of_nat (length shardIntervalCache)
             /\ rank (minValue (shardAt shardIntervalCache middleIndex)) <= rank value
             /\ reaches rank value includeMax (shardAt shardIntervalCache middleIndex)
         | NotFound lo hi =>
             lo = hi /\ 0 <= lo <= Z.of_nat (length shardIntervalCache)
             /\ (forall i, 0 <= i < lo ->
                           ~ reaches rank value includeMax (shardAt shardIntervalCache i))
             /\ (forall i, lo <= i < Z.of_nat (length shardIntervalCache) ->
                           rank value < rank (minValue (shardAt shardIntervalCache i)))
         end.
Proof.
  induction fuel as [|fuel IH]; intros lo hi Hlohi Hhi Hfuel Hbelow Habove;
    cbn [LowerShardBoundary_loop].
  - destruct (lo <? hi) eqn:Hlt; [apply Z.ltb_lt in Hlt; lia|].
    apply Z.ltb_ge in Hlt. assert (lo = hi) by lia. subst lo.
    eexists. split; [reflexivity|]. repeat split; try lia; assumption.
  - destruct (lo <? hi) eqn:Hlt.
    2: { apply Z.ltb_ge in Hlt. assert (lo = hi) by lia. subst lo.
         eexists. split; [reflexivity|]. repeat split; try lia; assumption. }
    apply Z.ltb_lt in Hlt.
    pose proof (middleIndex_bounds lo hi Hlt) as Hmiddle.
    set (middleIndex := lo + Z.quot (hi - lo) 2) in *.
    destruct (PerformValueCompare_comparesBy value
                (minValue (shardAt shardIntervalCache middleIndex)))
      as [minCmp [-> [HminLt HminGt]]].
    cbn [bind].
    destruct (minCmp <? 0) eqn:Hsmaller.
    + (* value smaller than entire range *)
      apply Z.ltb_lt in Hsmaller.
      apply IH; try lia; [exact Hbelow|].
      intros i Hi.
      destruct (Z.lt_ge_cases i hi) as [Hinside | Houtside];
        [|exact (Habove i ltac:(lia))].
      pose proof (sortedDisjoint_minValues middleIndex i ltac:(lia) ltac:(lia) ltac:(lia)).
      lia.
    + apply Z.ltb_ge in Hsmaller.
      destruct (PerformValueCompare_comparesBy value
                  (maxValue (shardAt shardIntervalCache middleIndex)))
        as [maxCmp [-> [HmaxLt HmaxGt]]].
      cbn [bind].
      destruct (((maxCmp =? 0) && negb includeMax) || (maxCmp >? 0)) eqn:Hbigger.
      * (* value bigger than entire range *)
        apply IH; try lia; [|exact Habove].
        intros i Hi Hreaches.
        destruct (Z.lt_ge_cases i lo) as [Hinside | Houtside];
          [exact (Hbelow i ltac:(lia) Hreaches)|].
        pose proof (sortedDisjoint_maxValues i middleIndex ltac:(lia) ltac:(lia)
                      ltac:(lia)).
        unfold reaches in Hreaches.
        apply orb_true_iff in Hbigger. destruct Hbigger as [Hzero | Hpos].
        -- apply andb_true_iff in Hzero. destruct Hzero as [Hzero Hexcl].
           apply Z.eqb_eq in Hzero. apply negb_true_iff in Hexcl. subst includeMax.
           lia.
        -- apply Z.gtb_lt in Hpos. destruct includeMax; lia.
      * (* found interval containing partitionValue *)
        apply orb_false_iff in Hbigger. destruct Hbigger as [Hzero Hpos].
        assert (Hnot : ~ 0 < maxCmp).
        { intros H. apply Z.gtb_lt in H. rewrite H in Hpos. discriminate. }
        eexists. split; [reflexivity|].
        split; [lia|]. split; [lia|].
        unfold reaches. destruct includeMax.
        -- lia.
        -- rewrite andb_true_r in Hzero. apply Z.eqb_neq in Hzero. lia.
Qed.

End BoundarySearches.

(** What [UpperShardBoundary] returns on a sorted array of disjoint
    intervals: interval [i] begins by the value iff [i <= index]. *)
Lemma UpperShardBoundary_sorted rank compareFunction shardIntervalCache value includeMin :
  comparesBy rank compareFunction ->
  sortedDisjoint rank shardIntervalCache ->
  exists index,
    UpperShardBoundary value shardIntervalCache (Z.of_nat (length shardIntervalCache))
                       compareFunction includeMin = Ok index
    /\ INVALID_SHARD_INDEX <= index < Z.of_nat (length shardIntervalCache)
    /\ (forall i, 0 <= i < Z.of_nat (length shardIntervalCache) ->
                  (startsBy rank value includeMin (shardAt shardIntervalCache i)
                   <-> i <= index)).
Proof.
  intros Horder Hsorted. unfold UpperShardBoundary, INVALID_SHARD_INDEX.
  set (shardCount := Z.of_nat (length shardIntervalCache)).
  destruct (UpperShardBoundary_loop_sorted rank compareFunction shardIntervalCache value
              Horder Hsorted includeMin (Z.to_nat shardCount) 0 shardCount)
    as [outcome [-> Houtcome]]; try (unfold shardCount; lia).
  cbn [bind].
  assert (Hstart_below : forall i j,
             0 <= i -> i <= j -> j < shardCount ->
             startsBy rank value includeMin (shardAt shardIntervalCache j) ->
             startsBy rank value includeMin (shardAt shardIntervalCache i)).
  { intros i j Hi Hij Hj. unfold startsBy.
    pose proof (sortedDisjoint_minValues rank shardIntervalCache Hsorted i j Hi Hij Hj).
    destruct includeMin; lia. }
  assert (Hends_start : forall i,
             0 <= i < shardCount ->
             rank (maxValue (shardAt shardIntervalCache i)) < rank value ->
             startsBy rank value includeMin (shardAt shardIntervalCache i)).
  { intros i Hi Hend. unfold startsBy. pose proof (proj1 Hsorted i Hi).
    destruct includeMin; lia. }
  destruct outcome as [middleIndex | lo hi].
  - destruct Houtcome as [Hrange [Hstarts Hwithin]].
    exists middleIndex. split; [reflexivity|]. split; [lia|].
    intros i Hi. split.
    + intros Hi_starts. destruct (Z.le_gt_cases i middleIndex) as [|Hgt]; [assumption|].
      exfalso. pose proof (proj2 Hsorted middleIndex i ltac:(lia) Hgt ltac:(lia)).
      unfold startsBy in Hi_starts. destruct includeMin; lia.
    + intros Hle. exact (Hstart_below i middleIndex ltac:(lia) Hle ltac:(lia) Hstarts).
  - destruct Houtcome as [-> [Hrange [Hbelow Habove]]].
    destruct (hi =? shardCount) eqn:Hfull.
    { apply Z.eqb_eq in Hfull. subst hi.
      exists (shardCount - 1). split; [reflexivity|]. split; [lia|].
      intros i Hi. split; [lia|]. intros _. apply Hends_start; [lia|]. apply Hbelow. lia. }
    apply Z.eqb_neq in Hfull.
    destruct (hi =? 0) eqn:Hnone.
    { apply Z.eqb_eq in Hnone. subst hi.
      exists (-1). split; [reflexivity|]. split; [lia|].
      intros i Hi. split; [|lia]. intros Hstarts. exfalso.
      exact (Habove i ltac:(lia) Hstarts). }
    apply Z.eqb_neq in Hnone.
    exists (hi - 1). split; [reflexivity|]. split; [lia|].
    intros i Hi. split.
    + intros Hstarts. destruct (Z.le_gt_cases i (hi - 1)) as [|Hgt]; [assumption|].
      exfalso. exact (Habove i ltac:(lia) Hstarts).
    + intros Hle. apply Hends_start; [lia|]. apply Hbelow. lia.
Qed.

Lemma btint4cmp_comparesBy : comparesBy (fun datum => datum) btint4cmp.
Proof.
  intros a b. unfold btint4cmp. eexists. split; [reflexivity|].
  destruct (a >? b) eqn:Hgt; [apply Z.gtb_lt in Hgt; lia|].
  destruct (a =? b) eqn:Heq; [apply Z.eqb_eq in Heq; lia|].
  apply Z.eqb_neq in Heq.
  assert (~ b < a) by (intros H; apply Z.gtb_lt in H; congruence). lia.
Qed.

Lemma adjacentShards_sortedDisjoint :
  sortedDisjoint (fun datum => datum) [firstShard; secondShard].
Proof.
  split.
  - intros i Hi. simpl in Hi.
    assert (i = 0 \/ i = 1) as [-> | ->] by lia; simpl; lia.
  - intros i j Hi Hij Hj. simpl in Hj.
    assert (i = 0 /\ j = 1) as [-> ->] by lia. simpl. lia.
Qed.

(** X10. On a sorted array of disjoint intervals, under a comparator that
    orders the datums, [UpperShardBoundary] returns what its header says:
    the index of the last interval that begins at or below the value (below
    it when [includeMin] is off), and [INVALID_SHARD_INDEX] if no interval
    does. *)
Theorem UpperShardBoundary_last_interval_that_starts_by rank compareFunction
        shardIntervalCache value includeMin :
  comparesBy rank compareFunction ->
  sortedDisjoint rank shardIntervalCache ->
  exists index,
    UpperShardBoundary value shardIntervalCache (Z.of_nat (length shardIntervalCache))
                       compareFunction includeMin = Ok index
    /\ ((index = INVALID_SHARD_INDEX
         /\ forall i, 0 <= i < Z.of_nat (length shardIntervalCache) ->
                      ~ startsBy rank value includeMin (shardAt shardIntervalCache i))
        \/ (0 <= index < Z.of_nat (length shardIntervalCache)
            /\ startsBy rank value includeMin (shardAt shardIntervalCache index)
            /\ forall i, index < i < Z.of_nat (length shardIntervalCache) ->
                         ~ startsBy rank value includeMin (shardAt shardIntervalCache i))).
Proof.
  intros Horder Hsorted.
  destruct (UpperShardBoundary_sorted rank compareFunction shardIntervalCache value
              includeMin Horder Hsorted) as [index [Hupper [Hrange Hstarts]]].
  exists index. split; [exact Hupper|].
  unfold INVALID_SHARD_INDEX in *.
  destruct (Z.eq_dec index (-1)) as [-> | Hvalid].
  - left. split; [reflexivity|]. intros i Hi Hi_starts.
    apply (Hstarts i Hi) in Hi_starts. lia.
  - right. split; [lia|]. split.
    + apply (Hstarts index); lia.
    + intros i Hi Hi_starts. apply (Hstarts i) in Hi_starts; lia.
Qed.

(** The first of the two adjacent shards is the last one that begins below
    1000. *)
Lemma UpperShardBoundary_last_interval_that_starts_by_witness :
  UpperShardBoundary 1000 [firstShard; secondShard] 2 btint4cmp false = Ok 0
  /\ exists index,
      UpperShardBoundary 1000 [firstShard; secondShard] 2 btint4cmp false = Ok index
      /\ ((index = INVALID_SHARD_INDEX
           /\ forall i, 0 <= i < 2 ->
                        ~ startsBy (fun datum => datum) 1000 false
                                   (shardAt [firstShard; secondShard] i))
          \/ (0 <= index < 2
              /\ startsBy (fun datum => datum) 1000 false
                          (shardAt [firstShard; secondShard] index)
              /\ forall i, index < i < 2 ->
                           ~ startsBy (fun datum => datum) 1000 false
                                      (shardAt [firstShard; secondShard] i))).
Proof.
  split; [reflexivity|].
  exact (UpperShardBoundary_last_interval_that_starts_by (fun datum => datum) btint4cmp
           [firstShard; secondShard] 1000 false
           btint4cmp_comparesBy adjacentShards_sortedDisjoint).
Defined.

(** What [LowerShardBoundary] returns on a sorted array of disjoint
    intervals, from the index [first] of the first interval that ends at or
    above the value. *)
Lemma LowerShardBoundary_sorted rank compareFunction shardIntervalCache value includeMax :
  comparesBy rank compareFunction ->
  sortedDisjoint rank shardIntervalCache ->
  exists first,
    0 <= first <= Z.of_nat (length shardIntervalCache)
    /\ (forall i, 0 <= i < Z.of_nat (length shardIntervalCache) ->
                  (reaches rank value includeMax (shardAt shardIntervalCache i)
                   <-> first <= i))
    /\ (first < Z.of_nat (length shardIntervalCache) ->
        rank (minValue (shardAt shardIntervalCache first)) <= rank value
        \/ forall i, first <= i < Z.of_nat (length shardIntervalCache) ->
                     rank value < rank (minValue (shardAt shardIntervalCache i)))
    /\ LowerShardBoundary value shardIntervalCache (Z.of_nat (length shardIntervalCache))
                          compareFunction includeMax
       = Ok (if first =? 0 then 0
             else if first =? Z.of_nat (length shardIntervalCache)
                  then INVALID_SHARD_INDEX
                  else if rank (minValue (shardAt shardIntervalCache first)) <=? rank value
                       then first
                       else first + 1).
Proof.
  intros Horder Hsorted. unfold LowerShardBoundary, INVALID_SHARD_INDEX.
  set (shardCount := Z.of_nat (length shardIntervalCache)).
  destruct (LowerShardBoundary_loop_sorted rank compareFunction shardIntervalCache value
              Horder Hsorted includeMax (Z.to_nat shardCount) 0 shardCount)
    as [outcome [-> Houtcome]]; try (unfold shardCount; lia).
  cbn [bind].
  assert (Hreaches_above : forall i j,
             0 <= i -> i <= j -> j < shardCount ->
             reaches rank value includeMax (shardAt shardIntervalCache i) ->
             reaches rank value includeMax (shardAt shardIntervalCache j)).
  { intros i j Hi Hij Hj. unfold reaches.
    pose proof (sortedDisjoint_maxValues rank shardIntervalCache Hsorted i j Hi Hij Hj).
    destruct includeMax; lia. }
  assert (Hstarts_reaches : forall i,
             0 <= i < shardCount ->
             rank value < rank (minValue (shardAt shardIntervalCache i)) ->
             reaches rank value includeMax (shardAt shardIntervalCache i)).
  { intros i Hi Hstart. unfold reaches. pose proof (proj1 Hsorted i Hi).
    destruct includeMax; lia. }
  destruct outcome as [middleIndex | lo hi].
  - destruct Houtcome as [Hrange [Hstarts Hreaches]].
    exists middleIndex. split; [lia|]. split; [|split].
    + intros i Hi. split.
      * intros Hi_reaches. destruct (Z.le_gt_cases middleIndex i) as [|Hlt]; [assumption|].
        exfalso. pose proof (proj2 Hsorted i middleIndex ltac:(lia) Hlt ltac:(lia)).
        unfold reaches in Hi_reaches. destruct includeMax; lia.
      * intros Hle. exact (Hreaches_above middleIndex i ltac:(lia) Hle ltac:(lia) Hreaches).
    + intros _. left. lia.
    + replace (middleIndex =? shardCount) with false by (symmetry; apply Z.eqb_neq; lia).
      replace (rank (minValue (shardAt shardIntervalCache middleIndex)) <=? rank value)
        with true by (symmetry; apply Z.leb_le; lia).
      destruct (middleIndex =? 0) eqn:Hzero; [|reflexivity].
      apply Z.eqb_eq in Hzero. rewrite Hzero. reflexivity.
  - destruct Houtcome as [<- [Hrange [Hbelow Habove]]].
    exists lo. split; [lia|]. split; [|split].
    + intros i Hi. split.
      * intros Hreaches. destruct (Z.le_gt_cases lo i) as [|Hlt]; [assumption|].
        exfalso. exact (Hbelow i ltac:(lia) Hreaches).
      * intros Hle. apply Hstarts_reaches; [lia|]. apply Habove. lia.
    + intros _. right. exact Habove.
    + destruct (lo =? 0) eqn:Hzero; [reflexivity|].
      destruct (lo =? shardCount) eqn:Hfull; [reflexivity|].
      apply Z.eqb_neq in Hfull.
      replace (rank (minValue (shardAt shardIntervalCache lo)) <=? rank value)
        with false; [reflexivity|].
      symmetry. apply Z.leb_gt. apply Habove. lia.
Qed.

Lemma gappedShards_sortedDisjoint : sortedDisjoint (fun datum => datum) gappedShards.
Proof.
  split.
  - intros i Hi. simpl in Hi.
    assert (i = 0 \/ i = 1 \/ i = 2) as [-> | [-> | ->]] by lia; simpl; lia.
  - intros i j Hi Hij Hj. simpl in Hj.
    assert ((i = 0 /\ j = 1) \/ (i = 0 /\ j = 2) \/ (i = 1 /\ j = 2))
      as [[-> ->] | [[-> ->] | [-> ->]]] by lia; simpl; lia.
Qed.

(** X11. [LowerShardBoundary] on a sorted array of disjoint intervals,
    under a comparator that orders the datums.  Let [first] be the index of
    the first interval that ends at or above the value (above it when
    [includeMax] is off), the count of the array if there is none; the
    header promises [first].  The function returns 0 if [first] is 0,
    [INVALID_SHARD_INDEX] if there is no such interval, and [first] if the
    value lies inside interval [first]; but when the value falls between
    two intervals it returns [first + 1], one interval too far. *)
Theorem LowerShardBoundary_first_interval_that_reaches rank compareFunction
        shardIntervalCache value includeMax :
  comparesBy rank compareFunction ->
  sortedDisjoint rank shardIntervalCache ->
  exists first,
    0 <= first <= Z.of_nat (length shardIntervalCache)
    /\ (forall i, 0 <= i < first ->
                  ~ reaches rank value includeMax (shardAt shardIntervalCache i))
    /\ (forall i, first <= i < Z.of_nat (length shardIntervalCache) ->
                  reaches rank value includeMax (shardAt shardIntervalCache i))
    /\ LowerShardBoundary value shardIntervalCache (Z.of_nat (length shardIntervalCache))
                          compareFunction includeMax
       = Ok (if first =? 0 then 0
             else if first =? Z.of_nat (length shardIntervalCache)
                  then INVALID_SHARD_INDEX
                  else if rank (minValue (shardAt shardIntervalCache first)) <=? rank value
                       then first
                       else first + 1).
Proof.
  intros Horder Hsorted.
  destruct (LowerShardBoundary_sorted rank compareFunction shardIntervalCache value
              includeMax Horder Hsorted) as [first [Hrange [Hreaches [_ Hlower]]]].
  exists first. split; [exact Hrange|]. split; [|split; [|exact Hlower]].
  - intros i Hi Hi_reaches. apply (Hreaches i) in Hi_reaches; lia.
  - intros i Hi. apply (Hreaches i); lia.
Qed.

(** The value 15 falls between the first two intervals: the first interval
    that reaches it is number 1, the function returns 2. *)
Lemma LowerShardBoundary_first_interval_that_reaches_witness :
  LowerShardBoundary 15 gappedShards 3 btint4cmp true = Ok 2
  /\ exists first,
      0 <= first <= 3
      /\ (forall i, 0 <= i < first ->
                    ~ reaches (fun datum => datum) 15 true (shardAt gappedShards i))
      /\ (forall i, first <= i < 3 ->
                    reaches (fun datum => datum) 15 true (shardAt gappedShards i))
      /\ LowerShardBoundary 15 gappedShards 3 btint4cmp true
         = Ok (if first =? 0 then 0
               else if first =? 3 then INVALID_SHARD_INDEX
                    else if minValue (shardAt gappedShards first) <=? 15
                         then first
                         else first + 1).
Proof.
  split; [reflexivity|].
  exact (LowerShardBoundary_first_interval_that_reaches (fun datum => datum) btint4cmp
           gappedShards 15 true btint4cmp_comparesBy gappedShards_sortedDisjoint).
Defined.


(** ** Pruning by the boundaries *)

Section PruneByBoundaries.

Variable rank : Datum -> Z.
Variable cacheEntry : DistTableCacheEntry.
Variable context : ClauseWalkerContext.
Variable prune : PruningInstance.
Hypothesis compareInterval_order : comparesBy rank (compareIntervalFunctionCall context).
Hypothesis array_sorted : sortedDisjoint rank (sortedShardIntervalArray cacheEntry).

(** The lower bound [PruneWithBoundaries] settles on stands for both lower
    bounds of the instance. *)
Lemma PruneWithBoundaries_lowerBound :
  exists hasLowerBound lowerBound lowerBoundInclusive,
    match greaterConsts prune with
    | Some c =>
        let '(hasLowerBound, lowerBound, _) :=
          match greaterEqualConsts prune with
          | Some c => (true, constvalue c, true)
          | None => (false, 0, false)
          end in
        if negb hasLowerBound then Ok (true, constvalue c, false)
        else
          r <- PerformValueCompare (compareIntervalFunctionCall context)
                 (constvalue c) lowerBound ;;
          if r >=? 0 then Ok (true, constvalue c, false)
          else Ok match greaterEqualConsts prune with
                  | Some c => (true, constvalue c, true)
                  | None => (false, 0, false)
                  end
    | None => Ok match greaterEqualConsts prune with
                 | Some c => (true, constvalue c, true)
                 | None => (false, 0, false)
                 end
    end = Ok (hasLowerBound, lowerBound, lowerBoundInclusive)
    /\ (hasLowerBound = false
        <-> greaterEqualConsts prune = None /\ greaterConsts prune = None)
    /\ (hasLowerBound = true ->
        forall shard,
          reaches rank lowerBound lowerBoundInclusive shard
          <-> (forall c, greaterEqualConsts prune = Some c ->
                         reaches rank (constvalue c) true shard)
              /\ (forall c, greaterConsts prune = Some c ->
                            reaches rank (constvalue c) false shard)).
Proof.
  destruct (greaterEqualConsts prune) as [inclusive|],
           (greaterConsts prune) as [exclusive|]; cbn [negb].
  - destruct (PerformValueCompare_comparesBy rank _ compareInterval_order
                (constvalue exclusive) (constvalue inclusive)) as [r [-> [Hlt Hgt]]].
    cbn [bind]. destruct (r >=? 0) eqn:Hr.
    + apply Z.geb_le in Hr. do 3 eexists. split; [reflexivity|].
      split; [split; [discriminate | intros [H _]; discriminate]|].
      intros _ shard. unfold reaches. split.
      * intros H. split; intros c Hc; inversion Hc; subst; lia.
      * intros [_ H]. exact (H _ eq_refl).
    + assert (r < 0) by (destruct (Z.lt_ge_cases r 0) as [|Hge]; [assumption|]; apply Z.geb_le in Hge; congruence).
      do 3 eexists. split; [reflexivity|].
      split; [split; [discriminate | intros [H' _]; discriminate]|].
      intros _ shard. unfold reaches. split.
      * intros H'. split; intros c Hc; inversion Hc; subst; lia.
      * intros [H' _]. exact (H' _ eq_refl).
  - do 3 eexists. split; [reflexivity|].
    split; [split; [discriminate | intros [H _]; discriminate]|].
    intros _ shard. split.
    + intros H. split; intros c Hc; inversion Hc; subst; exact H.
    + intros [H _]. exact (H _ eq_refl).
  - do 3 eexists. split; [reflexivity|].
    split; [split; [discriminate | intros [_ H]; discriminate]|].
    intros _ shard. split.
    + intros H. split; intros c Hc; inversion Hc; subst; exact H.
    + intros [_ H]. exact (H _ eq_refl).
  - do 3 eexists. split; [reflexivity|].
    split; [split; [split; reflexivity | reflexivity] | discriminate].
Qed.

Lemma PruneWithBoundaries_upperBound :
  exists hasUpperBound upperBound upperBoundInclusive,
    match lessConsts prune with
    | Some c =>
        let '(hasUpperBound, upperBound, _) :=
          match lessEqualConsts prune with
          | Some c => (true, constvalue c, true)
          | None => (false, 0, false)
          end in
        if negb hasUpperBound then Ok (true, constvalue c, false)
        else
          r <- PerformValueCompare (compareIntervalFunctionCall context)
                 (constvalue c) upperBound ;;
          if r <=? 0 then Ok (true, constvalue c, false)
          else Ok match lessEqualConsts prune with
                  | Some c => (true, constvalue c, true)
                  | None => (false, 0, false)
                  end
    | None => Ok match lessEqualConsts prune with
                 | Some c => (true, constvalue c, true)
                 | None => (false, 0, false)
                 end
    end = Ok (hasUpperBound, upperBound, upperBoundInclusive)
    /\ (hasUpperBound = false
        <-> lessEqualConsts prune = None /\ lessConsts prune = None)
    /\ (hasUpperBound = true ->
        forall shard,
          startsBy rank upperBound upperBoundInclusive shard
          <-> (forall c, lessEqualConsts prune = Some c ->
                         startsBy rank (constvalue c) true shard)
              /\ (forall c, lessConsts prune = Some c ->
                            startsBy rank (constvalue c) false shard)).
Proof.
  destruct (lessEqualConsts prune) as [inclusive|],
           (lessConsts prune) as [exclusive|]; cbn [negb].
  - destruct (PerformValueCompare_comparesBy rank _ compareInterval_order
                (constvalue exclusive) (constvalue inclusive)) as [r [-> [Hlt Hgt]]].
    cbn [bind]. destruct (r <=? 0) eqn:Hr.
    + apply Z.leb_le in Hr. do 3 eexists. split; [reflexivity|].
      split; [split; [discriminate | intros [H _]; discriminate]|].
      intros _ shard. unfold startsBy. split.
      * intros H. split; intros c Hc; inversion Hc; subst; lia.
      * intros [_ H]. exact (H _ eq_refl).
    + apply Z.leb_gt in Hr.
      do 3 eexists. split; [reflexivity|].
      split; [split; [discriminate | intros [H' _]; discriminate]|].
      intros _ shard. unfold startsBy. split.
      * intros H'. split; intros c Hc; inversion Hc; subst; lia.
      * intros [H' _]. exact (H' _ eq_refl).
  - do 3 eexists. split; [reflexivity|].
    split; [split; [discriminate | intros [H _]; discriminate]|].
    intros _ shard. split.
    + intros H. split; intros c Hc; inversion Hc; subst; exact H.
    + intros [H _]. exact (H _ eq_refl).
  - do 3 eexists. split; [reflexivity|].
    split; [split; [discriminate | intros [_ H]; discriminate]|].
    intros _ shard. split.
    + intros H. split; intros c Hc; inversion Hc; subst; exact H.
    + intros [_ H]. exact (H _ eq_refl).
  - do 3 eexists. split; [reflexivity|].
    split; [split; [split; reflexivity | reflexivity] | discriminate].
Qed.

(** What [PruneWithBoundaries] returns, from the two boundary indices. *)
Lemma PruneWithBoundaries_sorted :
  exists shards,
    PruneWithBoundaries cacheEntry context prune = Ok shards
    /\ (forall i, In i shards ->
                  0 <= i < shardIntervalArrayLength cacheEntry
                  /\ withinBounds rank prune (shardAt (sortedShardIntervalArray cacheEntry) i))
    /\ (greaterEqualConsts prune = None -> greaterConsts prune = None ->
        forall i, 0 <= i < shardIntervalArrayLength cacheEntry ->
                  withinBounds rank prune (shardAt (sortedShardIntervalArray cacheEntry) i) ->
                  In i shards).
Proof.
  unfold PruneWithBoundaries, shardIntervalArrayLength.
  set (shardCount := Z.of_nat (length (sortedShardIntervalArray cacheEntry))).
  destruct PruneWithBoundaries_lowerBound
    as [hasLower [lowerBound [lowerIncl [-> [HnoLowerBound Hlower]]]]].
  cbn [bind].
  destruct PruneWithBoundaries_upperBound
    as [hasUpper [upperBound [upperIncl [-> [HnoUpperBound Hupper]]]]].
  cbn [bind].
  (* the lower boundary index *)
  assert (HlowerIdx :
    exists lowerBoundIdx,
      (if hasLower
       then LowerShardBoundary lowerBound (sortedShardIntervalArray cacheEntry) shardCount
              (compareIntervalFunctionCall context) lowerIncl
       else Ok 0) = Ok lowerBoundIdx
      /\ (lowerBoundIdx = INVALID_SHARD_INDEX \/ 0 <= lowerBoundIdx)
      /\ (hasLower = true ->
          forall i, 0 <= i < shardCount -> lowerBoundIdx <> INVALID_SHARD_INDEX ->
                    lowerBoundIdx <= i ->
                    reaches rank lowerBound lowerIncl
                            (shardAt (sortedShardIntervalArray cacheEntry) i))
      /\ (hasLower = false -> lowerBoundIdx = 0)).
  { destruct hasLower.
    - destruct (LowerShardBoundary_sorted rank _ (sortedShardIntervalArray cacheEntry)
                  lowerBound lowerIncl compareInterval_order array_sorted)
        as [first [Hrange [Hreaches [_ Hresult]]]].
      fold shardCount in Hrange, Hreaches, Hresult. rewrite Hresult.
      eexists. split; [reflexivity|]. unfold INVALID_SHARD_INDEX.
      destruct (first =? 0) eqn:Hzero.
      { apply Z.eqb_eq in Hzero. subst first.
        split; [right; lia|]. split; [|discriminate].
        intros _ i Hi _ Hle. apply (Hreaches i Hi). lia. }
      apply Z.eqb_neq in Hzero.
      destruct (first =? shardCount) eqn:Hfull.
      { split; [left; reflexivity|]. split; [|discriminate].
        intros _ i Hi Hvalid. contradiction. }
      apply Z.eqb_neq in Hfull.
      destruct (_ <=? _); (split; [right; lia|]); (split; [|discriminate]);
        intros _ i Hi _ Hle; apply (Hreaches i Hi); lia.
    - exists 0. split; [reflexivity|]. split; [right; lia|].
      split; [discriminate | reflexivity]. }
  destruct HlowerIdx as [lowerBoundIdx [-> [HlowerRange [HlowerReaches HnoLower]]]].
  cbn [bind].
  (* the upper boundary index *)
  assert (HupperIdx :
    exists upperBoundIdx,
      (if hasUpper
       then UpperShardBoundary upperBound (sortedShardIntervalArray cacheEntry) shardCount
              (compareIntervalFunctionCall context) upperIncl
       else Ok (shardCount - 1)) = Ok upperBoundIdx
      /\ INVALID_SHARD_INDEX <= upperBoundIdx < shardCount
      /\ (hasUpper = true ->
          forall i, 0 <= i < shardCount ->
                    (startsBy rank upperBound upperIncl
                              (shardAt (sortedShardIntervalArray cacheEntry) i)
                     <-> i <= upperBoundIdx))
      /\ (hasUpper = false -> upperBoundIdx = shardCount - 1)).
  { destruct hasUpper.
    - destruct (UpperShardBoundary_sorted rank _ (sortedShardIntervalArray cacheEntry)
                  upperBound upperIncl compareInterval_order array_sorted)
        as [index [Hresult [Hrange Hstarts]]].
      fold shardCount in Hrange, Hstarts, Hresult. rewrite Hresult.
      exists index. split; [reflexivity|]. split; [exact Hrange|].
      split; [intros _; exact Hstarts | discriminate].
    - exists (shardCount - 1). split; [reflexivity|]. unfold INVALID_SHARD_INDEX.
      split; [unfold shardCount; lia|]. split; [discriminate | reflexivity]. }
  destruct HupperIdx as [upperBoundIdx [-> [HupperRange [HupperStarts HnoUpper]]]].
  cbn [bind]. unfold INVALID_SHARD_INDEX in *.
  assert (Hwithin : forall i,
             0 <= i < shardCount ->
             lowerBoundIdx <> -1 -> lowerBoundIdx <= i <= upperBoundIdx ->
             withinBounds rank prune (shardAt (sortedShardIntervalArray cacheEntry) i)).
  { intros i Hi Hvalid Hbetween. unfold withinBounds.
    assert (Hl : (forall c, greaterEqualConsts prune = Some c ->
                            reaches rank (constvalue c) true
                                    (shardAt (sortedShardIntervalArray cacheEntry) i))
                 /\ (forall c, greaterConsts prune = Some c ->
                               reaches rank (constvalue c) false
                                       (shardAt (sortedShardIntervalArray cacheEntry) i))).
    { destruct hasLower.
      - apply (Hlower eq_refl). apply HlowerReaches; try assumption; try reflexivity; lia.
      - destruct (proj1 HnoLowerBound eq_refl) as [-> ->]. split; discriminate. }
    assert (Hu : (forall c, lessEqualConsts prune = Some c ->
                            startsBy rank (constvalue c) true
                                     (shardAt (sortedShardIntervalArray cacheEntry) i))
                 /\ (forall c, lessConsts prune = Some c ->
                               startsBy rank (constvalue c) false
                                        (shardAt (sortedShardIntervalArray cacheEntry) i))).
    { destruct hasUpper.
      - apply (Hupper eq_refl). apply (HupperStarts eq_refl i Hi). lia.
      - destruct (proj1 HnoUpperBound eq_refl) as [-> ->]. split; discriminate. }
    destruct Hl, Hu. repeat split; assumption. }
  assert (Hcomplete : forall i,
             greaterEqualConsts prune = None -> greaterConsts prune = None ->
             0 <= i < shardCount ->
             withinBounds rank prune (shardAt (sortedShardIntervalArray cacheEntry) i) ->
             lowerBoundIdx = 0 /\ i <= upperBoundIdx).
  { intros i Hge Hgt Hi (_ & _ & Hle & Hlt).
    assert (hasLower = false) as HnoL by (apply HnoLowerBound; split; assumption).
    split; [exact (HnoLower HnoL)|].
    destruct hasUpper.
    - apply (HupperStarts eq_refl i Hi). apply (Hupper eq_refl). split; assumption.
    - rewrite (HnoUpper eq_refl). lia. }
  destruct (lowerBoundIdx =? -1) eqn:HlowerInvalid.
  { apply Z.eqb_eq in HlowerInvalid. exists []. split; [reflexivity|].
    split; [intros i []|].
    intros Hge Hgt i Hi Hbounds.
    destruct (Hcomplete i Hge Hgt Hi Hbounds). lia. }
  apply Z.eqb_neq in HlowerInvalid.
  destruct (upperBoundIdx =? -1) eqn:HupperInvalid.
  { apply Z.eqb_eq in HupperInvalid. exists []. split; [reflexivity|].
    split; [intros i []|].
    intros Hge Hgt i Hi Hbounds.
    destruct (Hcomplete i Hge Hgt Hi Hbounds). lia. }
  apply Z.eqb_neq in HupperInvalid.
  eexists. split; [reflexivity|]. split.
  - intros i Hin. apply indexRange_In in Hin.
    assert (0 <= i < shardCount) by lia.
    split; [assumption|]. apply Hwithin; [assumption | assumption | lia].
  - intros Hge Hgt i Hi Hbounds. apply indexRange_In.
    destruct (Hcomplete i Hge Hgt Hi Hbounds). lia.
Qed.

End PruneByBoundaries.

(** ** Pruning shard by shard *)

Section PruneExhaustively.

Variable rank : Datum -> Z.
Variable context : ClauseWalkerContext.
Variable prune : PruningInstance.
Hypothesis compareInterval_order : comparesBy rank (compareIntervalFunctionCall context).

Lemma valueOutsideInterval_comparesBy value shard :
  exists outside,
    valueOutsideInterval (compareIntervalFunctionCall context) value shard = Ok outside
    /\ (outside = false <-> holdsValue rank shard value).
Proof.
  unfold valueOutsideInterval, holdsValue.
  destruct (PerformValueCompare_comparesBy rank _ compareInterval_order value
              (minValue shard)) as [belowMin [-> [HminLt HminGt]]].
  cbn [bind]. destruct (belowMin <? 0) eqn:Hbelow.
  - apply Z.ltb_lt in Hbelow. eexists. split; [reflexivity|].
    split; [discriminate | lia].
  - apply Z.ltb_ge in Hbelow.
    destruct (PerformValueCompare_comparesBy rank _ compareInterval_order value
                (maxValue shard)) as [aboveMax [-> [HmaxLt HmaxGt]]].
    cbn [bind]. destruct (aboveMax >? 0) eqn:Habove.
    + apply Z.gtb_lt in Habove. eexists. split; [reflexivity|].
      split; [discriminate | lia].
    + assert (~ 0 < aboveMax) by (intros H; apply Z.gtb_lt in H; congruence).
      eexists. split; [reflexivity|]. split; [lia | reflexivity].
Qed.

Lemma anyValueOutsideInterval_comparesBy shard :
  forall consts,
  exists outside,
    anyValueOutsideInterval (compareIntervalFunctionCall context) consts shard
    = Ok outside
    /\ (outside = false
        <-> forall c, In c consts -> holdsValue rank shard (constvalue c)).
Proof.
  induction consts as [|c rest IH]; cbn [anyValueOutsideInterval].
  - eexists. split; [reflexivity|]. split; [intros _ c [] | reflexivity].
  - destruct (valueOutsideInterval_comparesBy (constvalue c) shard)
      as [out [-> Hout]].
    cbn [bind]. destruct out.
    + eexists. split; [reflexivity|]. split; [discriminate|].
      intros Hall. apply Hout. apply Hall. left. reflexivity.
    + destruct IH as [outside [-> Hrest]]. exists outside. split; [reflexivity|].
      rewrite Hrest. split.
      * intros Hall c' [<- | Hin]; [apply Hout; reflexivity | apply Hall; exact Hin].
      * intros Hall c' Hin. apply Hall. right. exact Hin.
Qed.

Lemma boundCheck_comparesBy (field : option Const) (left right : Const -> Datum)
      (test : Z -> bool) (P : Const -> Prop) :
  (forall c r,
      (r < 0 <-> rank (left c) < rank (right c)) ->
      (0 < r <-> rank (right c) < rank (left c)) ->
      (test r = false <-> P c)) ->
  exists excluded,
    match field with
    | Some c =>
        r <- PerformValueCompare (compareIntervalFunctionCall context) (left c) (right c) ;;
        Ok (test r)
    | None => Ok false
    end = Ok excluded
    /\ (excluded = false <-> forall c, field = Some c -> P c).
Proof.
  intros Htest. destruct field as [c|].
  - destruct (PerformValueCompare_comparesBy rank _ compareInterval_order
                (left c) (right c)) as [r [-> [Hlt Hgt]]].
    cbn [bind]. eexists. split; [reflexivity|].
    rewrite (Htest c r Hlt Hgt). split.
    + intros H c' Hc'. inversion Hc'; subst. exact H.
    + intros H. exact (H c eq_refl).
  - exists false. split; [reflexivity|]. split; [discriminate | reflexivity].
Qed.

(** [ExhaustivePruneOne] keeps an interval exactly when a boundary is
    missing or nothing in the instance excludes the interval. *)
Lemma ExhaustivePruneOne_comparesBy shard :
  exists pruned,
    ExhaustivePruneOne shard context prune = Ok pruned
    /\ (pruned = false <-> keptByExhaustivePrune rank prune shard).
Proof.
  unfold ExhaustivePruneOne, keptByExhaustivePrune.
  destruct (minValueExists shard) eqn:Hmin; cbn [negb orb];
    [|eexists; split; [reflexivity | split; [intros _; left; reflexivity | reflexivity]]].
  destruct (maxValueExists shard) eqn:Hmax; cbn [negb];
    [|eexists; split;
      [reflexivity | split; [intros _; right; left; reflexivity | reflexivity]]].
  assert (Hequal :
    exists byEqual,
      match equalConsts prune with
      | Some c => valueOutsideInterval (compareIntervalFunctionCall context)
                    (constvalue c) shard
      | None => Ok false
      end = Ok byEqual
      /\ (byEqual = false
          <-> forall c, equalConsts prune = Some c -> holdsValue rank shard (constvalue c))).
  { destruct (equalConsts prune) as [c|].
    - destruct (valueOutsideInterval_comparesBy (constvalue c) shard) as [out [-> Hout]].
      exists out. split; [reflexivity|]. rewrite Hout. split.
      + intros H c' Hc'. inversion Hc'; subst. exact H.
      + intros H. exact (H c eq_refl).
    - exists false. split; [reflexivity|]. split; [discriminate | reflexivity]. }
  destruct Hequal as [byEqual [-> HbyEqual]]. cbn [bind].
  destruct byEqual.
  { eexists. split; [reflexivity|]. split; [discriminate|].
    intros [H | [H | [H _]]]; try discriminate. apply HbyEqual. exact H. }
  destruct (anyValueOutsideInterval_comparesBy shard (saoEqualConsts prune))
    as [bySao [-> HbySao]].
  cbn [bind]. destruct bySao.
  { eexists. split; [reflexivity|]. split; [discriminate|].
    intros [H | [H | [_ [H _]]]]; try discriminate. apply HbySao. exact H. }
  unfold withinBounds.
  destruct (boundCheck_comparesBy (greaterEqualConsts prune)
              (fun _ => maxValue shard) constvalue (fun r => r <? 0)
              (fun c => reaches rank (constvalue c) true shard))
    as [byGreaterEqual [Hcheck HbyGreaterEqual]].
  { intros c r Hlt Hgt. unfold reaches. rewrite Z.ltb_ge. lia. }
  cbn beta in Hcheck. rewrite Hcheck. clear Hcheck. cbn [bind].
  destruct byGreaterEqual.
  { eexists. split; [reflexivity|]. split; [discriminate|].
    intros [H | [H | [_ [_ [H _]]]]]; try discriminate. apply HbyGreaterEqual. exact H. }
  destruct (boundCheck_comparesBy (greaterConsts prune)
              (fun _ => maxValue shard) constvalue (fun r => r <=? 0)
              (fun c => reaches rank (constvalue c) false shard))
    as [byGreater [Hcheck HbyGreater]].
  { intros c r Hlt Hgt. unfold reaches. rewrite Z.leb_gt. lia. }
  cbn beta in Hcheck. rewrite Hcheck. clear Hcheck. cbn [bind].
  destruct byGreater.
  { eexists. split; [reflexivity|]. split; [discriminate|].
    intros [H | [H | [_ [_ [_ [H _]]]]]]; try discriminate. apply HbyGreater. exact H. }
  destruct (boundCheck_comparesBy (lessEqualConsts prune)
              (fun _ => minValue shard) constvalue (fun r => r >? 0)
              (fun c => startsBy rank (constvalue c) true shard))
    as [byLessEqual [Hcheck HbyLessEqual]].
  { intros c r Hlt Hgt. unfold startsBy. split.
    - intros H. assert (~ 0 < r) by (intros H'; apply Z.gtb_lt in H'; congruence). lia.
    - intros H. destruct (r >? 0) eqn:Hr; [apply Z.gtb_lt in Hr; lia | reflexivity]. }
  cbn beta in Hcheck. rewrite Hcheck. clear Hcheck. cbn [bind].
  destruct byLessEqual.
  { eexists. split; [reflexivity|]. split; [discriminate|].
    intros [H | [H | [_ [_ [_ [_ [H _]]]]]]]; try discriminate.
    apply HbyLessEqual. exact H. }
  destruct (boundCheck_comparesBy (lessConsts prune)
              (fun _ => minValue shard) constvalue (fun r => r >=? 0)
              (fun c => startsBy rank (constvalue c) false shard))
    as [byLess [Hcheck HbyLess]].
  { intros c r Hlt Hgt. unfold startsBy. split.
    - intros H. assert (~ 0 <= r) by (intros H'; apply Z.geb_le in H'; congruence). lia.
    - intros H. destruct (r >=? 0) eqn:Hr; [apply Z.geb_le in Hr; lia | reflexivity]. }
  cbn beta in Hcheck. rewrite Hcheck. clear Hcheck. cbn [bind].
  destruct byLess.
  { eexists. split; [reflexivity|]. split; [discriminate|].
    intros [H | [H | [_ [_ [_ [_ [_ H]]]]]]]; try discriminate.
    apply HbyLess. exact H. }
  eexists. split; [reflexivity|]. split; [|reflexivity].
  intros _. right. right.
  split; [apply HbyEqual; reflexivity|].
  split; [apply HbySao; reflexivity|].
  split; [apply HbyGreaterEqual; reflexivity|].
  split; [apply HbyGreater; reflexivity|].
  split; [apply HbyLessEqual; reflexivity | apply HbyLess; reflexivity].
Qed.

Lemma ExhaustivePrune_loop_comparesBy cache :
  forall indices,
  exists shards,
    ExhaustivePrune_loop cache context prune indices = Ok shards
    /\ (forall i, In i shards
                  <-> In i indices /\ keptByExhaustivePrune rank prune (shardAt cache i)).
Proof.
  induction indices as [|curIdx rest IH]; cbn [ExhaustivePrune_loop].
  - exists []. split; [reflexivity|]. intros i. simpl. tauto.
  - destruct (ExhaustivePruneOne_comparesBy (shardAt cache curIdx))
      as [pruned [-> Hpruned]].
    cbn [bind]. destruct IH as [remaining [-> Hremaining]]. cbn [bind].
    destruct pruned.
    + exists remaining. split; [reflexivity|]. intros i. rewrite Hremaining. split.
      * intros [Hin Hkept]. split; [right; exact Hin | exact Hkept].
      * intros [[<- | Hin] Hkept]; [|split; assumption].
        apply Hpruned in Hkept. discriminate.
    + exists (curIdx :: remaining). split; [reflexivity|]. intros i. simpl.
      rewrite Hremaining. split.
      * intros [<- | [Hin Hkept]];
          [split; [left; reflexivity | apply Hpruned; reflexivity]
          | split; [right; exact Hin | exact Hkept]].
      * intros [[<- | Hin] Hkept]; [left; reflexivity | right; split; assumption].
Qed.

End PruneExhaustively.

(** X12. [ExhaustivePrune] under an interval comparator that orders the
    datums: it returns exactly the intervals of the array that
    [ExhaustivePruneOne] keeps, and an interval is kept when one of its
    boundaries is missing, or when it holds the equality value of the
    instance, holds every one of its membership values, and none of the
    four range bounds excludes it. *)
Theorem ExhaustivePrune_keeps_what_nothing_excludes rank cacheEntry context prune :
  comparesBy rank (compareIntervalFunctionCall context) ->
  exists shards,
    ExhaustivePrune cacheEntry context prune = Ok shards
    /\ (forall i,
           In i shards
           <-> 0 <= i < shardIntervalArrayLength cacheEntry
               /\ keptByExhaustivePrune rank prune
                    (shardAt (sortedShardIntervalArray cacheEntry) i)).
Proof.
  intros Horder. unfold ExhaustivePrune.
  destruct (ExhaustivePrune_loop_comparesBy rank context prune Horder
              (sortedShardIntervalArray cacheEntry)
              (indexRange 0 (shardIntervalArrayLength cacheEntry - 1)))
    as [shards [Hloop Hshards]].
  exists shards. split; [exact Hloop|].
  intros i. rewrite Hshards, indexRange_In. split.
  - intros [Hi Hkept]. split; [lia | exact Hkept].
  - intros [Hi Hkept]. split; [lia | exact Hkept].
Qed.

Lemma ExhaustivePrune_keeps_what_nothing_excludes_witness :
  exists shards,
    ExhaustivePrune appendTable
      (mkContext keyColumn DISTRIBUTE_BY_APPEND btint4cmp btint4cmp)
      (equalityInstance (int4Const 1500)) = Ok shards
    /\ (forall i,
           In i shards
           <-> 0 <= i < shardIntervalArrayLength appendTable
               /\ keptByExhaustivePrune (fun datum => datum)
                    (equalityInstance (int4Const 1500))
                    (shardAt (sortedShardIntervalArray appendTable) i)).
Proof.
  exact (ExhaustivePrune_keeps_what_nothing_excludes (fun datum => datum) appendTable
           (mkContext keyColumn DISTRIBUTE_BY_APPEND btint4cmp btint4cmp)
           (equalityInstance (int4Const 1500)) btint4cmp_comparesBy).
Defined.

(** X13. [PruneOne] for an instance that holds range bounds only, on a
    table whose sorted array has disjoint intervals, under an interval
    comparator that orders the datums: the binary searches of
    [PruneWithBoundaries] never return an interval that one of the four
    bounds excludes; and when the instance has no lower bound, they return
    every interval that the upper bounds do not exclude. *)
Theorem PruneOne_by_boundaries rank cacheEntry context prune :
  comparesBy rank (compareIntervalFunctionCall context) ->
  sortedDisjoint rank (sortedShardIntervalArray cacheEntry) ->
  hasOverlappingShardInterval cacheEntry = false ->
  pinsNoValue prune ->
  hasRangeConstraint prune = true ->
  exists shards,
    PruneOne cacheEntry context prune = Ok shards
    /\ (forall i, In i shards ->
                  0 <= i < shardIntervalArrayLength cacheEntry
                  /\ withinBounds rank prune (shardAt (sortedShardIntervalArray cacheEntry) i))
    /\ (greaterEqualConsts prune = None -> greaterConsts prune = None ->
        forall i, 0 <= i < shardIntervalArrayLength cacheEntry ->
                  withinBounds rank prune (shardAt (sortedShardIntervalArray cacheEntry) i) ->
                  In i shards).
Proof.
  intros Horder Hsorted Hoverlap (Hfalse & Hequal & Hsao & Hhashed & _) Hrange.
  unfold PruneOne, PruneOne_sao, PruneOne_hashed, PruneOne_ranges.
  rewrite Hfalse, Hequal, Hsao, Hhashed, Hoverlap, Hrange. cbn [negb andb].
  exact (PruneWithBoundaries_sorted rank cacheEntry context prune Horder Hsorted).
Qed.

(** [col < 500] on the range table: the first shard, and only it. *)
Lemma PruneOne_by_boundaries_witness :
  exists shards,
    PruneOne rangeTable (mkContext keyColumn DISTRIBUTE_BY_RANGE btint4cmp btint4cmp)
      (mkPruningInstance true false (Some (int4Const 500)) None None None None []
                         None [] true false) = Ok shards
    /\ (forall i, In i shards ->
                  0 <= i < shardIntervalArrayLength rangeTable
                  /\ withinBounds (fun datum => datum)
                       (mkPruningInstance true false (Some (int4Const 500)) None None None
                                          None [] None [] true false)
                       (shardAt (sortedShardIntervalArray rangeTable) i))
    /\ (greaterEqualConsts
          (mkPruningInstance true false (Some (int4Const 500)) None None None None []
                             None [] true false) = None ->
        greaterConsts
          (mkPruningInstance true false (Some (int4Const 500)) None None None None []
                             None [] true false) = None ->
        forall i, 0 <= i < shardIntervalArrayLength rangeTable ->
                  withinBounds (fun datum => datum)
                    (mkPruningInstance true false (Some (int4Const 500)) None None None
                                       None [] None [] true false)
                    (shardAt (sortedShardIntervalArray rangeTable) i) ->
                  In i shards).
Proof.
  apply (PruneOne_by_boundaries (fun datum => datum) rangeTable
           (mkContext keyColumn DISTRIBUTE_BY_RANGE btint4cmp btint4cmp)
           (mkPruningInstance true false (Some (int4Const 500)) None None None None []
                              None [] true false)).
  - exact btint4cmp_comparesBy.
  - exact adjacentShards_sortedDisjoint.
  - reflexivity.
  - repeat split.
  - reflexivity.
Defined.


(** ** The order of the operands *)

(** [PruneShards] looks at the where clause list through
    [ContainsFalseClause] and the instances of the walk only. *)
Lemma PruneShards_same_instances cat cacheEntry whereClauseList whereClauseList'
      wantsPartitionValue :
  ContainsFalseClause whereClauseList = ContainsFalseClause whereClauseList' ->
  (forall compareValue,
      PrunableExpressionsWalker2 cat (partitionColumn cacheEntry) compareValue
        (NormalizedPruneTree cat (partitionColumn cacheEntry) whereClauseList)
      = PrunableExpressionsWalker2 cat (partitionColumn cacheEntry) compareValue
          (NormalizedPruneTree cat (partitionColumn cacheEntry) whereClauseList')) ->
  PruneShards cat cacheEntry whereClauseList wantsPartitionValue
  = PruneShards cat cacheEntry whereClauseList' wantsPartitionValue.
Proof.
  intros Hfalse Hwalk. unfold PruneShards. cbn [ctxPartitionColumn compareValueFunctionCall].
  rewrite Hfalse.
  destruct (shardIntervalArrayLength cacheEntry =? 0); [reflexivity|].
  destruct (ContainsFalseClause whereClauseList'); [reflexivity|].
  destruct (partitionMethod cacheEntry); try reflexivity;
    destruct (shardIntervalCompareFunction cacheEntry); try reflexivity;
    destruct (shardColumnCompareFunction cacheEntry); try reflexivity;
    rewrite Hwalk; reflexivity.
Qed.

Lemma AddPartitionKeyRestriction_case_matched compareValue constantClause strategy
      prune matchedOp st :
  strategy <> ROWCOMPARE_NE ->
  AddPartitionKeyRestriction_case compareValue constantClause strategy prune matchedOp
  = Ok st ->
  snd st = true.
Proof.
  intros Hstrategy Hcase. unfold AddPartitionKeyRestriction_case in Hcase.
  destruct strategy; try contradiction;
    repeat match type of Hcase with
           | match ?x with _ => _ end = _ => destruct x
           | bind ?m _ = _ =>
               apply bind_Ok in Hcase; destruct Hcase as [r [_ Hcase]]
           | (if ?b then _ else _) = _ => destruct b
           end;
    inversion Hcase; reflexivity.
Qed.

(** An operator the classifier accepts on the partition column ends the
    loop over its interpretations with [matchedOp] set. *)
Lemma AddPartitionKeyRestriction_loop_matched compareValue constantClause :
  forall interpretations prune matchedOp st,
    IsValidPartitionKeyRestriction_loop interpretations matchedOp = true ->
    AddPartitionKeyRestriction_loop compareValue constantClause interpretations
                                    prune matchedOp = Ok st ->
    snd st = true.
Proof.
  induction interpretations as [|strategy rest IH]; intros prune matchedOp st Hvalid Hloop;
    simpl in Hloop.
  - inversion Hloop; subst. exact Hvalid.
  - apply bind_Ok in Hloop. destruct Hloop as [st1 [Hcase Hloop]].
    assert (Hstrategy : strategy <> ROWCOMPARE_NE)
      by (intros ->; discriminate).
    pose proof (AddPartitionKeyRestriction_case_matched _ _ _ _ _ _ Hstrategy Hcase)
      as Hmatched.
    refine (IH _ _ _ _ Hloop). rewrite Hmatched.
    destruct strategy; try exact Hvalid. contradiction.
Qed.

(** [HandleConditionNode] reads an accepted operator expression through
    its operator and the pair [constAndVarOperands] finds. *)
Lemma HandleConditionNode_operands cat partitionColumn compareValue opno args args' prune :
  constAndVarOperands args = constAndVarOperands args' ->
  IsValidConditionNode cat (T_OpExpr opno args) partitionColumn = true ->
  HandleConditionNode cat partitionColumn compareValue (T_OpExpr opno args) prune
  = HandleConditionNode cat partitionColumn compareValue (T_OpExpr opno args') prune.
Proof.
  intros Hoperands Hvalid. unfold HandleConditionNode, IsValidConditionNode in *.
  rewrite <- Hoperands.
  destruct (constAndVarOperands args) as [[constantClause varClause]|]; [|reflexivity].
  destruct (Var_eqb varClause partitionColumn); [|reflexivity].
  unfold AddPartitionKeyRestrictionToInstance.
  destruct (AddPartitionKeyRestriction_loop compareValue constantClause
              (get_op_btree_interpretation cat opno)
              (set_addedToPruningInstances true prune) false) as [st|e] eqn:Hloop;
    [|reflexivity].
  cbn [bind].
  rewrite (AddPartitionKeyRestriction_loop_matched _ _ _ _ _ _ Hvalid Hloop).
  reflexivity.
Qed.

Lemma HandleConditionNodes_app cat partitionColumn compareValue :
  forall nodes nodes' prune,
    HandleConditionNodes cat partitionColumn compareValue (nodes ++ nodes') prune
    = (prune' <- HandleConditionNodes cat partitionColumn compareValue nodes prune ;;
       HandleConditionNodes cat partitionColumn compareValue nodes' prune').
Proof.
  induction nodes as [|node rest IH]; intros nodes' prune; simpl; [reflexivity|].
  destruct (HandleConditionNode cat partitionColumn compareValue node prune);
    simpl; [apply IH | reflexivity].
Qed.

(** X14. The fold takes the constant of a comparison from either side and
    does not ask on which side it stood: in a where clause list of operator
    expressions, [constant op column] is pruned exactly like
    [column op constant]. *)
Theorem operand_order_is_ignored cat cacheEntry before opno constant column after
        wantsPartitionValue :
  forallb isConditionNode (before ++ after) = true ->
  PruneShards cat cacheEntry
    (before ++ T_OpExpr opno [T_Const constant; T_Var column] :: after)
    wantsPartitionValue
  = PruneShards cat cacheEntry
      (before ++ T_OpExpr opno [T_Var column; T_Const constant] :: after)
      wantsPartitionValue.
Proof.
  intros Hnodes. rewrite forallb_app in Hnodes.
  apply andb_true_iff in Hnodes. destruct Hnodes as [Hbefore Hafter].
  assert (Hlist : forall args,
             forallb isConditionNode (before ++ T_OpExpr opno args :: after) = true)
    by (intros; rewrite forallb_app; simpl; rewrite Hbefore, Hafter; reflexivity).
  apply PruneShards_same_instances.
  - rewrite !ContainsFalseClause_conditions by apply Hlist. reflexivity.
  - intros compareValue.
    rewrite !PrunableExpressionsWalker2_condition_list by apply Hlist.
    rewrite !filter_app. cbn [filter].
    assert (Hsame : constAndVarOperands [T_Const constant; T_Var column]
                    = constAndVarOperands [T_Var column; T_Const constant])
      by reflexivity.
    assert (Hclass :
      IsValidConditionNode cat (T_OpExpr opno [T_Const constant; T_Var column])
                           (partitionColumn cacheEntry)
      = IsValidConditionNode cat (T_OpExpr opno [T_Var column; T_Const constant])
                             (partitionColumn cacheEntry)) by reflexivity.
    rewrite <- Hclass.
    destruct (IsValidConditionNode cat (T_OpExpr opno [T_Const constant; T_Var column])
                                   (partitionColumn cacheEntry)) eqn:Hvalid.
    + set (accepted := filter _ before). set (accepted' := filter _ after).
      assert (Hfold :
        HandleConditionNodes cat (partitionColumn cacheEntry) compareValue
          (accepted ++ T_OpExpr opno [T_Const constant; T_Var column] :: accepted')
          emptyPruningInstance
        = HandleConditionNodes cat (partitionColumn cacheEntry) compareValue
            (accepted ++ T_OpExpr opno [T_Var column; T_Const constant] :: accepted')
            emptyPruningInstance).
      { rewrite !HandleConditionNodes_app.
        destruct (HandleConditionNodes cat (partitionColumn cacheEntry) compareValue
                    accepted emptyPruningInstance); [|reflexivity].
        cbn [bind HandleConditionNodes].
        rewrite (HandleConditionNode_operands _ _ _ _ _ _ _ Hsame Hvalid).
        reflexivity. }
      destruct accepted; cbn [app] in *; rewrite Hfold; reflexivity.
    + destruct (filter _ before ++ filter _ after); [|reflexivity].
      destruct before; reflexivity.
Qed.

(** On the range table [500 < col] returns the first shard, as
    [col < 500] does; a row with key 1800 passes the clause and lives in
    the second shard. *)
Lemma operand_order_is_ignored_witness :
  PruneShards int4Catalog rangeTable
    [T_OpExpr Int4LessOperator [T_Const (int4Const 500); T_Var keyColumn]] false
  = PruneShards int4Catalog rangeTable
      [T_OpExpr Int4LessOperator [T_Var keyColumn; T_Const (int4Const 500)]] false
  /\ PruneShards int4Catalog rangeTable
       [T_OpExpr Int4LessOperator [T_Const (int4Const 500); T_Var keyColumn]] false
     = Ok ([firstShard], NotWritten)
  /\ rowSatisfies int4Catalog btint4cmp (rowWithKey 1800)
       [T_OpExpr Int4LessOperator [T_Const (int4Const 500); T_Var keyColumn]] = true
  /\ shardContains btint4cmp secondShard 1800 = true.
Proof.
  split; [|split; [|split]; reflexivity].
  apply (operand_order_is_ignored int4Catalog rangeTable [] Int4LessOperator
           (int4Const 500) keyColumn [] false).
  reflexivity.
Defined.


(** ** Rows and the instance of a branch *)




Section RowsAndInstances.

Variable rank : Datum -> Z.
Variable cat : Catalog.
Variable partitionColumn : Var.
Variable compareValue : CompareFunction.
Hypothesis compareValue_order : comparesBy rank compareValue.






End RowsAndInstances.


Lemma applyKeyBound_hasValidConstraint compareValues strategy constant prune :
  hasValidConstraint (applyKeyBound compareValues strategy constant prune)
  = hasValidConstraint prune.
Proof.
  unfold applyKeyBound.
  destruct strategy; try reflexivity;
    match goal with
    | |- context [match ?field prune with _ => _ end] => destruct (field prune)
    end;
    try match goal with |- context [if ?b then _ else _] => destruct b end;
    reflexivity.
Qed.




(** ** Shards that hold the key of a passing row *)










